(** * Verification of the Xcode project patchers of ios-share

    Two scripts are embedded here:
    - [frontend/ImageHost/add_export_service.py] registers
      [ExportService.swift] in [project.pbxproj];
    - [frontend/imghost/integrate_xcconfig.py] adds the xcconfig files and
      wires them into the Debug / Release build configurations.

    Both read the project file into a Python [str] (in text mode, so
    that every line ending is read as a newline), rewrite it with
    [re.search], [str.replace] and [re.sub], and write it back.  The
    embedding is shallow: Python strings are lists of characters, the
    string and regular-expression primitives are executable functions that
    follow CPython's behaviour, and file access, printing and [exit] are
    commands of a small state-and-exit monad over an explicit world. *)

From Stdlib Require Import Ascii String NArith Lia.
From stdpp Require Import base list.

Local Open Scope list_scope.

(** ** Python strings *)

(** A [str] is a sequence of characters.  Characters are modelled by
    [ascii], i.e. the code points below 256; every character the two
    scripts test or insert is in that range. *)
Definition str := list ascii.

(** String literals of the scripts.  A quotation mark, a tab and a newline
    are written with their own names. *)
Definition py (s : string) : str := list_ascii_of_string s.

Definition dquote : ascii := ascii_of_nat 34.
Definition tab : ascii := ascii_of_nat 9.
Definition nl : ascii := ascii_of_nat 10.
Definition cr : ascii := ascii_of_nat 13.

Module Py.

(** [s.startswith(p)] *)
Fixpoint startswith (p s : str) : bool :=
  match p, s with
  | [], _ => true
  | _ :: _, [] => false
  | a :: p', b :: s' => if Ascii.eqb a b then startswith p' s' else false
  end.

(** [sub in s] *)
Fixpoint contains (sub s : str) : bool :=
  startswith sub s ||
  match s with
  | [] => false
  | _ :: s' => contains sub s'
  end.

(** The scanning loop of [str.replace] for a non-empty [old]: the text is
    read left to right; at an occurrence of [old] the replacement is
    emitted and the scan resumes after the occurrence ([skip] counts the
    characters of the occurrence still to be passed over), so occurrences
    are replaced leftmost first and do not overlap. *)
Fixpoint replace_go (old new : str) (skip : nat) (s : str) : str :=
  match s with
  | [] => []
  | c :: s' =>
      match skip with
      | S k => replace_go old new k s'
      | O =>
          if startswith old s
          then new ++ replace_go old new (length old - 1) s'
          else c :: replace_go old new 0 s'
      end
  end.

(** [s.replace(old, new)], every occurrence (no count argument).  With an
    empty [old] Python puts [new] before every character and at the end. *)
Definition replace (s old new : str) : str :=
  match old with
  | [] => new ++ flat_map (fun c => c :: new) s
  | _ :: _ => replace_go old new 0 s
  end.

(** [s[b:e]] for [0 <= b], [0 <= e]. *)
Definition slice (s : str) (b e : nat) : str := take (e - b) (drop b s).

(** What [f.read()] returns of a file opened with [open(path, 'r')]: in
    text mode with the default [newline=None] (universal newlines) every
    line ending of the file, a carriage return followed by a newline or a
    carriage return alone, is turned into one newline. *)
Fixpoint universal_newlines (s : str) : str :=
  match s with
  | [] => []
  | c :: s' =>
      if Ascii.eqb c cr
      then nl :: match s' with
                 | d :: s'' =>
                     if Ascii.eqb d nl
                     then universal_newlines s''
                     else universal_newlines s'
                 | [] => []
                 end
      else c :: universal_newlines s'
  end.

End Py.

(** ** Regular expressions: the fragment of [re] the scripts use *)

Module Re.

(** Character sets of the patterns: [.] under [re.DOTALL], a negated
    one-character class such as [[^}]], and [\s]. *)
Inductive cset :=
  | CAny
  | CNot (c : ascii)
  | CSpace.

(** [str.isspace] on the code points below 256, which is what [\s] tests
    on a [str] pattern. *)
Definition isspace (x : ascii) : bool :=
  let n := nat_of_ascii x in
  ((9 <=? n) && (n <=? 13)) || ((28 <=? n) && (n <=? 32))
  || (n =? 133) || (n =? 160).

Definition in_cset (cs : cset) (x : ascii) : bool :=
  match cs with
  | CAny => true
  | CNot c => negb (Ascii.eqb x c)
  | CSpace => isspace x
  end.

(** A pattern is a sequence of nodes: a literal, a greedy [+] or [*] over
    a character set, a lazy [*?] over a character set, and the opening and
    closing parenthesis of capture group 1 (no pattern of the scripts has
    a second group). *)
Inductive node :=
  | Lit (l : str)
  | Plus (cs : cset)
  | Star (cs : cset)
  | LazyStar (cs : cset)
  | GOpen
  | GClose.

Definition pattern := list node.

(** Capture state: where group 1 was opened and closed, as offsets from
    the start of the match. *)
Definition caps : Type := option nat * option nat.

(** The continuation of a node gets the offset reached, the text still to
    be read and the captures. *)
Definition cont : Type := nat -> str -> caps -> option (nat * caps).

(** Greedy repetition: take a character of the set and go on; when the
    rest of the pattern fails after that, give the character back. *)
Fixpoint greedy_rep (cs : cset) (k : cont) (off : nat) (s : str) (c : caps)
  : option (nat * caps) :=
  match s with
  | x :: s' =>
      if in_cset cs x
      then match greedy_rep cs k (S off) s' c with
           | Some r => Some r
           | None => k off s c
           end
      else k off s c
  | [] => k off s c
  end.

(** Lazy repetition: try the rest of the pattern first, take one more
    character only when it fails. *)
Fixpoint lazy_rep (cs : cset) (k : cont) (off : nat) (s : str) (c : caps)
  : option (nat * caps) :=
  match k off s c with
  | Some r => Some r
  | None =>
      match s with
      | x :: s' => if in_cset cs x then lazy_rep cs k (S off) s' c else None
      | [] => None
      end
  end.

(** The backtracking matcher, anchored at the start of [s]: the offset of
    the end of the match and the captures, or [None]. *)
Fixpoint exec (p : pattern) : cont :=
  match p with
  | [] => fun off _ c => Some (off, c)
  | Lit l :: p' =>
      fun off s c =>
        if Py.startswith l s
        then exec p' (off + length l) (drop (length l) s) c
        else None
  | Plus cs :: p' =>
      fun off s c =>
        match s with
        | x :: s' => if in_cset cs x then greedy_rep cs (exec p') (S off) s' c else None
        | [] => None
        end
  | Star cs :: p' => greedy_rep cs (exec p')
  | LazyStar cs :: p' => lazy_rep cs (exec p')
  | GOpen :: p' => fun off s c => exec p' off s (Some off, snd c)
  | GClose :: p' => fun off s c => exec p' off s (fst c, Some off)
  end.

(** A match object: where the match starts in the searched text, its
    length, and the text of group 1 when the group took part. *)
Record rmatch := Match {
  m_start : nat;
  m_len : nat;
  m_group1 : option str
}.

Definition match_here (p : pattern) (s : str) : option (nat * option str) :=
  match exec p 0 s (None, None) with
  | Some (n, (Some b, Some e)) => Some (n, Some (Py.slice s b e))
  | Some (n, _) => Some (n, None)
  | None => None
  end.

(** [re.search]: the first position at which the pattern matches. *)
Fixpoint search_from (p : pattern) (i : nat) (s : str) : option rmatch :=
  match match_here p s with
  | Some (n, g) => Some (Match i n g)
  | None =>
      match s with
      | [] => None
      | _ :: s' => search_from p (S i) s'
      end
  end.

Definition search (p : pattern) (s : str) : option rmatch := search_from p 0 s.

(** [m.group(1)].  In every pattern below group 1 takes part in every
    match (lemma [group1_takes_part]), so the [None] of Python never
    arises; it is rendered as the empty string. *)
Definition group1 (m : rmatch) : str := default [] (m_group1 m).

(** A replacement template: [\1] and literal text. *)
Inductive titem :=
  | TGroup1
  | TText (t : str).

Definition template := list titem.

Definition expand (t : template) (g : option str) : str :=
  flat_map (fun it => match it with
                      | TGroup1 => default [] g
                      | TText x => x
                      end) t.

(** The loop of [re.sub]: matches are looked for left to right and do not
    overlap; a match is replaced by the expanded template, any other
    character is copied.  After an empty match the next character is
    copied and the scan moves on by one. *)
Fixpoint sub_go (p : pattern) (t : template) (skip : nat) (s : str) : str :=
  match s with
  | [] =>
      match skip, match_here p [] with
      | O, Some (_, g) => expand t g
      | _, _ => []
      end
  | c :: s' =>
      match skip with
      | S k => sub_go p t k s'
      | O =>
          match match_here p s with
          | Some (O, g) => expand t g ++ c :: sub_go p t 0 s'
          | Some (S n, g) => expand t g ++ sub_go p t n s'
          | None => c :: sub_go p t 0 s'
          end
      end
  end.

(** [re.sub(p, t, s)] *)
Definition sub (p : pattern) (t : template) (s : str) : str := sub_go p t 0 s.

End Re.

(** ** The world of a script: one file, standard output, exit *)

Module IO.

(** What a script does to the outside, in order. *)
Inductive event :=
  | Read
  | Write (content : str)
  | Print (line : str)
  | Exit (code : nat).

(** The content of the project file and the events so far (oldest
    first). *)
Record world := World {
  disk : str;
  log : list event
}.

(** A command either returns a value or ends the process ([exit]). *)
Inductive outcome (A : Type) :=
  | Ret (a : A)
  | Stop (code : nat).
Arguments Ret {A} a.
Arguments Stop {A} code.

Definition io (A : Type) : Type := world -> outcome A * world.

Definition ret {A} (a : A) : io A := fun w => (Ret a, w).

Definition bind {A B} (c : io A) (k : A -> io B) : io B :=
  fun w =>
    match c w with
    | (Ret a, w') => k a w'
    | (Stop code, w') => (Stop code, w')
    end.

Definition emit (e : event) (w : world) : world :=
  World (disk w) (log w ++ [e]).

(** [with open(path, 'r') as f: f.read()]: the file is opened in text
    mode, so the content returned is the file with its line endings
    translated. *)
Definition read_file : io str :=
  fun w => (Ret (Py.universal_newlines (disk w)), emit Read w).

(** [with open(path, 'w') as f: f.write(content)]: the file is replaced by
    the content.  In text mode a newline is written as [os.linesep], which
    is the newline itself on macOS, where Xcode and both scripts run (the
    path in [integrate_xcconfig.py] is under [/Users]). *)
Definition write_file (content : str) : io unit :=
  fun w => (Ret tt, World content (log w ++ [Write content])).

(** [print(line)] *)
Definition print (line : str) : io unit :=
  fun w => (Ret tt, emit (Print line) w).

(** [exit(code)] *)
Definition exit {A} (code : nat) : io A :=
  fun w => (Stop code, emit (Exit code) w).

(** Running a script on a project file: the exit status of the process
    and the world it leaves.  A script that reaches its end exits with
    status 0. *)
Definition run (c : io unit) (file : str) : nat * world :=
  match c (World file []) with
  | (Ret _, w) => (0, w)
  | (Stop code, w) => (code, w)
  end.

Definition status (r : nat * world) : nat := fst r.
Definition final_disk (r : nat * world) : str := disk (snd r).
Definition events (r : nat * world) : list event := log (snd r).

(** The lines printed, in order. *)
Definition stdout (r : nat * world) : list str :=
  omap (fun e => match e with Print l => Some l | _ => None end) (events r).

(** The contents written to the file, in order. *)
Definition writes (r : nat * world) : list str :=
  omap (fun e => match e with Write c => Some c | _ => None end) (events r).

(** The content of the file after each event of a log, starting from
    [file]. *)
Fixpoint disk_history (file : str) (l : list event) : list str :=
  match l with
  | [] => []
  | Write c :: l' => c :: disk_history c l'
  | _ :: l' => file :: disk_history file l'
  end.

End IO.

Notation "x <- c1 ;; c2" := (IO.bind c1 (fun x => c2))
  (at level 100, c1 at next level, right associativity).
Notation "c1 ;;; c2" := (IO.bind c1 (fun _ => c2))
  (at level 100, right associativity).

(** ** [uuid.uuid4().hex[:24].upper()] *)

Module Uuid.

(** [uuid.uuid4()] draws 16 random bytes and forces the variant and the
    version bits; [random] is the integer of those bytes. *)
Definition uuid4 (random : N) : N :=
  let i := N.ldiff random (N.shiftl 0xc000 48) in
  let i := N.lor i (N.shiftl 0x8000 48) in
  let i := N.ldiff i (N.shiftl 0xf000 64) in
  N.lor i (N.shiftl 4 76).

Definition hexdigit (d : N) : ascii :=
  nth (N.to_nat d) (py "0123456789abcdef") "0"%char.

(** [.hex], i.e. ['%032x' % int]: 32 digits, most significant first. *)
Definition hex (i : N) : str :=
  map (fun k => hexdigit (N.land (N.shiftr i (4 * N.of_nat k)) 15))
      (rev (seq 0 32)).

(** [str.upper] on one ASCII character. *)
Definition upper_char (c : ascii) : ascii :=
  let n := nat_of_ascii c in
  if (97 <=? n) && (n <=? 122) then ascii_of_nat (n - 32) else c.

(** [str.upper], on ASCII text. *)
Definition upper (s : str) : str := map upper_char s.

(** The identifier the script makes of 16 random bytes. *)
Definition token (random : N) : str := upper (take 24 (hex (uuid4 random))).

End Uuid.

(** ** [frontend/ImageHost/add_export_service.py] *)

Module AddExportService.

(** [r'(/\* Services \*/ = \{[^}]+children = \([^)]+)'] *)
Definition services_pattern : Re.pattern :=
  [Re.GOpen; Re.Lit (py "/* Services */ = {"); Re.Plus (Re.CNot "}");
   Re.Lit (py "children = ("); Re.Plus (Re.CNot ")"); Re.GClose].

(** [r'(/\* Begin PBXBuildFile section \*/)'] *)
Definition build_file_section_pattern : Re.pattern :=
  [Re.GOpen; Re.Lit (py "/* Begin PBXBuildFile section */"); Re.GClose].

(** [r'(/\* Begin PBXFileReference section \*/)'] *)
Definition file_ref_section_pattern : Re.pattern :=
  [Re.GOpen; Re.Lit (py "/* Begin PBXFileReference section */"); Re.GClose].

(** [r'(/\* Sources \*/ = \{[^}]+files = \([^)]+)'] *)
Definition sources_phase_pattern : Re.pattern :=
  [Re.GOpen; Re.Lit (py "/* Sources */ = {"); Re.Plus (Re.CNot "}");
   Re.Lit (py "files = ("); Re.Plus (Re.CNot ")"); Re.GClose].

(** [f'\n\t\t\t\t{file_ref_uuid} /* ExportService.swift */,'] *)
Definition services_child (file_ref_uuid : str) : str :=
  [nl; tab; tab; tab; tab] ++ file_ref_uuid ++ py " /* ExportService.swift */,".

(** The build-file entry, an f-string in which [{{] and [}}] stand for
    one brace. *)
Definition build_file_entry (file_ref_uuid build_file_uuid : str) : str :=
  [nl; tab; tab] ++ build_file_uuid
  ++ py " /* ExportService.swift in Sources */ = {isa = PBXBuildFile; fileRef = "
  ++ file_ref_uuid ++ py " /* ExportService.swift */; };".

(** The file-reference entry. *)
Definition file_ref_entry (file_ref_uuid : str) : str :=
  [nl; tab; tab] ++ file_ref_uuid
  ++ py " /* ExportService.swift */ = {isa = PBXFileReference; lastKnownFileType = sourcecode.swift; path = ExportService.swift; sourceTree = "
  ++ [dquote] ++ py "<group>" ++ [dquote] ++ py "; };".

(** [f'\n\t\t\t\t{build_file_uuid} /* ExportService.swift in Sources */,'] *)
Definition sources_child (build_file_uuid : str) : str :=
  [nl; tab; tab; tab; tab] ++ build_file_uuid
  ++ py " /* ExportService.swift in Sources */,".

(** Add file reference to Services group children. *)
Definition add_to_services (file_ref_uuid : str) (services_match : Re.rmatch)
    (content : str) : str :=
  let services_replacement :=
    Re.group1 services_match ++ services_child file_ref_uuid in
  Py.replace content (Re.group1 services_match) services_replacement.

(** Find the PBXBuildFile section and add build file reference. *)
Definition add_build_file (file_ref_uuid build_file_uuid content : str) : str :=
  match Re.search build_file_section_pattern content with
  | Some build_file_match =>
      Py.replace content (Re.group1 build_file_match)
        (Re.group1 build_file_match
         ++ build_file_entry file_ref_uuid build_file_uuid)
  | None => content
  end.

(** Find the PBXFileReference section and add file reference. *)
Definition add_file_ref (file_ref_uuid content : str) : str :=
  match Re.search file_ref_section_pattern content with
  | Some file_ref_match =>
      Py.replace content (Re.group1 file_ref_match)
        (Re.group1 file_ref_match ++ file_ref_entry file_ref_uuid)
  | None => content
  end.

(** Find the PBXSourcesBuildPhase section and add to Sources. *)
Definition add_to_sources (build_file_uuid content : str) : str :=
  match Re.search sources_phase_pattern content with
  | Some sources_match =>
      let sources_replacement :=
        Re.group1 sources_match ++ sources_child build_file_uuid in
      Py.replace content (Re.group1 sources_match) sources_replacement
  | None => content
  end.

(** The four directives in the order of the script, once the Services
    group has been found. *)
Definition patch (file_ref_uuid build_file_uuid : str)
    (services_match : Re.rmatch) (content : str) : str :=
  let content := add_to_services file_ref_uuid services_match content in
  let content := add_build_file file_ref_uuid build_file_uuid content in
  let content := add_file_ref file_ref_uuid content in
  add_to_sources build_file_uuid content.

(** The lines printed at the end. *)
Definition report (file_ref_uuid build_file_uuid : str) : list str :=
  [py "Added ExportService.swift to Xcode project";
   py "File Reference UUID: " ++ file_ref_uuid;
   py "Build File UUID: " ++ build_file_uuid].

(** The script.  [random1] and [random2] are the random bytes drawn by the
    two calls of [uuid.uuid4()]. *)
Definition script (random1 random2 : N) : IO.io unit :=
  content <- IO.read_file ;;
  let file_ref_uuid := Uuid.token random1 in
  let build_file_uuid := Uuid.token random2 in
  match Re.search services_pattern content with
  | None =>
      IO.print (py "ERROR: Could not find Services group") ;;;
      IO.exit 1
  | Some services_match =>
      let content := patch file_ref_uuid build_file_uuid services_match content in
      IO.write_file content ;;;
      IO.print (py "Added ExportService.swift to Xcode project") ;;;
      IO.print (py "File Reference UUID: " ++ file_ref_uuid) ;;;
      IO.print (py "Build File UUID: " ++ build_file_uuid)
  end.

End AddExportService.

(** ** [frontend/imghost/integrate_xcconfig.py] *)

Module IntegrateXcconfig.

Definition debug_xcconfig_ref : str := py "A10000F1000".
Definition release_xcconfig_ref : str := py "A10000F2000".
Definition config_group_ref : str := py "A10000F3000".

Definition end_file_ref_marker : str := py "/* End PBXFileReference section */".
Definition end_group_marker : str := py "/* End PBXGroup section */".

(** [r'/\* Begin PBXFileReference section \*/(.*?)/\* End PBXFileReference section \*/']
    with [re.DOTALL] *)
Definition file_ref_section_pattern : Re.pattern :=
  [Re.Lit (py "/* Begin PBXFileReference section */"); Re.GOpen;
   Re.LazyStar Re.CAny; Re.GClose; Re.Lit end_file_ref_marker].

(** [r'/\* Begin PBXGroup section \*/(.*?)/\* End PBXGroup section \*/']
    with [re.DOTALL] *)
Definition group_section_pattern : Re.pattern :=
  [Re.Lit (py "/* Begin PBXGroup section */"); Re.GOpen;
   Re.LazyStar Re.CAny; Re.GClose; Re.Lit end_group_marker].

(** The root group pattern: an opening parenthesis (group 1), then
    [A10000A0000 = \{\s*isa = PBXGroup;\s*children = \(\s*], then the
    closing parenthesis of the group. *)
Definition root_group_pattern : Re.pattern :=
  [Re.GOpen; Re.Lit (py "A10000A0000 = {"); Re.Star Re.CSpace;
   Re.Lit (py "isa = PBXGroup;"); Re.Star Re.CSpace;
   Re.Lit (py "children = ("); Re.Star Re.CSpace; Re.GClose].

(** [r'(A1000180000 /\* Debug \*/ = \{\s*isa = XCBuildConfiguration;)'] *)
Definition debug_config_pattern : Re.pattern :=
  [Re.GOpen; Re.Lit (py "A1000180000 /* Debug */ = {"); Re.Star Re.CSpace;
   Re.Lit (py "isa = XCBuildConfiguration;"); Re.GClose].

(** [r'(A1000190000 /\* Release \*/ = \{\s*isa = XCBuildConfiguration;)'] *)
Definition release_config_pattern : Re.pattern :=
  [Re.GOpen; Re.Lit (py "A1000190000 /* Release */ = {"); Re.Star Re.CSpace;
   Re.Lit (py "isa = XCBuildConfiguration;"); Re.GClose].

(** The two file-reference lines added before the closing comment. *)
Definition new_refs : str :=
  ([tab; tab] ++ debug_xcconfig_ref
   ++ py " /* Debug.xcconfig */ = {isa = PBXFileReference; lastKnownFileType = text.xcconfig; path = Debug.xcconfig; sourceTree = "
   ++ [dquote] ++ py "<group>" ++ [dquote] ++ py "; };" ++ [nl])
  ++ ([tab; tab] ++ release_xcconfig_ref
   ++ py " /* Release.xcconfig */ = {isa = PBXFileReference; lastKnownFileType = text.xcconfig; path = Release.xcconfig; sourceTree = "
   ++ [dquote] ++ py "<group>" ++ [dquote] ++ py "; };" ++ [nl]).

(** The Config group, built line by line. *)
Definition config_group : str :=
  ([tab; tab] ++ config_group_ref ++ py " /* Config */ = {" ++ [nl])
  ++ ([tab; tab; tab] ++ py "isa = PBXGroup;" ++ [nl])
  ++ ([tab; tab; tab] ++ py "children = (" ++ [nl])
  ++ ([tab; tab; tab; tab] ++ debug_xcconfig_ref ++ py " /* Debug.xcconfig */," ++ [nl])
  ++ ([tab; tab; tab; tab] ++ release_xcconfig_ref ++ py " /* Release.xcconfig */," ++ [nl])
  ++ ([tab; tab; tab] ++ py ");" ++ [nl])
  ++ ([tab; tab; tab] ++ py "path = Config;" ++ [nl])
  ++ ([tab; tab; tab] ++ py "sourceTree = " ++ [dquote] ++ py "<group>" ++ [dquote] ++ py ";" ++ [nl])
  ++ ([tab; tab] ++ py "};" ++ [nl]).

(** [rf'\1{config_group_ref} /* Config */,\n\t\t\t\t']: [re.sub] turns the
    [\n] and [\t] of the raw string into a newline and tabs. *)
Definition config_child : str :=
  config_group_ref ++ py " /* Config */," ++ [nl; tab; tab; tab; tab].

Definition replacement : Re.template := [Re.TGroup1; Re.TText config_child].

(** [rf'\1\n\t\t\tbaseConfigurationReference = {debug_xcconfig_ref} /* Debug.xcconfig */;'] *)
Definition debug_base_reference : str :=
  [nl; tab; tab; tab] ++ py "baseConfigurationReference = "
  ++ debug_xcconfig_ref ++ py " /* Debug.xcconfig */;".

(** [rf'\1\n\t\t\tbaseConfigurationReference = {release_xcconfig_ref} /* Release.xcconfig */;'] *)
Definition release_base_reference : str :=
  [nl; tab; tab; tab] ++ py "baseConfigurationReference = "
  ++ release_xcconfig_ref ++ py " /* Release.xcconfig */;".

(** Step 1: Add file references for xcconfig files. *)
Definition add_file_refs (content : str) : str :=
  match Re.search file_ref_section_pattern content with
  | Some file_ref_section =>
      let file_refs := Re.group1 file_ref_section in
      if negb (Py.contains (py "Debug.xcconfig") file_refs)
      then Py.replace content end_file_ref_marker (new_refs ++ end_file_ref_marker)
      else content
  | None => content
  end.

(** Step 2: Add Config group to PBXGroup section. *)
Definition add_config_group (content : str) : str :=
  match Re.search group_section_pattern content with
  | Some group_section =>
      let groups := Re.group1 group_section in
      if negb (Py.contains config_group_ref groups)
      then
        let content :=
          Py.replace content end_group_marker (config_group ++ end_group_marker) in
        Re.sub root_group_pattern replacement content
      else content
  | None => content
  end.

(** Step 3: Assign xcconfig files to build configurations. *)
Definition assign_debug (content : str) : str :=
  Re.sub debug_config_pattern [Re.TGroup1; Re.TText debug_base_reference] content.

Definition assign_release (content : str) : str :=
  Re.sub release_config_pattern [Re.TGroup1; Re.TText release_base_reference] content.

Definition assign_base_configurations (content : str) : str :=
  assign_release (assign_debug content).

(** The three steps in the order of [main]. *)
Definition patch (content : str) : str :=
  assign_base_configurations (add_config_group (add_file_refs content)).

Definition main : IO.io unit :=
  content <- IO.read_file ;;
  let content := add_file_refs content in
  let content := add_config_group content in
  let content := assign_base_configurations content in
  IO.write_file content ;;;
  IO.print (py "Successfully integrated xcconfig files into Xcode project!") ;;;
  IO.print (py "- Added " ++ debug_xcconfig_ref ++ py " for Debug.xcconfig") ;;;
  IO.print (py "- Added " ++ release_xcconfig_ref ++ py " for Release.xcconfig") ;;;
  IO.print (py "- Created Config group " ++ config_group_ref) ;;;
  IO.print (py "- Assigned xcconfig files to Debug and Release configurations").

End IntegrateXcconfig.

(** ** Vocabulary of the properties *)

Module Doc.

(** [x] occurs in [s]. *)
Definition infix (x s : str) : Prop := exists a b, s = a ++ x ++ b.

(** The number of positions of [s] at which [x] occurs (overlapping
    occurrences are all counted). *)
Fixpoint count (x s : str) : nat :=
  (if Py.startswith x s then 1 else 0) +
  match s with
  | [] => 0
  | _ :: s' => count x s'
  end.

(** All characters of [s] are uppercase hexadecimal digits. *)
Definition is_upper_hex (c : ascii) : bool :=
  let n := nat_of_ascii c in
  ((48 <=? n) && (n <=? 57)) || ((65 <=? n) && (n <=? 70)).

End Doc.

(** ** Vocabulary of the matcher *)

(** The texts a pattern can consume, read off its nodes. *)
Fixpoint lang (p : Re.pattern) (w : str) : Prop :=
  match p with
  | [] => w = []
  | Re.Lit l :: p' => exists w', w = l ++ w' /\ lang p' w'
  | Re.Plus cs :: p' =>
      exists x u w', w = x :: u ++ w' /\ Re.in_cset cs x = true
                     /\ Forall (fun y => Re.in_cset cs y = true) u /\ lang p' w'
  | Re.Star cs :: p' | Re.LazyStar cs :: p' =>
      exists u w', w = u ++ w' /\ Forall (fun y => Re.in_cset cs y = true) u
                   /\ lang p' w'
  | Re.GOpen :: p' | Re.GClose :: p' => lang p' w
  end.

(** A continuation that, when it succeeds, has consumed a text satisfying
    [Q consumed rest] and reports [F] of the captures. *)
Definition yields (Q : str -> str -> Prop) (F : nat -> Re.caps -> nat -> Re.caps -> Prop)
    (k : Re.cont) : Prop :=
  forall off s c e c', k off s c = Some (e, c') ->
    exists w t, s = w ++ t /\ e = off + length w /\ Q w t /\ F off c e c'.

(** A node other than a group parenthesis. *)
Definition plain (nd : Re.node) : Prop :=
  match nd with
  | Re.GOpen | Re.GClose => False
  | _ => True
  end.

(** Two texts agree as far as both go. *)
Fixpoint agree (x y : str) : bool :=
  match x, y with
  | a :: x', b :: y' => Ascii.eqb a b && agree x' y'
  | _, _ => true
  end.

(** No text that starts with [L] can start at a position inside [T],
    whatever follows [T]. *)
Definition never_starts_in (L T : str) : bool :=
  forallb (fun j => negb (agree L (drop j T))) (seq 0 (length T)).

(** No text that ends with [L] can end at a position inside [T], or at
    its end, whatever precedes [T]. *)
Definition never_ends_in (L T : str) : bool :=
  forallb (fun j => negb (agree (rev L) (rev (take j T)))) (seq 1 (length T)).

(** A run of white space, as [\s*] matches it. *)
Definition spaces (ws : str) : Prop := Forall (fun c => Re.isspace c = true) ws.

(** The texts matched by a pattern [(L1\s*L2)]. *)
Definition block (L1 L2 ws : str) : str := L1 ++ ws ++ L2.

(** In [s] a block occurs at the position after [a] and at no other. *)
Definition only_block_at (L1 L2 s a : str) : Prop :=
  forall a' ws' b', spaces ws' -> s = a' ++ block L1 L2 ws' ++ b' -> a' = a.

(** No block occurs in [s]. *)
Definition block_free (L1 L2 s : str) : Prop :=
  forall a ws b, spaces ws -> s <> a ++ block L1 L2 ws ++ b.

(** The character [c] does not occur in [s]. *)
Definition lacks (c : ascii) (s : str) : bool :=
  forallb (fun y => negb (Ascii.eqb y c)) s.

(** The same two properties as propositions. *)
Definition cannot_start_in (L T : str) : Prop :=
  forall j r Y, j < length T -> L ++ r <> drop j T ++ Y.

Definition cannot_end_in (L T : str) : Prop :=
  forall j r x, 0 < j <= length T -> r ++ L <> x ++ take j T.

(** A greedy repetition over [cs] cannot go on at the start of [t]. *)
Definition stops (cs : Re.cset) (t : str) : Prop :=
  t = [] \/ exists y t', t = y :: t' /\ Re.in_cset cs y = false.

(** Two occurrences of [L] overlap only in its last character. *)
Definition overlaps_at_end_only (L : str) : bool :=
  forallb (fun j => negb (agree L (drop j L))) (seq 1 (length L - 2)).

(** An inserted text [T] that no block can overlap: a block cannot start
    inside it, cannot end inside it, and cannot contain it. *)
Definition clear_of_blocks (L1 L2 T : str) : Prop :=
  never_starts_in L1 T = true /\ never_ends_in L2 T = true
  /\ exists c, c ∈ T /\ (c ∉ L1) /\ (c ∉ L2) /\ Re.isspace c = false.

(** A directive of a script, seen from outside: next to a text matched
    by [anchor] it puts [before] in front and [after] behind. *)
Record directive := Directive {
  anchor : Re.pattern;
  before : str;
  after : str
}.

(** [splice d s t]: [t] is [s] with the texts of [d] put next to some
    texts matched by its anchor, every character of [s] kept in place. *)
Inductive splice (d : directive) : str -> str -> Prop :=
  | splice_nil : splice d [] []
  | splice_anchor w r out :
      lang (anchor d) w -> splice d r out ->
      splice d (w ++ r) (before d ++ w ++ after d ++ out)
  | splice_copy c s out :
      splice d s out -> splice d (c :: s) (c :: out).

(** [only_inserts ds s t]: [t] comes from [s] by a sequence of splices of
    directives of [ds]. *)
Inductive only_inserts (ds : list directive) : str -> str -> Prop :=
  | only_inserts_refl s : only_inserts ds s s
  | only_inserts_step d s t u :
      d ∈ ds -> splice d s t -> only_inserts ds t u -> only_inserts ds s u.

(** [E] is [n] occurrences of [K] between two characters that [K]
    lacks. *)
Definition fenced (K : str) (n : nat) (E : str) : Prop :=
  exists e0 T el,
    E = e0 :: T ++ [el] /\ (e0 ∉ K) /\ (el ∉ K) /\ Doc.count K T = n.

(** [scan ok T pre s out]: [out] is [s] with [T] put in at positions that
    [ok] allows; [pre] is the text in front of [s]. *)
Inductive scan (ok : str -> str -> Prop) (T : str) : str -> str -> str -> Prop :=
  | scan_stop pre s : scan ok T pre s s
  | scan_copy pre c s out :
      scan ok T (pre ++ [c]) s out -> scan ok T pre (c :: s) (c :: out)
  | scan_put pre s out :
      ok pre s -> scan ok T pre s out -> scan ok T pre s (T ++ out).

(** The position is in front of a text of the anchor, or behind one. *)
Definition before_anchor (p : Re.pattern) (pre s : str) : Prop :=
  exists w r, lang p w /\ s = w ++ r.

Definition behind_anchor (p : Re.pattern) (pre s : str) : Prop :=
  exists q w, lang p w /\ pre = q ++ w.

(** No allowed position lies inside an occurrence of [B]. *)
Definition uncut (ok : str -> str -> Prop) (B : str) : Prop :=
  forall pre s p0 u v b,
    ok pre s -> pre = p0 ++ u -> s = v ++ b -> u ++ v = B -> u = [] \/ v = [].

(** No occurrence of [K] can overlap an inserted [T]. *)
Definition apart (K T : str) : Prop :=
  cannot_start_in K T /\ cannot_end_in K T /\ exists c, c ∈ T /\ (c ∉ K).

(** ** What the claims speak of *)

Module Claims.

Import AddExportService.

(** A diagnostic is a printed line that is not one of the three lines the
    script prints at the end of every complete run. *)
Definition diagnostic_surfaced (random1 random2 : N) (r : nat * IO.world) : Prop :=
  exists line, line ∈ IO.stdout r
               /\ line ∉ report (Uuid.token random1) (Uuid.token random2).

(** The directives of [add_export_service.py]. *)
Definition add_export_directives (file_ref_uuid build_file_uuid : str)
  : list directive :=
  [Directive services_pattern [] (services_child file_ref_uuid);
   Directive build_file_section_pattern []
     (build_file_entry file_ref_uuid build_file_uuid);
   Directive file_ref_section_pattern [] (file_ref_entry file_ref_uuid);
   Directive sources_phase_pattern [] (sources_child build_file_uuid)].

(** The directives of [integrate_xcconfig.py]. *)
Definition integrate_directives : list directive :=
  [Directive [Re.Lit IntegrateXcconfig.end_file_ref_marker]
     IntegrateXcconfig.new_refs [];
   Directive [Re.Lit IntegrateXcconfig.end_group_marker]
     IntegrateXcconfig.config_group [];
   Directive IntegrateXcconfig.root_group_pattern []
     IntegrateXcconfig.config_child;
   Directive IntegrateXcconfig.debug_config_pattern []
     IntegrateXcconfig.debug_base_reference;
   Directive IntegrateXcconfig.release_config_pattern []
     IntegrateXcconfig.release_base_reference].

(** The opening of the two build-configuration blocks. *)
Definition debug_block : str -> str :=
  block (py "A1000180000 /* Debug */ = {") (py "isa = XCBuildConfiguration;").
Definition release_block : str -> str :=
  block (py "A1000190000 /* Release */ = {") (py "isa = XCBuildConfiguration;").

(** The header of a Debug or Release build configuration, and a block
    under either header. *)
Definition configuration_header (L : str) : Prop :=
  L = py "A1000180000 /* Debug */ = {" \/ L = py "A1000190000 /* Release */ = {".

Definition configuration_block (B : str) : Prop :=
  exists L ws,
    configuration_header L /\ spaces ws
    /\ B = block L (py "isa = XCBuildConfiguration;") ws.

(** A line of a project file: [n] tabs, the text, a newline. *)
Definition line (n : nat) (text : string) : str :=
  replicate n tab ++ py text ++ [nl].

(** A small project file with the sections and blocks that
    [integrate_xcconfig.py] looks for. *)
Definition mini_project : str :=
  line 0 "/* Begin PBXFileReference section */"
  ++ line 0 "/* End PBXFileReference section */"
  ++ line 0 "/* Begin PBXGroup section */"
  ++ line 2 "A10000A0000 = {"
  ++ line 3 "isa = PBXGroup;"
  ++ line 3 "children = ("
  ++ line 3 ");"
  ++ line 2 "};"
  ++ line 0 "/* End PBXGroup section */"
  ++ line 0 "/* Begin XCBuildConfiguration section */"
  ++ line 2 "A1000180000 /* Debug */ = {"
  ++ line 3 "isa = XCBuildConfiguration;"
  ++ line 2 "};"
  ++ line 2 "A1000190000 /* Release */ = {"
  ++ line 3 "isa = XCBuildConfiguration;"
  ++ line 2 "};"
  ++ line 0 "/* End XCBuildConfiguration section */".

(** A project file with a Services group and a PBXBuildFile section, but
    without the PBXFileReference section comment. *)
Definition no_file_ref_section : str :=
  line 0 "/* Begin PBXBuildFile section */"
  ++ line 0 "/* End PBXBuildFile section */"
  ++ line 0 "/* Begin PBXGroup section */"
  ++ line 2 "A10000B0000 /* Services */ = {"
  ++ line 3 "isa = PBXGroup;"
  ++ line 3 "children = ("
  ++ line 4 "A10000C0000 /* UploadService.swift */,"
  ++ line 3 ");"
  ++ line 2 "};"
  ++ line 0 "/* End PBXGroup section */".

(** The document has a PBXFileReference entry for [ExportService.swift]
    under the identifier [id]. *)
Definition file_reference_defined (id doc : str) : Prop :=
  Doc.infix (id ++ py " /* ExportService.swift */ = {isa = PBXFileReference;") doc.

(** The text by which the PBXFileReference entry of
    [ExportService.swift] under the identifier [id] starts, and the same
    for its PBXBuildFile entry. *)
Definition file_reference_key (id : str) : str :=
  id ++ py " /* ExportService.swift */ = {isa = PBXFileReference".

Definition build_file_key (id : str) : str :=
  id ++ py " /* ExportService.swift in Sources */ = {isa = PBXBuildFile".

(** The document has an entry keyed by [id] whose comment is [name]. *)
Definition entry_keyed (id : str) (name : string) (doc : str) : Prop :=
  Doc.infix ([tab; tab] ++ id ++ py " /* " ++ py name ++ py " */ = {isa = ") doc.

(** A project file in which the identifier that [uuid4] makes of sixteen
    zero bytes is already taken. *)
Definition token_taken : str :=
  line 0 "/* Begin PBXFileReference section */"
  ++ line 2 "000000000000400080000000 /* Other.swift */ = {isa = PBXFileReference; path = Other.swift; };"
  ++ line 0 "/* End PBXFileReference section */"
  ++ line 0 "/* Begin PBXGroup section */"
  ++ line 2 "A10000B0000 /* Services */ = {"
  ++ line 3 "isa = PBXGroup;"
  ++ line 3 "children = ("
  ++ line 4 "000000000000400080000000 /* Other.swift */,"
  ++ line 3 ");"
  ++ line 2 "};"
  ++ line 0 "/* End PBXGroup section */".

(** A project file in which [A10000F1000] is already taken. *)
Definition fixed_id_taken : str :=
  line 0 "/* Begin PBXFileReference section */"
  ++ line 2 "A10000F1000 /* Assets.xcassets */ = {isa = PBXFileReference; path = Assets.xcassets; };"
  ++ line 0 "/* End PBXFileReference section */".

(** A project file with all the anchors of [add_export_service.py]. *)
Definition export_project : str :=
  line 0 "/* Begin PBXBuildFile section */"
  ++ line 2 "A10000D0000 /* UploadService.swift in Sources */ = {isa = PBXBuildFile; fileRef = A10000C0000 /* UploadService.swift */; };"
  ++ line 0 "/* End PBXBuildFile section */"
  ++ line 0 "/* Begin PBXFileReference section */"
  ++ line 2 "A10000C0000 /* UploadService.swift */ = {isa = PBXFileReference; path = UploadService.swift; };"
  ++ line 0 "/* End PBXFileReference section */"
  ++ line 0 "/* Begin PBXGroup section */"
  ++ line 2 "A10000B0000 /* Services */ = {"
  ++ line 3 "isa = PBXGroup;"
  ++ line 3 "children = ("
  ++ line 4 "A10000C0000 /* UploadService.swift */,"
  ++ line 3 ");"
  ++ line 2 "};"
  ++ line 0 "/* End PBXGroup section */"
  ++ line 0 "/* Begin PBXSourcesBuildPhase section */"
  ++ line 2 "A10000E0000 /* Sources */ = {"
  ++ line 3 "isa = PBXSourcesBuildPhase;"
  ++ line 3 "files = ("
  ++ line 4 "A10000D0000 /* UploadService.swift in Sources */,"
  ++ line 3 ");"
  ++ line 2 "};"
  ++ line 0 "/* End PBXSourcesBuildPhase section */".

(** A project file with the PBXBuildFile section comment at two places. *)
Definition two_markers : str :=
  py "/* Begin PBXBuildFile section */" ++ py " // see "
  ++ py "/* Begin PBXBuildFile section */" ++ py ".".

(** A project file whose PBXFileReference section already lists
    [Debug.xcconfig]. *)
Definition already_integrated : str :=
  py "/* Begin PBXFileReference section */" ++ [nl; tab; tab]
  ++ py "A10000F1000 /* Debug.xcconfig */ = {isa = PBXFileReference; path = Debug.xcconfig; };"
  ++ [nl] ++ py "/* End PBXFileReference section */" ++ [nl].

(** A project file with a Services group and nothing else. *)
Definition services_only : str := py "/* Services */ = { children = (A, ); };".

(** A file with CR LF line endings and none of the anchors of
    [integrate_xcconfig.py]. *)
Definition crlf_file : str :=
  py "// !$*UTF8*$!" ++ [cr; nl] ++ py "{" ++ [cr; nl] ++ py "}" ++ [cr; nl].

(** The two build configurations with the Release block first. *)
Definition release_first : str :=
  [tab; tab] ++ release_block [nl; tab; tab; tab] ++ py "};" ++ [nl; tab; tab]
  ++ debug_block [nl; tab; tab; tab] ++ py "};" ++ [nl].

End Claims.

(** * Properties *)

(** ** Python strings *)

Section StringFacts.

Implicit Types (s p x old new : str) (c : ascii).

Lemma startswith_true p s : Py.startswith p s = true <-> exists r, s = p ++ r.
Proof.
  revert s; induction p as [|a p IH]; intros s; simpl.
  - split; [intros _; by exists s | done].
  - destruct s as [|b s].
    + split; [done | intros [r Hr]; discriminate].
    + destruct (Ascii.eqb_spec a b) as [->|Hne].
      * rewrite IH. split; intros [r Hr]; exists r; simpl in *; congruence.
      * split; [done | intros [r Hr]; simpl in Hr; congruence].
Qed.

Lemma startswith_app p r : Py.startswith p (p ++ r) = true.
Proof. apply startswith_true. by exists r. Qed.

Lemma startswith_false p s :
  Py.startswith p s = false <-> forall r, s <> p ++ r.
Proof.
  destruct (Py.startswith p s) eqn:E.
  - apply startswith_true in E as [r ->]. split; [done | intros H; by destruct (H r)].
  - split; [|done]. intros _ r ->. by rewrite startswith_app in E.
Qed.

Lemma contains_true x s : Py.contains x s = true <-> Doc.infix x s.
Proof.
  unfold Doc.infix. induction s as [|c s IH]; simpl.
  - rewrite orb_false_r, startswith_true. split.
    + intros [r Hr]. by exists [], r.
    + intros (a & b & Hab). destruct a; [by exists b|discriminate].
  - rewrite orb_true_iff, startswith_true, IH. split.
    + intros [[r Hr]|(a & b & Hab)]; [by exists [], r|].
      exists (c :: a), b. simpl. by f_equal.
    + intros (a & b & Hab). destruct a as [|c' a]; [left; by exists b|].
      right. exists a, b. simpl in Hab. congruence.
Qed.

Lemma contains_false x s : Py.contains x s = false <-> ~ Doc.infix x s.
Proof.
  rewrite <- contains_true. destruct (Py.contains x s); split; congruence.
Qed.

Lemma infix_app_l x s t : Doc.infix x s -> Doc.infix x (s ++ t).
Proof. intros (a & b & ->). exists a, (b ++ t). by rewrite <- !app_assoc. Qed.

Lemma infix_app_r x s t : Doc.infix x t -> Doc.infix x (s ++ t).
Proof. intros (a & b & ->). exists (s ++ a), b. by rewrite <- !app_assoc. Qed.

Lemma infix_cons x c s : Doc.infix x s -> Doc.infix x (c :: s).
Proof. apply (infix_app_r x [c] s). Qed.

Lemma infix_refl x : Doc.infix x x.
Proof. exists [], []. by rewrite app_nil_r. Qed.

Lemma infix_length x s : Doc.infix x s -> length x <= length s.
Proof. intros (a & b & ->). rewrite !length_app. lia. Qed.

Lemma infix_elem_of x s c : Doc.infix x s -> c ∈ x -> c ∈ s.
Proof. intros (a & b & ->) H. rewrite !elem_of_app. auto. Qed.

(** The scan of [str.replace] that has [k] characters to pass over
    resumes [k] characters further. *)
Lemma replace_go_skip old new k s :
  Py.replace_go old new k s = Py.replace_go old new 0 (drop k s).
Proof.
  revert k; induction s as [|c s IH]; intros [|k]; simpl; done.
Qed.

Lemma replace_nil old new : old <> [] -> Py.replace [] old new = [].
Proof. by destruct old. Qed.

(** At an occurrence of [old] the replacement is emitted and the scan
    goes on behind the occurrence. *)
Lemma replace_hit old new r :
  old <> [] -> Py.replace (old ++ r) old new = new ++ Py.replace r old new.
Proof.
  intros Hne. destruct old as [|a old]; [done|].
  unfold Py.replace. cbn [app Py.replace_go Py.startswith].
  rewrite Ascii.eqb_refl, startswith_app. f_equal.
  rewrite replace_go_skip.
  replace (length (a :: old) - 1) with (length old) by (simpl; lia).
  by rewrite drop_app_length.
Qed.

(** Elsewhere the character is copied. *)
Lemma replace_miss old new c s :
  Py.startswith old (c :: s) = false ->
  Py.replace (c :: s) old new = c :: Py.replace s old new.
Proof.
  intros H. destruct old as [|a old]; [done|].
  unfold Py.replace. cbn [Py.replace_go]. by rewrite H.
Qed.

(** Rule induction over the scan of [str.replace]. *)
Lemma replace_ind old new (P : str -> str -> Prop) :
  old <> [] ->
  P [] [] ->
  (forall r out, P r out -> P (old ++ r) (new ++ out)) ->
  (forall c s out, Py.startswith old (c :: s) = false -> P s out ->
                   P (c :: s) (c :: out)) ->
  forall s, P s (Py.replace s old new).
Proof.
  intros Hne Hnil Hhit Hmiss s.
  remember (length s) as n eqn:Hn. revert s Hn.
  induction n as [n IH] using lt_wf_ind. intros s Hn.
  destruct (Py.startswith old s) eqn:E.
  - apply startswith_true in E as [r ->]. rewrite replace_hit by done.
    apply Hhit. apply (IH (length r)); [|done].
    rewrite Hn, length_app. destruct old; [done|simpl; lia].
  - destruct s as [|c s].
    + by rewrite replace_nil.
    + rewrite replace_miss by done. apply Hmiss; [done|].
      apply (IH (length s)); simpl in *; [lia|done].
Qed.

(** Without an occurrence of [old] nothing is replaced. *)
Lemma replace_absent old new s :
  old <> [] -> ~ Doc.infix old s -> Py.replace s old new = s.
Proof.
  intros Hne. induction s as [|c s IH]; intros Hno.
  - by apply replace_nil.
  - rewrite replace_miss, IH; [done| |].
    + intros H. apply Hno. by apply infix_cons.
    + apply startswith_false. intros r Hr. apply Hno. exists [], r. by rewrite Hr.
Qed.

(** A single occurrence is replaced in place. *)
Lemma replace_once old new a b :
  old <> [] ->
  (forall a' b', a ++ old ++ b = a' ++ old ++ b' -> a' = a) ->
  Py.replace (a ++ old ++ b) old new = a ++ new ++ b.
Proof.
  intros Hne. induction a as [|c a IH]; intros Huniq.
  - simpl. rewrite replace_hit by done. f_equal.
    apply replace_absent; [done|]. intros (a' & b' & ->).
    specialize (Huniq (old ++ a') b'). simpl in Huniq.
    rewrite <- app_assoc in Huniq. specialize (Huniq eq_refl).
    destruct old; [done|discriminate].
  - simpl. rewrite replace_miss.
    + f_equal. apply IH. intros a' b' H.
      specialize (Huniq (c :: a') b'). simpl in Huniq.
      rewrite H in Huniq. specialize (Huniq eq_refl). congruence.
    + apply startswith_false. intros r Hr.
      specialize (Huniq [] r). simpl in Huniq. specialize (Huniq Hr). done.
Qed.

(** When the replacement contains the replaced text as a subsequence, the
    original text is a subsequence of the result: nothing is removed. *)
Lemma replace_sublist old new s :
  old <> [] -> sublist old new -> sublist s (Py.replace s old new).
Proof.
  intros Hne Hsub. apply (replace_ind old new (fun s t => sublist s t)); [done|..].
  - constructor.
  - intros r out H. by apply sublist_app.
  - intros c r out _ H. by apply sublist_skip.
Qed.

(** The result is at least as long, and longer by the inserted text when
    there is an occurrence. *)
Lemma replace_length_ge old ins s :
  old <> [] -> length s <= length (Py.replace s old (old ++ ins)).
Proof.
  intros Hne. apply sublist_length, replace_sublist; [done|].
  by apply sublist_inserts_r.
Qed.

Lemma replace_length_grows old ins s :
  old <> [] -> Doc.infix old s ->
  length s + length ins <= length (Py.replace s old (old ++ ins)).
Proof.
  intros Hne (a & b & ->). induction a as [|c a IH].
  - simpl. rewrite replace_hit by done. rewrite !length_app.
    pose proof (replace_length_ge old ins b Hne). lia.
  - simpl. destruct (Py.startswith old (c :: a ++ old ++ b)) eqn:E.
    + apply startswith_true in E as [r Hr]. rewrite Hr, replace_hit by done.
      pose proof (replace_length_ge old ins r Hne).
      assert (length (c :: a ++ old ++ b) = length (old ++ r)) as Hlen by by rewrite Hr.
      simpl in Hlen. rewrite !length_app in *. lia.
    + rewrite replace_miss by done. simpl. lia.
Qed.

(** The replacement text occurs in the result as soon as there was an
    occurrence to replace. *)
Lemma replace_infix_new old new s :
  old <> [] -> Doc.infix old s -> Doc.infix new (Py.replace s old new).
Proof.
  intros Hne (a & b & ->). induction a as [|c a IH].
  - simpl. rewrite replace_hit by done. apply infix_app_l, infix_refl.
  - simpl. destruct (Py.startswith old (c :: a ++ old ++ b)) eqn:E.
    + apply startswith_true in E as [r Hr]. rewrite Hr, replace_hit by done.
      apply infix_app_l, infix_refl.
    + rewrite replace_miss by done. by apply infix_cons.
Qed.

End StringFacts.

(** ** Line endings of the text read *)

Section LineEndings.

Implicit Types s L : str.

(** A text without carriage return is read as it is. *)
Lemma universal_newlines_plain s : cr ∉ s -> Py.universal_newlines s = s.
Proof.
  induction s as [|c s IH]; [done|]. intros H.
  apply not_elem_of_cons in H as [Hc Hs]. simpl.
  destruct (Ascii.eqb_spec c cr) as [->|_]; [done|]. by rewrite IH.
Qed.

(** The equations of the translation. *)
Lemma universal_newlines_crlf s :
  Py.universal_newlines (cr :: nl :: s) = nl :: Py.universal_newlines s.
Proof. reflexivity. Qed.

Lemma universal_newlines_cr s :
  Py.startswith [nl] s = false ->
  Py.universal_newlines (cr :: s) = nl :: Py.universal_newlines s.
Proof.
  intros H. destruct s as [|d s]; [done|].
  cbn [Py.universal_newlines]. rewrite Ascii.eqb_refl.
  destruct (Ascii.eqb_spec d nl) as [->|_]; [|done].
  cbn [Py.startswith] in H. by rewrite Ascii.eqb_refl in H.
Qed.

Lemma universal_newlines_other c s :
  c <> cr -> Py.universal_newlines (c :: s) = c :: Py.universal_newlines s.
Proof.
  intros H. cbn [Py.universal_newlines].
  by destruct (Ascii.eqb_spec c cr).
Qed.

(** Induction along the translation. *)
Lemma universal_newlines_ind (P : str -> str -> Prop) :
  P [] [] ->
  (forall s out, P s out -> P (cr :: nl :: s) (nl :: out)) ->
  (forall s out, Py.startswith [nl] s = false -> P s out ->
                 P (cr :: s) (nl :: out)) ->
  (forall c s out, c <> cr -> P s out -> P (c :: s) (c :: out)) ->
  forall s, P s (Py.universal_newlines s).
Proof.
  intros H0 H1 H2 H3 s.
  assert (forall n s, length s <= n -> P s (Py.universal_newlines s)) as H;
    [|by apply (H (length s))].
  clear s. induction n as [|n IH]; intros s Hn.
  - destruct s; [done|simpl in Hn; lia].
  - destruct s as [|c s]; [done|]. simpl in Hn.
    destruct (Ascii.eqb_spec c cr) as [->|Hc].
    + destruct s as [|d s].
      * apply (H2 [] []); done.
      * destruct (Ascii.eqb_spec d nl) as [->|Hd].
        -- rewrite universal_newlines_crlf. apply H1, IH. simpl in Hn. lia.
        -- assert (Py.startswith [nl] (d :: s) = false) as Hs.
           { cbn [Py.startswith]. by destruct (Ascii.eqb_spec nl d) as [<-|_]. }
           rewrite (universal_newlines_cr _ Hs). apply H2; [done|]. apply IH. lia.
    + rewrite (universal_newlines_other _ _ Hc). apply H3; [done|]. apply IH. lia.
Qed.

(** What is read has no carriage return. *)
Lemma universal_newlines_no_cr s : cr ∉ Py.universal_newlines s.
Proof.
  apply (universal_newlines_ind (fun _ out => cr ∉ out)).
  - apply not_elem_of_nil.
  - intros _ out H. apply not_elem_of_cons. split; [discriminate|done].
  - intros _ out _ H. apply not_elem_of_cons. split; [discriminate|done].
  - intros c _ out Hc H. apply not_elem_of_cons. split; [done|done].
Qed.

(** A text without line ending begins the text read where it begins the
    file. *)
Lemma startswith_universal_newlines L s :
  cr ∉ L -> nl ∉ L -> L <> [] ->
  Py.startswith L (Py.universal_newlines s) = Py.startswith L s.
Proof.
  intros Hcr Hnl. revert s. induction L as [|a L IH]; [done|]. intros s _.
  apply not_elem_of_cons in Hcr as [Ha Hcr].
  apply not_elem_of_cons in Hnl as [Ha' Hnl].
  assert (forall s, Py.startswith L (Py.universal_newlines s) = Py.startswith L s)
    as IH'.
  { intros s'. destruct L as [|b L]; [done|]. by apply IH. }
  destruct s as [|c s]; [done|].
  destruct (Ascii.eqb_spec c cr) as [->|Hc].
  - assert (exists out, Py.universal_newlines (cr :: s) = nl :: out) as [out ->].
    { destruct s as [|d s]; [by eexists|]. cbn [Py.universal_newlines].
      rewrite Ascii.eqb_refl. by eexists. }
    simpl. destruct (Ascii.eqb_spec a nl) as [->|_]; [done|].
    by destruct (Ascii.eqb_spec a cr) as [->|_].
  - rewrite (universal_newlines_other _ _ Hc). simpl. by rewrite IH'.
Qed.

(** So it occurs in the text read as often as in the file. *)
Lemma count_universal_newlines L s :
  cr ∉ L -> nl ∉ L -> L <> [] ->
  Doc.count L (Py.universal_newlines s) = Doc.count L s.
Proof.
  intros Hcr Hnl HL.
  assert (forall c s, c = cr \/ c = nl -> Py.startswith L (c :: s) = false) as Hno.
  { intros c s' Hc. destruct L as [|a L]; [done|]. simpl.
    destruct (Ascii.eqb_spec a c) as [->|_]; [|done].
    destruct Hc as [->| ->]; [destruct Hcr|destruct Hnl]; by left. }
  enough (Py.universal_newlines s = Py.universal_newlines s
          /\ Doc.count L (Py.universal_newlines s) = Doc.count L s) as [_ H];
    [exact H|].
  apply (universal_newlines_ind
           (fun s out => out = Py.universal_newlines s
                         /\ Doc.count L out = Doc.count L s)).
  - done.
  - intros s' out [-> H]. split; [done|].
    cbn [Doc.count]. rewrite !Hno by auto. simpl. lia.
  - intros s' out Hs [-> H]. split; [by rewrite universal_newlines_cr|].
    cbn [Doc.count]. rewrite !Hno by auto. simpl. lia.
  - intros c s' out Hc [-> H]. split; [by rewrite universal_newlines_other|].
    cbn [Doc.count]. rewrite H. f_equal.
    rewrite <- (universal_newlines_other _ _ Hc).
    by rewrite startswith_universal_newlines.
Qed.

End LineEndings.

(** ** The matcher *)

Section MatcherFacts.

Implicit Types (s w t l : str) (p : Re.pattern) (k : Re.cont) (cs : Re.cset).

Lemma greedy_yields Q F cs k :
  yields Q F k ->
  (forall off c e c', F (S off) c e c' -> F off c e c') ->
  yields (fun w t => exists u w', w = u ++ w'
                       /\ Forall (fun y => Re.in_cset cs y = true) u /\ Q w' t)
         F (Re.greedy_rep cs k).
Proof.
  intros Hk HF off s. revert off.
  induction s as [|x s IH]; intros off c e c' H; simpl in H.
  - apply Hk in H as (w & t & -> & -> & HQ & HFc).
    exists w, t. split_and!; [done..| |done]. by exists [], w.
  - destruct (Re.in_cset cs x) eqn:Hx.
    + destruct (Re.greedy_rep cs k (S off) s c) as [[e1 c1]|] eqn:Hg.
      * injection H as <- <-. apply IH in Hg as (w & t & -> & -> & (u & w' & -> & Hu & HQ) & HFc).
        exists (x :: u ++ w'), t. split_and!; [done|simpl; lia| |by apply HF].
        exists (x :: u), w'. split_and!; [done| |done]. by constructor.
      * apply Hk in H as (w & t & Hs & -> & HQ & HFc).
        exists w, t. split_and!; [done..| |done]. by exists [], w.
    + apply Hk in H as (w & t & Hs & -> & HQ & HFc).
      exists w, t. split_and!; [done..| |done]. by exists [], w.
Qed.

Lemma lazy_yields Q F cs k :
  yields Q F k ->
  (forall off c e c', F (S off) c e c' -> F off c e c') ->
  yields (fun w t => exists u w', w = u ++ w'
                       /\ Forall (fun y => Re.in_cset cs y = true) u /\ Q w' t)
         F (Re.lazy_rep cs k).
Proof.
  intros Hk HF off s. revert off.
  induction s as [|x s IH]; intros off c e c' H; simpl in H.
  - destruct (k off [] c) as [r|] eqn:Hr; [|done]. injection H as ->.
    apply Hk in Hr as (w & t & Hs & -> & HQ & HFc).
    exists w, t. split_and!; [done..| |done]. by exists [], w.
  - destruct (k off (x :: s) c) as [r|] eqn:Hr.
    + injection H as ->. apply Hk in Hr as (w & t & Hs & -> & HQ & HFc).
      exists w, t. split_and!; [done..| |done]. by exists [], w.
    + destruct (Re.in_cset cs x) eqn:Hx; [|done].
      apply IH in H as (w & t & -> & -> & (u & w' & -> & Hu & HQ) & HFc).
      exists (x :: u ++ w'), t. split_and!; [done|simpl; lia| |by apply HF].
      exists (x :: u), w'. split_and!; [done| |done]. by constructor.
Qed.

(** Soundness: what [exec] consumes is a prefix of the text and belongs to
    the language of the pattern. *)
Lemma exec_sound p :
  yields (fun w _ => lang p w) (fun _ _ _ _ => True) (Re.exec p).
Proof.
  induction p as [|nd p IH].
  - intros off s c e c' H. simpl in H. injection H as <- <-.
    exists [], s. simpl. split_and!; [done|lia|done|done].
  - destruct nd as [l|cs|cs|cs| |]; intros off s c e c' H; simpl in H.
    + destruct (Py.startswith l s) eqn:E; [|done].
      apply startswith_true in E as [r ->]. rewrite drop_app_length in H.
      apply IH in H as (w & t & -> & -> & HQ & _).
      exists (l ++ w), t. rewrite <- app_assoc, length_app.
      split_and!; [done|lia| |done]. by exists w.
    + destruct s as [|x s]; [done|]. destruct (Re.in_cset cs x) eqn:Hx; [|done].
      apply (greedy_yields _ _ cs _ IH) in H as (w & t & -> & -> & (u & w' & -> & Hu & HQ) & _); [|done].
      exists (x :: u ++ w'), t. split_and!; [done|simpl; lia| |done].
      by exists x, u, w'.
    + apply (greedy_yields _ _ cs _ IH) in H as (w & t & -> & -> & (u & w' & -> & Hu & HQ) & _); [|done].
      exists (u ++ w'), t. split_and!; [done..| |done]. by exists u, w'.
    + apply (lazy_yields _ _ cs _ IH) in H as (w & t & -> & -> & (u & w' & -> & Hu & HQ) & _); [|done].
      exists (u ++ w'), t. split_and!; [done..| |done]. by exists u, w'.
    + apply IH in H as (w & t & -> & -> & HQ & _). by exists w, t.
    + apply IH in H as (w & t & -> & -> & HQ & _). by exists w, t.
Qed.

(** A pattern that ends with the closing parenthesis of the group reports
    the end of the match as the end of the group. *)
Lemma exec_close body :
  Forall plain body ->
  yields (fun w _ => lang body w) (fun _ c e c' => c' = (fst c, Some e))
         (Re.exec (body ++ [Re.GClose])).
Proof.
  induction 1 as [|nd body Hnd _ IH].
  - intros off s c e c' H. simpl in H. injection H as <- <-.
    exists [], s. simpl. split_and!; [done|lia|done|done].
  - destruct nd as [l|cs|cs|cs| |]; try done; intros off s c e c' H; simpl in H.
    + destruct (Py.startswith l s) eqn:E; [|done].
      apply startswith_true in E as [r ->]. rewrite drop_app_length in H.
      apply IH in H as (w & t & -> & -> & HQ & HF).
      exists (l ++ w), t. rewrite <- app_assoc, length_app.
      split_and!; [done|lia| |done]. by exists w.
    + destruct s as [|x s]; [done|]. destruct (Re.in_cset cs x) eqn:Hx; [|done].
      apply (greedy_yields _ _ cs _ IH) in H as (w & t & -> & -> & (u & w' & -> & Hu & HQ) & HF); [|done].
      exists (x :: u ++ w'), t. split_and!; [done|simpl; lia| |done].
      by exists x, u, w'.
    + apply (greedy_yields _ _ cs _ IH) in H as (w & t & -> & -> & (u & w' & -> & Hu & HQ) & HF); [|done].
      exists (u ++ w'), t. split_and!; [done..| |done]. by exists u, w'.
    + apply (lazy_yields _ _ cs _ IH) in H as (w & t & -> & -> & (u & w' & -> & Hu & HQ) & HF); [|done].
      exists (u ++ w'), t. split_and!; [done..| |done]. by exists u, w'.
Qed.

(** A pattern that is one group: the group is the whole match, and the
    match is a prefix of the text. *)
Lemma match_here_whole body s n g :
  Forall plain body ->
  Re.match_here (Re.GOpen :: body ++ [Re.GClose]) s = Some (n, g) ->
  exists w t, s = w ++ t /\ n = length w /\ g = Some w /\ lang body w.
Proof.
  intros Hb H. unfold Re.match_here in H. cbn [Re.exec] in H.
  destruct (Re.exec (body ++ [Re.GClose]) 0 s (Some 0, snd (None, None)))
    as [[e c']|] eqn:He; [|done].
  apply (exec_close body Hb) in He as (w & t & -> & -> & HQ & ->).
  cbn [fst] in H. injection H as <- <-.
  exists w, t. split_and!; [done..| |done].
  unfold Py.slice. by rewrite Nat.sub_0_r, drop_0, take_app_length.
Qed.

(** A pattern [B(.*?)E] under [re.DOTALL]: the group is the text between
    the two literals. *)
Lemma match_here_between B E s n g :
  Re.match_here [Re.Lit B; Re.GOpen; Re.LazyStar Re.CAny; Re.GClose; Re.Lit E] s
    = Some (n, g) ->
  exists b t, s = B ++ b ++ E ++ t /\ g = Some b
              /\ n = length B + length b + length E.
Proof.
  intros H. unfold Re.match_here in H. cbn [Re.exec] in H.
  destruct (Py.startswith B s) eqn:HB; [|done].
  apply startswith_true in HB as [r ->]. rewrite drop_app_length in H.
  cbn [snd] in H.
  set (k := fun (off : nat) (_ : str) (c : Re.caps) => _) in H.
  destruct (Re.lazy_rep Re.CAny k (0 + length B) r (Some (0 + length B), None))
    as [[e c']|] eqn:He; [|done].
  assert (yields (fun w _ => w = E)
            (fun off c e c' => exists m, c' = (fst c, Some m) /\ off <= m
                                        /\ e = m + length E) k) as Hk.
  { intros off s c e0 c0 Hs. unfold k in Hs. cbn [Re.exec fst] in Hs.
    destruct (Py.startswith E s) eqn:HE; [|done].
    apply startswith_true in HE as [r' ->]. injection Hs as <- <-.
    exists E, r'. split_and!; [done..|].
    exists off. split_and!; [done|lia|lia]. }
  apply (lazy_yields _ _ Re.CAny _ Hk) in He
    as (w & t & -> & -> & (u & w' & -> & _ & ->) & (m & -> & Hm & Hm')).
  2:{ intros off c e0 c0 (m & ? & ? & ?). exists m. split_and!; [done|lia|done]. }
  cbn [fst] in H. injection H as <- <-.
  rewrite length_app in Hm'.
  exists u, t. rewrite <- !app_assoc. split_and!; [done| |rewrite length_app; lia].
  unfold Py.slice. rewrite drop_app_length'; [|lia].
  replace (m - length B) with (length u) by lia.
  by rewrite take_app_length.
Qed.

(** [re.search] returns a match of the pattern at its start position. *)
Lemma search_from_sound p i s m :
  Re.search_from p i s = Some m ->
  exists pre post, s = pre ++ post /\ Re.m_start m = i + length pre
    /\ Re.match_here p post = Some (Re.m_len m, Re.m_group1 m).
Proof.
  revert i; induction s as [|x s IH]; intros i H; simpl in H.
  - destruct (Re.match_here p []) as [[n g]|] eqn:E; [|done].
    injection H as <-. exists [], []. simpl. split_and!; [done|lia|done].
  - destruct (Re.match_here p (x :: s)) as [[n g]|] eqn:E.
    + injection H as <-. exists [], (x :: s). simpl. split_and!; [done|lia|done].
    + apply IH in H as (pre & post & -> & -> & Hm).
      exists (x :: pre), post. simpl. split_and!; [done|lia|done].
Qed.

Lemma search_sound p s m :
  Re.search p s = Some m ->
  exists pre post, s = pre ++ post /\ Re.m_start m = length pre
    /\ Re.match_here p post = Some (Re.m_len m, Re.m_group1 m).
Proof. apply search_from_sound. Qed.

(** For a one-group pattern the text of group 1 occurs in the searched
    text at the position of the match. *)
Lemma search_whole body s m :
  Forall plain body ->
  Re.search (Re.GOpen :: body ++ [Re.GClose]) s = Some m ->
  exists pre post, s = pre ++ Re.group1 m ++ post
    /\ Re.m_start m = length pre /\ Re.m_group1 m = Some (Re.group1 m)
    /\ lang body (Re.group1 m).
Proof.
  intros Hb H. apply search_sound in H as (pre & post & -> & Hst & H).
  apply match_here_whole in H as (w & t & -> & _ & Hg & Hl); [|done].
  exists pre, t. unfold Re.group1. rewrite Hg. simpl. done.
Qed.

End MatcherFacts.

(** ** [re.sub] with a one-group pattern and the template [\1] + text *)

Section SubFacts.

Variable body : list Re.node.
Variable ins : str.
Hypothesis body_plain : Forall plain body.
Hypothesis body_nonempty : forall w, lang body w -> w <> [].

Let p : Re.pattern := Re.GOpen :: body ++ [Re.GClose].
Let t : Re.template := [Re.TGroup1; Re.TText ins].

Lemma sub_go_skip k s :
  k <= length s -> Re.sub_go p t k s = Re.sub_go p t 0 (drop k s).
Proof.
  revert k; induction s as [|c s IH]; intros [|k] Hk; simpl in *; try done; try lia.
  apply IH. lia.
Qed.

Lemma sub_nil : Re.sub p t [] = [].
Proof.
  unfold Re.sub. simpl.
  destruct (Re.match_here p []) as [[n g]|] eqn:E; [|done].
  apply match_here_whole in E as (w & r & Hs & _ & _ & Hl); [|done].
  symmetry in Hs. apply app_eq_nil in Hs as [-> _]. by apply body_nonempty in Hl.
Qed.

Lemma sub_hit w r :
  Re.match_here p (w ++ r) = Some (length w, Some w) ->
  Re.sub p t (w ++ r) = w ++ ins ++ Re.sub p t r.
Proof.
  intros H. destruct w as [|c w].
  - apply match_here_whole in H as (w & r' & Hs & Hn & Hg & Hl); [|done].
    injection Hg as <-. by apply body_nonempty in Hl.
  - unfold Re.sub. cbn [app Re.sub_go]. cbn [app] in H. rewrite H.
    cbn [length]. rewrite sub_go_skip by (rewrite length_app; lia).
    rewrite drop_app_length. unfold t, Re.expand. simpl.
    by rewrite app_nil_r, <- app_assoc.
Qed.

Lemma sub_miss c s :
  Re.match_here p (c :: s) = None -> Re.sub p t (c :: s) = c :: Re.sub p t s.
Proof. intros H. unfold Re.sub. cbn [Re.sub_go]. by rewrite H. Qed.

(** Rule induction over the loop of [re.sub]. *)
Lemma sub_ind (P : str -> str -> Prop) :
  P [] [] ->
  (forall w r out, Re.match_here p (w ++ r) = Some (length w, Some w) ->
                   lang body w -> P r out -> P (w ++ r) (w ++ ins ++ out)) ->
  (forall c s out, Re.match_here p (c :: s) = None -> P s out ->
                   P (c :: s) (c :: out)) ->
  forall s, P s (Re.sub p t s).
Proof.
  intros Hnil Hhit Hmiss s.
  remember (length s) as n eqn:Hn. revert s Hn.
  induction n as [n IH] using lt_wf_ind. intros s Hn.
  destruct (Re.match_here p s) as [[m g]|] eqn:E.
  - pose proof E as E'.
    apply match_here_whole in E' as (w & r & -> & -> & -> & Hl); [|done].
    rewrite sub_hit by done. apply Hhit; [done..|].
    apply (IH (length r)); [|done].
    pose proof (body_nonempty w Hl). rewrite Hn, length_app.
    destruct w; [done|simpl; lia].
  - destruct s as [|c s].
    + by rewrite sub_nil.
    + rewrite sub_miss by done. apply Hmiss; [done|].
      apply (IH (length s)); simpl in *; [lia|done].
Qed.

(** [re.sub] only inserts: the text is a subsequence of the result. *)
Lemma sub_sublist s : sublist s (Re.sub p t s).
Proof.
  apply (sub_ind (fun s out => sublist s out)).
  - constructor.
  - intros w r out _ _ H. apply sublist_app; [done|]. by apply sublist_inserts_l.
  - intros c r out _ H. by apply sublist_skip.
Qed.

(** Without a match nothing changes. *)
Lemma sub_absent s : Re.search p s = None -> Re.sub p t s = s.
Proof.
  unfold Re.search. generalize 0.
  induction s as [|c s IH]; intros i H.
  - apply sub_nil.
  - simpl in H. destruct (Re.match_here p (c :: s)) as [[n g]|] eqn:E; [done|].
    rewrite sub_miss by done. f_equal. by apply (IH (S i)).
Qed.

End SubFacts.

(** ** The patterns of the two scripts *)

Section PatternFacts.

(** A pattern that starts with a non-empty literal matches no empty
    text. *)
Lemma lang_lit_nonempty l body w :
  l <> [] -> lang (Re.Lit l :: body) w -> w <> [].
Proof. intros Hl (w' & -> & _). by destruct l. Qed.

Lemma lang_lit_prefix l body w :
  lang (Re.Lit l :: body) w -> exists w', w = l ++ w'.
Proof. intros (w' & -> & _). by exists w'. Qed.

(** What [re.search] finds for a one-group pattern that starts with a
    literal: the group is not empty and occurs in the text. *)
Lemma search_group l body s m :
  l <> [] -> Forall plain body ->
  Re.search (Re.GOpen :: (Re.Lit l :: body) ++ [Re.GClose]) s = Some m ->
  Re.group1 m <> [] /\ Doc.infix (Re.group1 m) s.
Proof.
  intros Hl Hb H.
  apply search_whole in H as (pre & post & -> & _ & _ & Hlang).
  - split; [by eapply lang_lit_nonempty|]. by exists pre, post.
  - by constructor.
Qed.

End PatternFacts.

Ltac plain_body := repeat constructor.

(** Membership in a list written out. *)
Ltac in_list :=
  solve [repeat first [apply list_elem_of_here | apply list_elem_of_further]].

(** * The claims *)

(** ** Exit, writes and output of the scripts *)

Section Runs.

Import AddExportService.

(** The run of [add_export_service.py] when the Services group is not
    found in the text read. *)
Lemma run_services_missing random1 random2 file :
  Re.search services_pattern (Py.universal_newlines file) = None ->
  IO.run (script random1 random2) file
  = (1, IO.World file
          [IO.Read; IO.Print (py "ERROR: Could not find Services group");
           IO.Exit 1]).
Proof.
  intros H. unfold IO.run, script, IO.bind, IO.read_file. cbn [IO.disk].
  by rewrite H.
Qed.

(** The run of [add_export_service.py] when it is found. *)
Lemma run_services_found random1 random2 file m :
  Re.search services_pattern (Py.universal_newlines file) = Some m ->
  let file_ref_uuid := Uuid.token random1 in
  let build_file_uuid := Uuid.token random2 in
  let content :=
    patch file_ref_uuid build_file_uuid m (Py.universal_newlines file) in
  IO.run (script random1 random2) file
  = (0, IO.World content
          [IO.Read; IO.Write content;
           IO.Print (py "Added ExportService.swift to Xcode project");
           IO.Print (py "File Reference UUID: " ++ file_ref_uuid);
           IO.Print (py "Build File UUID: " ++ build_file_uuid)]).
Proof.
  intros H. unfold IO.run, script, IO.bind, IO.read_file. cbn [IO.disk].
  by rewrite H.
Qed.

(** The run of [integrate_xcconfig.py]. *)
Lemma run_main file :
  let content := IntegrateXcconfig.patch (Py.universal_newlines file) in
  IO.run IntegrateXcconfig.main file
  = (0, IO.World content
          [IO.Read; IO.Write content;
           IO.Print (py "Successfully integrated xcconfig files into Xcode project!");
           IO.Print (py "- Added A10000F1000 for Debug.xcconfig");
           IO.Print (py "- Added A10000F2000 for Release.xcconfig");
           IO.Print (py "- Created Config group A10000F3000");
           IO.Print (py "- Assigned xcconfig files to Debug and Release configurations")]).
Proof. reflexivity. Qed.

End Runs.

Section ExitAndWrites.

Import AddExportService.

Local Ltac run_simpl :=
  cbn -[Uuid.token patch IntegrateXcconfig.patch py add_to_sources
        add_file_ref add_build_file add_to_services Py.universal_newlines].

(** C2.  When the Services group pattern has no match in the text read
    from the project file, [add_export_service.py] ends with exit status 1
    (not zero), writes nothing, and the file is, after every event of the
    run, what it was before. *)
Theorem C2_services_missing_exit_no_write random1 random2 file :
  Re.search services_pattern (Py.universal_newlines file) = None ->
  let r := IO.run (script random1 random2) file in
  IO.status r = 1 /\ IO.status r <> 0 /\ IO.writes r = []
  /\ IO.final_disk r = file
  /\ Forall (fun d => d = file) (IO.disk_history file (IO.events r)).
Proof.
  intros H r. subst r. rewrite run_services_missing by done.
  run_simpl. split_and!; [done..|]. repeat constructor.
Qed.

Lemma C2_services_missing_witness :
  let r := IO.run (script 7 11) (py "// !$*UTF8*$!") in
  IO.status r = 1 /\ IO.status r <> 0 /\ IO.writes r = []
  /\ IO.final_disk r = py "// !$*UTF8*$!"
  /\ Forall (fun d => d = py "// !$*UTF8*$!") (IO.disk_history (py "// !$*UTF8*$!") (IO.events r)).
Proof.
  apply (C2_services_missing_exit_no_write 7 11 (py "// !$*UTF8*$!")).
  vm_compute. reflexivity.
Defined.

(** C9.  Neither script writes the file before its directives have all
    been applied.  A run of [add_export_service.py] that finds the
    Services group, and every run of [integrate_xcconfig.py], writes
    exactly once, and what it writes is the result of the complete
    directive sequence; a run of [add_export_service.py] that does not
    find the group writes nothing.  After every event of a run the file
    holds either the original document or that complete result.  (The
    directives work on the text read from the file.) *)
Theorem C9_single_write_at_end :
  (forall random1 random2 file,
     let r := IO.run (script random1 random2) file in
     let text := Py.universal_newlines file in
     match Re.search services_pattern text with
     | Some m =>
         let content := patch (Uuid.token random1) (Uuid.token random2) m text in
         IO.writes r = [content] /\ IO.final_disk r = content
         /\ Forall (fun d => d = file \/ d = content)
                   (IO.disk_history file (IO.events r))
     | None =>
         IO.writes r = [] /\ IO.final_disk r = file
         /\ Forall (fun d => d = file) (IO.disk_history file (IO.events r))
     end)
  /\ (forall file,
        let r := IO.run IntegrateXcconfig.main file in
        let content := IntegrateXcconfig.patch (Py.universal_newlines file) in
        IO.writes r = [content] /\ IO.final_disk r = content
        /\ Forall (fun d => d = file \/ d = content)
                  (IO.disk_history file (IO.events r))).
Proof.
  split.
  - intros random1 random2 file r text. subst r text.
    destruct (Re.search services_pattern (Py.universal_newlines file))
      as [m|] eqn:E.
    + rewrite (run_services_found _ _ _ _ E). run_simpl.
      split_and!; [done..|]. repeat (constructor; [auto|]). constructor.
    + rewrite run_services_missing by done. run_simpl.
      split_and!; [done..|]. repeat constructor.
  - intros file r content. subst r. rewrite run_main. fold content. run_simpl.
    split_and!; [done..|]. repeat (constructor; [auto|]). constructor.
Qed.

(** C5 as stated fails: on a project file that has the Services group but
    none of the three secondary anchors, the three directives are skipped
    and the run completes, yet nothing is printed besides the three
    closing lines. *)
Lemma C5_no_diagnostic :
  let r := IO.run (script 0 0) Claims.services_only in
  Py.universal_newlines Claims.services_only = Claims.services_only
  /\ Re.search build_file_section_pattern Claims.services_only = None
  /\ Re.search file_ref_section_pattern Claims.services_only = None
  /\ Re.search sources_phase_pattern Claims.services_only = None
  /\ IO.status r = 0
  /\ ~ Claims.diagnostic_surfaced 0 0 r.
Proof.
  split_and!; try (vm_compute; reflexivity).
  intros (line & Hin & Hout). apply Hout. revert Hin.
  vm_compute. done.
Qed.

(** C5, amended.  A directive whose anchor is not found returns the
    content unchanged, the remaining directives are applied as usual, and
    the run completes with exit status 0 and one write; nothing is printed
    about the skipped directive: the output is the closing lines of every
    complete run.  The same holds for the two guarded steps of
    [integrate_xcconfig.py]. *)
Theorem C5_secondary_anchor_skipped_silently random1 random2 file m :
  let text := Py.universal_newlines file in
  Re.search services_pattern text = Some m ->
  let fr := Uuid.token random1 in
  let bf := Uuid.token random2 in
  let r := IO.run (script random1 random2) file in
  (forall content, Re.search build_file_section_pattern content = None ->
                   add_build_file fr bf content = content)
  /\ (forall content, Re.search file_ref_section_pattern content = None ->
                      add_file_ref fr content = content)
  /\ (forall content, Re.search sources_phase_pattern content = None ->
                      add_to_sources bf content = content)
  /\ IO.status r = 0
  /\ IO.writes r
     = [add_to_sources bf (add_file_ref fr (add_build_file fr bf
          (add_to_services fr m text)))]
  /\ IO.stdout r = report fr bf
  /\ (forall content,
        Re.search IntegrateXcconfig.file_ref_section_pattern content = None ->
        IntegrateXcconfig.add_file_refs content = content)
  /\ (forall content,
        Re.search IntegrateXcconfig.group_section_pattern content = None ->
        IntegrateXcconfig.add_config_group content = content)
  /\ (forall file',
        let r' := IO.run IntegrateXcconfig.main file' in
        IO.status r' = 0
        /\ IO.writes r'
           = [IntegrateXcconfig.patch (Py.universal_newlines file')]
        /\ IO.stdout r'
           = [py "Successfully integrated xcconfig files into Xcode project!";
              py "- Added A10000F1000 for Debug.xcconfig";
              py "- Added A10000F2000 for Release.xcconfig";
              py "- Created Config group A10000F3000";
              py "- Assigned xcconfig files to Debug and Release configurations"]).
Proof.
  intros text H fr bf r. subst r text. rewrite (run_services_found _ _ _ _ H).
  run_simpl. split_and!; try done.
  - intros content Hc. unfold add_build_file. by rewrite Hc.
  - intros content Hc. unfold add_file_ref. by rewrite Hc.
  - intros content Hc. unfold add_to_sources. by rewrite Hc.
  - intros content Hc. unfold IntegrateXcconfig.add_file_refs. by rewrite Hc.
  - intros content Hc. unfold IntegrateXcconfig.add_config_group. by rewrite Hc.
Qed.

End ExitAndWrites.

(** ** Splicing *)

Section Splicing.

Implicit Types (d : directive) (s t u : str).

Lemma lang_close body w : lang (body ++ [Re.GClose]) w <-> lang body w.
Proof.
  revert w; induction body as [|nd body IH]; intros w; [done|].
  destruct nd; simpl; try apply IH.
  - split; intros (w' & -> & H); exists w'; (split; [done|by apply IH]).
  - split; intros (x & u & w' & -> & ? & ? & H); exists x, u, w';
      (split_and!; [done..|by apply IH]).
  - split; intros (u & w' & -> & ? & H); exists u, w';
      (split_and!; [done..|by apply IH]).
  - split; intros (u & w' & -> & ? & H); exists u, w';
      (split_and!; [done..|by apply IH]).
Qed.

Lemma splice_sublist d s t : splice d s t -> sublist s t.
Proof.
  induction 1 as [|w r out _ _ IH|c s out _ IH].
  - constructor.
  - apply sublist_inserts_l, sublist_app; [done|]. by apply sublist_inserts_l.
  - by apply sublist_skip.
Qed.

Lemma only_inserts_sublist ds s t : only_inserts ds s t -> sublist s t.
Proof.
  induction 1 as [|d s t u _ H _ IH]; [done|].
  etrans; [by eapply splice_sublist|done].
Qed.

Lemma only_inserts_trans ds s t u :
  only_inserts ds s t -> only_inserts ds t u -> only_inserts ds s u.
Proof.
  induction 1 as [|d s t t' Hd H _ IH]; [done|].
  intros Hu. eapply only_inserts_step; [done..|]. by apply IH.
Qed.

Lemma only_inserts_one ds d s t :
  d ∈ ds -> splice d s t -> only_inserts ds s t.
Proof. intros. eapply only_inserts_step; [done..|]. constructor. Qed.

(** [s.replace(g, g + ins)] splices [ins] behind occurrences of [g]. *)
Lemma replace_splice_after pat g ins s :
  g <> [] -> lang pat g ->
  splice (Directive pat [] ins) s (Py.replace s g (g ++ ins)).
Proof.
  intros Hne Hg.
  apply (replace_ind g (g ++ ins) (splice (Directive pat [] ins))); [done|..].
  - constructor.
  - intros r out H. rewrite <- app_assoc.
    by apply (splice_anchor (Directive pat [] ins) g r out).
  - intros c r out _ H. by constructor.
Qed.

(** [s.replace(g, ins + g)] splices [ins] in front of occurrences of
    [g]. *)
Lemma replace_splice_before g ins s :
  g <> [] ->
  splice (Directive [Re.Lit g] ins []) s (Py.replace s g (ins ++ g)).
Proof.
  intros Hne.
  apply (replace_ind g (ins ++ g) (splice (Directive [Re.Lit g] ins []))); [done|..].
  - constructor.
  - intros r out H. rewrite <- app_assoc.
    apply (splice_anchor (Directive [Re.Lit g] ins []) g r out); [|done].
    exists []. by rewrite app_nil_r.
  - intros c r out _ H. by constructor.
Qed.

(** [re.sub] with a one-group pattern and the template [\1] + [ins]
    splices [ins] behind the matches. *)
Lemma sub_splice body ins s :
  Forall plain body -> (forall w, lang body w -> w <> []) ->
  splice (Directive (Re.GOpen :: body ++ [Re.GClose]) [] ins) s
         (Re.sub (Re.GOpen :: body ++ [Re.GClose]) [Re.TGroup1; Re.TText ins] s).
Proof.
  intros Hb Hne.
  apply (sub_ind body ins Hb Hne
           (splice (Directive (Re.GOpen :: body ++ [Re.GClose]) [] ins))).
  - constructor.
  - intros w r out _ Hw H.
    apply (splice_anchor (Directive (Re.GOpen :: body ++ [Re.GClose]) [] ins) w r out);
      [|done].
    simpl. by apply lang_close.
  - intros c r out _ H. by constructor.
Qed.

End Splicing.

(** ** The directives, one by one *)

Section Directives.

Import AddExportService.

(** A directive of [add_export_service.py]: [re.search] with a one-group
    pattern that starts with a literal, then [content.replace] of the
    group by the group followed by the new text. *)
Lemma search_replace_splice l body ins s m :
  l <> [] -> Forall plain body ->
  Re.search (Re.GOpen :: (Re.Lit l :: body) ++ [Re.GClose]) s = Some m ->
  splice (Directive (Re.GOpen :: (Re.Lit l :: body) ++ [Re.GClose]) [] ins) s
         (Py.replace s (Re.group1 m) (Re.group1 m ++ ins)).
Proof.
  intros Hl Hb H.
  destruct (search_group l body s m Hl Hb H) as [Hne _].
  apply search_whole in H as (_ & _ & _ & _ & _ & Hlang); [|by constructor].
  apply replace_splice_after; [done|].
  cbn [lang]. by apply lang_close.
Qed.

Lemma search_replace_once l body ins s m a b :
  l <> [] -> Forall plain body ->
  Re.search (Re.GOpen :: (Re.Lit l :: body) ++ [Re.GClose]) s = Some m ->
  s = a ++ Re.group1 m ++ b ->
  (forall a' b', s = a' ++ Re.group1 m ++ b' -> a' = a) ->
  Py.replace s (Re.group1 m) (Re.group1 m ++ ins)
  = a ++ Re.group1 m ++ ins ++ b.
Proof.
  intros Hl Hb H Hs Huniq.
  destruct (search_group l body s m Hl Hb H) as [Hne _].
  rewrite Hs at 1. rewrite replace_once, <- app_assoc; [done..|].
  by rewrite <- Hs.
Qed.

(** The nodes between the literal that opens each pattern and the closing
    parenthesis. *)
Local Abbreviation services_rest :=
  [Re.Plus (Re.CNot "}"); Re.Lit (py "children = ("); Re.Plus (Re.CNot ")")].
Local Abbreviation sources_rest :=
  [Re.Plus (Re.CNot "}"); Re.Lit (py "files = ("); Re.Plus (Re.CNot ")")].

Lemma add_to_services_splice fr s m :
  Re.search services_pattern s = Some m ->
  splice (Directive services_pattern [] (services_child fr)) s
         (add_to_services fr m s).
Proof.
  apply (search_replace_splice (py "/* Services */ = {") services_rest);
    [done|plain_body].
Qed.

Lemma add_build_file_splice fr bf s :
  add_build_file fr bf s = s
  \/ splice (Directive build_file_section_pattern [] (build_file_entry fr bf)) s
            (add_build_file fr bf s).
Proof.
  unfold add_build_file.
  destruct (Re.search build_file_section_pattern s) as [m|] eqn:E; [|by left].
  right. revert E.
  apply (search_replace_splice (py "/* Begin PBXBuildFile section */") []);
    [done|plain_body].
Qed.

Lemma add_file_ref_splice fr s :
  add_file_ref fr s = s
  \/ splice (Directive file_ref_section_pattern [] (file_ref_entry fr)) s
            (add_file_ref fr s).
Proof.
  unfold add_file_ref.
  destruct (Re.search file_ref_section_pattern s) as [m|] eqn:E; [|by left].
  right. revert E.
  apply (search_replace_splice (py "/* Begin PBXFileReference section */") []);
    [done|plain_body].
Qed.

Lemma add_to_sources_splice bf s :
  add_to_sources bf s = s
  \/ splice (Directive sources_phase_pattern [] (sources_child bf)) s
            (add_to_sources bf s).
Proof.
  unfold add_to_sources.
  destruct (Re.search sources_phase_pattern s) as [m|] eqn:E; [|by left].
  right. revert E.
  apply (search_replace_splice (py "/* Sources */ = {") sources_rest);
    [done|plain_body].
Qed.

Import IntegrateXcconfig.

Lemma add_file_refs_splice s :
  add_file_refs s = s
  \/ splice (Directive [Re.Lit end_file_ref_marker] new_refs []) s
            (add_file_refs s).
Proof.
  unfold add_file_refs.
  destruct (Re.search IntegrateXcconfig.file_ref_section_pattern s) as [m|]; [|by left].
  destruct (negb _); [|by left].
  right. apply replace_splice_before. discriminate.
Qed.

Lemma assign_debug_splice s :
  splice (Directive debug_config_pattern [] debug_base_reference) s
         (assign_debug s).
Proof.
  apply (sub_splice [Re.Lit _; Re.Star _; Re.Lit _]); [plain_body|].
  intros w Hw. by refine (lang_lit_nonempty _ _ _ _ Hw).
Qed.

Lemma assign_release_splice s :
  splice (Directive release_config_pattern [] release_base_reference) s
         (assign_release s).
Proof.
  apply (sub_splice [Re.Lit _; Re.Star _; Re.Lit _]); [plain_body|].
  intros w Hw. by refine (lang_lit_nonempty _ _ _ _ Hw).
Qed.

Lemma root_group_splice s :
  splice (Directive root_group_pattern [] config_child) s
         (Re.sub root_group_pattern replacement s).
Proof.
  apply (sub_splice [Re.Lit _; Re.Star _; Re.Lit _; Re.Star _; Re.Lit _; Re.Star _]);
    [plain_body|].
  intros w Hw. by refine (lang_lit_nonempty _ _ _ _ Hw).
Qed.

End Directives.

(** ** Frame: what the patch leaves alone *)

Section Frame.

Import AddExportService.

Lemma only_inserts_maybe ds d s t :
  d ∈ ds -> t = s \/ splice d s t -> only_inserts ds s t.
Proof.
  intros Hd [->|H]; [constructor|]. by eapply only_inserts_one.
Qed.

Lemma patch_only_inserts fr bf s m :
  Re.search services_pattern s = Some m ->
  only_inserts (Claims.add_export_directives fr bf) s (patch fr bf m s).
Proof.
  intros H. unfold patch, Claims.add_export_directives.
  eapply only_inserts_trans;
    [eapply only_inserts_one; [|by apply add_to_services_splice]; in_list|].
  eapply only_inserts_trans;
    [eapply only_inserts_maybe; [|apply add_build_file_splice]; in_list|].
  eapply only_inserts_trans;
    [eapply only_inserts_maybe; [|apply add_file_ref_splice]; in_list|].
  eapply only_inserts_maybe; [|apply add_to_sources_splice]; in_list.
Qed.

Lemma add_config_group_only_inserts s :
  only_inserts Claims.integrate_directives s (IntegrateXcconfig.add_config_group s).
Proof.
  unfold IntegrateXcconfig.add_config_group, Claims.integrate_directives.
  destruct (Re.search IntegrateXcconfig.group_section_pattern s); [|constructor].
  destruct (negb _); [|constructor].
  eapply only_inserts_trans.
  - eapply only_inserts_one;
      [|apply (replace_splice_before IntegrateXcconfig.end_group_marker); discriminate].
    in_list.
  - eapply only_inserts_one; [|apply root_group_splice]. in_list.
Qed.

Lemma integrate_patch_only_inserts s :
  only_inserts Claims.integrate_directives s (IntegrateXcconfig.patch s).
Proof.
  unfold IntegrateXcconfig.patch, IntegrateXcconfig.assign_base_configurations.
  eapply only_inserts_trans;
    [eapply only_inserts_maybe; [|apply add_file_refs_splice]; in_list|].
  eapply only_inserts_trans; [apply add_config_group_only_inserts|].
  eapply only_inserts_trans;
    [eapply only_inserts_one; [|apply assign_debug_splice]; in_list|].
  eapply only_inserts_one; [|apply assign_release_splice]. in_list.
Qed.

(** C8.  Whatever the project file, what a script writes comes from the
    text it read by splices only: each step puts the new text of one
    directive next to a text matched by the anchor pattern of that
    directive and copies every other character; so the text read is,
    character by character and in order, a subsequence of the file the
    script leaves.  A run of [add_export_service.py] that does not find
    the Services group leaves the file as it is.  The text read is the
    file itself when the file has no carriage return. *)
Theorem C8_bytes_outside_anchors_preserved :
  (forall random1 random2 file,
     let text := Py.universal_newlines file in
     let r := IO.run (script random1 random2) file in
     (Re.search services_pattern text <> None ->
      only_inserts
        (Claims.add_export_directives (Uuid.token random1) (Uuid.token random2))
        text (IO.final_disk r)
      /\ sublist text (IO.final_disk r))
     /\ (Re.search services_pattern text = None -> IO.final_disk r = file))
  /\ (forall file,
        let text := Py.universal_newlines file in
        let r := IO.run IntegrateXcconfig.main file in
        only_inserts Claims.integrate_directives text (IO.final_disk r)
        /\ sublist text (IO.final_disk r))
  /\ (forall file, cr ∉ file -> Py.universal_newlines file = file).
Proof.
  split_and!.
  - intros random1 random2 file text r. subst r text.
    destruct (Re.search services_pattern (Py.universal_newlines file))
      as [m|] eqn:E.
    + rewrite (run_services_found _ _ _ _ E). unfold IO.final_disk. cbn [snd IO.disk].
      pose proof (patch_only_inserts (Uuid.token random1) (Uuid.token random2) _ _ E) as H.
      split; [|done]. intros _. split; [done|]. by eapply only_inserts_sublist.
    + rewrite run_services_missing by done. split; done.
  - intros file text r. subst r text. rewrite run_main.
    unfold IO.final_disk. cbn [snd IO.disk].
    pose proof (integrate_patch_only_inserts (Py.universal_newlines file)) as H.
    split; [done|]. by eapply only_inserts_sublist.
  - apply universal_newlines_plain.
Qed.

End Frame.

(** ** Guards and occurrences *)

Section GuardsAndOccurrences.

Import AddExportService.

(** C5, at a project file with a Services group and no other anchor. *)
Lemma C5_skipped_silently_witness :
  exists m,
    Re.search services_pattern (Py.universal_newlines Claims.services_only)
    = Some m
  /\ IO.status (IO.run (script 0 0) Claims.services_only) = 0
  /\ IO.stdout (IO.run (script 0 0) Claims.services_only)
     = report (Uuid.token 0) (Uuid.token 0).
Proof.
  destruct (Re.search services_pattern
              (Py.universal_newlines Claims.services_only)) as [m|] eqn:E;
    [|vm_compute in E; discriminate].
  exists m. split; [reflexivity|].
  destruct (C5_secondary_anchor_skipped_silently 0 0 Claims.services_only m E)
    as (_ & _ & _ & Hs & _ & Ho & _).
  split; [exact Hs|exact Ho].
Defined.

(** C6.  When the text between the PBXFileReference section comments
    (what [re.search] returns as group 1) contains [Debug.xcconfig], the
    file-reference step of [integrate_xcconfig.py] returns the content
    unchanged, so that the result of the script is that of its other two
    steps alone. *)
Theorem C6_existing_reference_guard content m :
  Re.search IntegrateXcconfig.file_ref_section_pattern content = Some m ->
  Py.contains (py "Debug.xcconfig") (Re.group1 m) = true ->
  (exists pre post,
      content = pre ++ py "/* Begin PBXFileReference section */"
                ++ Re.group1 m ++ IntegrateXcconfig.end_file_ref_marker ++ post)
  /\ IntegrateXcconfig.add_file_refs content = content
  /\ IntegrateXcconfig.patch content
     = IntegrateXcconfig.assign_base_configurations
         (IntegrateXcconfig.add_config_group content).
Proof.
  intros H Hc.
  assert (IntegrateXcconfig.add_file_refs content = content) as Hid.
  { unfold IntegrateXcconfig.add_file_refs. by rewrite H, Hc. }
  split_and!; [|done|].
  - apply search_sound in H as (pre & post & -> & _ & H).
    apply match_here_between in H as (b & t & -> & Hg & _).
    exists pre, t. unfold Re.group1. by rewrite Hg.
  - unfold IntegrateXcconfig.patch. by rewrite Hid.
Qed.

Lemma C6_existing_reference_witness :
  exists m,
    Re.search IntegrateXcconfig.file_ref_section_pattern Claims.already_integrated
    = Some m
    /\ Py.contains (py "Debug.xcconfig") (Re.group1 m) = true
    /\ IntegrateXcconfig.add_file_refs Claims.already_integrated
       = Claims.already_integrated.
Proof.
  destruct (Re.search IntegrateXcconfig.file_ref_section_pattern
              Claims.already_integrated) as [m|] eqn:E;
    [|vm_compute in E; discriminate].
  exists m. split; [reflexivity|].
  assert (Py.contains (py "Debug.xcconfig") (Re.group1 m) = true) as Hc.
  { vm_compute in E. injection E as <-. vm_compute. reflexivity. }
  split; [exact Hc|].
  exact (proj1 (proj2 (C6_existing_reference_guard Claims.already_integrated m E Hc))).
Defined.

Local Abbreviation services_rest :=
  [Re.Plus (Re.CNot "}"); Re.Lit (py "children = ("); Re.Plus (Re.CNot ")")].
Local Abbreviation sources_rest :=
  [Re.Plus (Re.CNot "}"); Re.Lit (py "files = ("); Re.Plus (Re.CNot ")")].

(** C10.  Each directive of [add_export_service.py] replaces the text of
    group 1 wherever it occurs.  When that text occurs at one position
    only, the new text is put behind that occurrence and nowhere else.
    When it occurs twice, as the PBXBuildFile section comment does in
    [two_markers], the new text is put behind both occurrences. *)
Theorem C10_replace_splices_every_occurrence file_ref_uuid build_file_uuid :
  (forall content m a b,
      Re.search services_pattern content = Some m ->
      content = a ++ Re.group1 m ++ b ->
      (forall a' b', content = a' ++ Re.group1 m ++ b' -> a' = a) ->
      add_to_services file_ref_uuid m content
      = a ++ Re.group1 m ++ services_child file_ref_uuid ++ b)
  /\ (forall content m a b,
      Re.search build_file_section_pattern content = Some m ->
      content = a ++ Re.group1 m ++ b ->
      (forall a' b', content = a' ++ Re.group1 m ++ b' -> a' = a) ->
      add_build_file file_ref_uuid build_file_uuid content
      = a ++ Re.group1 m ++ build_file_entry file_ref_uuid build_file_uuid ++ b)
  /\ (forall content m a b,
      Re.search file_ref_section_pattern content = Some m ->
      content = a ++ Re.group1 m ++ b ->
      (forall a' b', content = a' ++ Re.group1 m ++ b' -> a' = a) ->
      add_file_ref file_ref_uuid content
      = a ++ Re.group1 m ++ file_ref_entry file_ref_uuid ++ b)
  /\ (forall content m a b,
      Re.search sources_phase_pattern content = Some m ->
      content = a ++ Re.group1 m ++ b ->
      (forall a' b', content = a' ++ Re.group1 m ++ b' -> a' = a) ->
      add_to_sources build_file_uuid content
      = a ++ Re.group1 m ++ sources_child build_file_uuid ++ b)
  /\ (Doc.count (py "/* Begin PBXBuildFile section */") Claims.two_markers = 2
      /\ add_build_file file_ref_uuid build_file_uuid Claims.two_markers
         = py "/* Begin PBXBuildFile section */"
           ++ build_file_entry file_ref_uuid build_file_uuid
           ++ py " // see "
           ++ py "/* Begin PBXBuildFile section */"
           ++ build_file_entry file_ref_uuid build_file_uuid
           ++ py ".").
Proof.
  split_and!.
  - intros content m a b H Hs Hu. unfold add_to_services.
    apply (search_replace_once (py "/* Services */ = {") services_rest); [done|plain_body|done..].
  - intros content m a b H Hs Hu. unfold add_build_file. rewrite H.
    apply (search_replace_once (py "/* Begin PBXBuildFile section */") []); [done|plain_body|done..].
  - intros content m a b H Hs Hu. unfold add_file_ref. rewrite H.
    apply (search_replace_once (py "/* Begin PBXFileReference section */") []); [done|plain_body|done..].
  - intros content m a b H Hs Hu. unfold add_to_sources. rewrite H.
    apply (search_replace_once (py "/* Sources */ = {") sources_rest); [done|plain_body|done..].
  - vm_compute. reflexivity.
  - vm_compute. reflexivity.
Qed.

End GuardsAndOccurrences.

(** ** Where an occurrence can lie with respect to an inserted text *)

Section Overlaps.

Implicit Types (X T Y R a b s : str).

(** Closes a case of the lemma below. *)
Local Ltac fin :=
  split_and!; rewrite ?app_nil_r, <- ?app_assoc; simpl;
  rewrite ?app_nil_r, <- ?app_assoc; first [done | lia].

(** [R] occurs in [X ++ T ++ Y]: it lies in [X], or in [Y], or it starts
    inside [T], or it starts in [X] and ends inside [T], or it starts in
    [X] and goes beyond [T]. *)
Lemma occurrence_cases X T Y a R b :
  X ++ T ++ Y = a ++ R ++ b ->
  (exists z, X = a ++ R ++ z /\ b = z ++ T ++ Y)
  \/ (exists z, a = X ++ T ++ z /\ Y = z ++ R ++ b)
  \/ (exists j, j < length T /\ a = X ++ take j T /\ R ++ b = drop j T ++ Y)
  \/ (exists j x, 0 < j <= length T /\ X = a ++ x /\ x <> []
                  /\ R = x ++ take j T /\ b = drop j T ++ Y)
  \/ (exists x v, X = a ++ x /\ x <> [] /\ v <> [] /\ R = x ++ T ++ v
                  /\ Y = v ++ b).
Proof.
  intros H.
  assert (forall (l : str), take (length l) l = l) as Htake
    by (intros; apply firstn_all).
  assert (forall (l : str), drop (length l) l = []) as Hdrop
    by (intros; apply drop_all).
  assert (forall (l k : str), length l <= length (l ++ k)) as Hlen
    by (intros; rewrite length_app; lia).
  pose proof (fun (l k : str) => take_app_length l k) as Htake'.
  pose proof (fun (l k : str) => drop_app_length l k) as Hdrop'.
  apply app_eq_inv in H as [(k & -> & H)|(k & -> & H)].
  - (* [a] ends in [X] *)
    apply app_eq_inv in H as [(k' & -> & H)|(k' & -> & ->)].
    + (* [R] reaches the end of [X] *)
      apply app_eq_inv in H as [(k'' & -> & ->)|(k'' & -> & ->)].
      * (* and ends in [T] *)
        destruct k as [|c k].
        -- destruct k' as [|c' k'].
           ++ left. exists []. fin.
           ++ right; right; left. exists 0. fin.
        -- destruct k' as [|c' k'].
           ++ left. exists []. fin.
           ++ right; right; right; left.
              exists (length (c' :: k')), (c :: k).
              rewrite Htake', Hdrop'. pose proof (Hlen (c' :: k') k''). fin.
      * (* and goes on to the end of [T] or beyond *)
        destruct k as [|c k].
        -- destruct T as [|t T].
           ++ right; left. exists []. fin.
           ++ right; right; left. exists 0. fin.
        -- destruct k'' as [|c'' k''].
           ++ destruct T as [|t T].
              ** left. exists []. fin.
              ** right; right; right; left.
                 exists (length (t :: T)), (c :: k).
                 rewrite Htake, Hdrop. fin.
           ++ right; right; right; right.
              exists (c :: k), (c'' :: k''). fin.
    + (* [R] ends in [X] *)
      left. exists k'. fin.
  - (* [a] goes beyond [X] *)
    apply app_eq_inv in H as [(k' & -> & H)|(k' & -> & ->)].
    + destruct k' as [|c' k'].
      * right; left. exists []. fin.
      * right; right; left. exists (length k).
        rewrite Htake', Hdrop'. rewrite length_app. fin.
    + right; left. exists k'. fin.
Qed.

End Overlaps.

Section Agreement.

Implicit Types (x y L T : str).

Lemma agree_prefixes x y x' y' : x ++ x' = y ++ y' -> agree x y = true.
Proof.
  revert y; induction x as [|a x IH]; intros [|b y] H; simpl in *; try done.
  injection H as -> H. rewrite Ascii.eqb_refl. simpl. by eapply IH.
Qed.

Lemma never_starts_in_spec L T j r Y :
  never_starts_in L T = true -> j < length T ->
  L ++ r = drop j T ++ Y -> False.
Proof.
  unfold never_starts_in. rewrite forallb_forall. intros Hall Hj H.
  specialize (Hall j). rewrite in_seq in Hall.
  rewrite (agree_prefixes _ _ _ _ H) in Hall. simpl in Hall.
  assert (false = true) by (apply Hall; lia). done.
Qed.

Lemma never_ends_in_spec L T j r x :
  never_ends_in L T = true -> 0 < j <= length T ->
  r ++ L = x ++ take j T -> False.
Proof.
  unfold never_ends_in. rewrite forallb_forall. intros Hall Hj H.
  specialize (Hall j). rewrite in_seq in Hall.
  apply (f_equal (@rev ascii)) in H. rewrite !rev_app_distr in H.
  rewrite (agree_prefixes _ _ _ _ H) in Hall. simpl in Hall.
  assert (false = true) by (apply Hall; lia). done.
Qed.

Lemma never_starts_in_cannot L T :
  never_starts_in L T = true -> cannot_start_in L T.
Proof. intros H j r Y Hj Heq. by eapply never_starts_in_spec. Qed.

Lemma never_ends_in_cannot L T :
  never_ends_in L T = true -> cannot_end_in L T.
Proof. intros H j r x Hj Heq. by eapply never_ends_in_spec. Qed.

(** A text cannot start inside a text that lacks its first character. *)
Lemma cannot_start_in_lacks c L T : c ∉ T -> cannot_start_in (c :: L) T.
Proof.
  intros Hc j r Y Hj H. apply Hc.
  destruct (drop j T) as [|y dT] eqn:E.
  - apply (f_equal length) in E. rewrite length_drop in E. simpl in E. lia.
  - simpl in H. injection H as -> _.
    assert (y ∈ drop j T) as Hin by (rewrite E; apply list_elem_of_here).
    apply list_elem_of_lookup in Hin as [i Hi]. rewrite lookup_drop in Hi.
    by eapply list_elem_of_lookup_2.
Qed.

Lemma cannot_start_in_app L T1 T2 :
  cannot_start_in L T1 -> cannot_start_in L T2 -> cannot_start_in L (T1 ++ T2).
Proof.
  intros H1 H2 j r Y Hj H.
  destruct (decide (j < length T1)) as [Hlt|Hge].
  - rewrite drop_app_le, <- app_assoc in H by lia. by eapply H1.
  - rewrite drop_app_ge in H by lia. eapply (H2 (j - length T1)); [|done].
    rewrite length_app in Hj. lia.
Qed.

Lemma lacks_spec c s : lacks c s = true <-> c ∉ s.
Proof.
  unfold lacks. rewrite forallb_forall. split.
  - intros H Hin. apply list_elem_of_In, H in Hin.
    by rewrite Ascii.eqb_refl in Hin.
  - intros H y Hy. destruct (Ascii.eqb_spec y c) as [->|]; [|done].
    by apply list_elem_of_In in Hy.
Qed.

End Agreement.

(** ** Patterns of the form [(L1\s*L2)] *)

Section Blocks.

Variables (L1 L2' : str) (x2 : ascii) (ins : str).
Hypothesis L1_nonempty : L1 <> [].
Hypothesis x2_not_space : Re.isspace x2 = false.

Let L2 : str := x2 :: L2'.
Let P : Re.pattern :=
  Re.GOpen :: [Re.Lit L1; Re.Star Re.CSpace; Re.Lit L2] ++ [Re.GClose].
Let t : Re.template := [Re.TGroup1; Re.TText ins].

Lemma block_body_plain : Forall plain [Re.Lit L1; Re.Star Re.CSpace; Re.Lit L2].
Proof. plain_body. Qed.

Lemma block_body_nonempty w :
  lang [Re.Lit L1; Re.Star Re.CSpace; Re.Lit L2] w -> w <> [].
Proof. intros Hw. by refine (lang_lit_nonempty _ _ _ _ Hw). Qed.

(** A match is a block followed by the rest of the text. *)
Lemma match_block_sound s n g :
  Re.match_here P s = Some (n, g) ->
  exists ws r, s = block L1 L2 ws ++ r /\ spaces ws
               /\ n = length (block L1 L2 ws) /\ g = Some (block L1 L2 ws).
Proof.
  intros H. apply match_here_whole in H as (w & r & -> & -> & -> & Hl);
    [|apply block_body_plain].
  destruct Hl as (w1 & -> & u & w2 & -> & Hu & w3 & -> & ->).
  exists u, r. unfold block. by rewrite app_nil_r.
Qed.

(** The greedy loop runs through the white space in front of a character
    that is none, when the rest of the pattern matches from there. *)
Lemma greedy_spaces k off ws z rest c r0 :
  spaces ws -> Re.isspace z = false ->
  k (off + length ws) (z :: rest) c = Some r0 ->
  Re.greedy_rep Re.CSpace k off (ws ++ z :: rest) c = Some r0.
Proof.
  intros Hws Hz. revert off. induction Hws as [|y ws Hy _ IH]; intros off Hk.
  - simpl in *. rewrite Nat.add_0_r in Hk. by rewrite Hz.
  - simpl. rewrite Hy. rewrite (IH (S off)); [done|].
    simpl in Hk. by replace (S off + length ws) with (off + S (length ws)) by lia.
Qed.

(** A block at the start of the text is matched, whole. *)
Lemma match_block_complete ws r :
  spaces ws ->
  Re.match_here P (block L1 L2 ws ++ r)
  = Some (length (block L1 L2 ws), Some (block L1 L2 ws)).
Proof.
  intros Hws. unfold Re.match_here, P, block. cbn [app Re.exec snd].
  rewrite <- !app_assoc, startswith_app, drop_app_length.
  unfold L2. cbn [app].
  erewrite greedy_spaces; [| done | done |].
  2:{ cbn [Re.exec]. change (x2 :: L2' ++ r) with ((x2 :: L2') ++ r).
      rewrite startswith_app. reflexivity. }
  cbn [fst]. f_equal. f_equal.
  - rewrite !length_app. simpl. lia.
  - f_equal. unfold Py.slice. rewrite drop_0, Nat.sub_0_r.
    replace (0 + length L1 + length ws + length (x2 :: L2'))
      with (length (L1 ++ ws ++ x2 :: L2')) by (rewrite !length_app; simpl; lia).
    change (x2 :: L2' ++ r) with ((x2 :: L2') ++ r).
    rewrite !app_assoc. rewrite take_app_length. by rewrite <- !app_assoc.
Qed.

Lemma search_block_free s : block_free L1 L2 s -> Re.search P s = None.
Proof.
  unfold Re.search. generalize 0. induction s as [|c s IH]; intros i Hfree.
  - simpl. destruct (Re.match_here P []) as [[n g]|] eqn:E; [|done].
    apply match_block_sound in E as (ws & r & Hs & Hws & _).
    by destruct (Hfree [] ws r Hws).
  - simpl. destruct (Re.match_here P (c :: s)) as [[n g]|] eqn:E.
    + apply match_block_sound in E as (ws & r & Hs & Hws & _).
      by destruct (Hfree [] ws r Hws).
    + apply IH. intros a ws b Hws ->. by apply (Hfree (c :: a) ws b Hws).
Qed.

(** [re.sub] on a text with one block: the new text is put behind the
    block. *)
Lemma sub_block_once a ws b :
  spaces ws ->
  only_block_at L1 L2 (a ++ block L1 L2 ws ++ b) a ->
  Re.sub P t (a ++ block L1 L2 ws ++ b) = a ++ block L1 L2 ws ++ ins ++ b.
Proof.
  intros Hws. induction a as [|c a IH]; intros Hu.
  - simpl. unfold P, t.
    rewrite (sub_hit _ ins block_body_plain block_body_nonempty);
      [|by apply match_block_complete].
    rewrite (sub_absent _ ins block_body_plain block_body_nonempty); [done|].
    apply search_block_free. intros a' ws' b' Hws' ->.
    specialize (Hu (block L1 L2 ws ++ a') ws' b' Hws').
    simpl in Hu. rewrite <- app_assoc in Hu. specialize (Hu eq_refl).
    unfold block in Hu. by destruct L1.
  - simpl. unfold P, t.
    rewrite (sub_miss _ ins).
    + f_equal. apply IH. intros a' ws' b' Hws' H.
      specialize (Hu (c :: a') ws' b' Hws'). simpl in Hu. rewrite H in Hu.
      specialize (Hu eq_refl). congruence.
    + destruct (Re.match_here _ _) as [[n g]|] eqn:E; [|done].
      apply match_block_sound in E as (ws' & r & Hs & Hws' & _).
      specialize (Hu [] ws' r Hws'). simpl in Hu. by specialize (Hu Hs).
Qed.

(** A block in a text with such an insertion lies before or behind the
    insertion. *)
Lemma block_beside_insertion T X Y a' ws' b' :
  clear_of_blocks L1 L2 T -> spaces ws' ->
  X ++ T ++ Y = a' ++ block L1 L2 ws' ++ b' ->
  (exists z, X = a' ++ block L1 L2 ws' ++ z)
  \/ (exists z, a' = X ++ T ++ z /\ Y = z ++ block L1 L2 ws' ++ b').
Proof.
  intros (Hst & Hen & c & HcT & Hc1 & Hc2 & Hcs) Hws' H.
  apply occurrence_cases in H
    as [(z & -> & _)|[(z & -> & ->)|[(j & Hj & _ & H)|[(j & x & Hj & _ & _ & H & _)
       |(x & v & _ & _ & _ & H & _)]]]].
  - left. by exists z.
  - right. by exists z.
  - exfalso. unfold block in H. rewrite <- !app_assoc in H.
    by eapply (never_starts_in_spec L1 T j).
  - exfalso. unfold block in H. rewrite app_assoc in H.
    by eapply (never_ends_in_spec L2 T j).
  - exfalso. assert (c ∈ block L1 L2 ws') as Hin.
    { rewrite H, !elem_of_app. auto. }
    unfold block in Hin. rewrite !elem_of_app in Hin.
    destruct Hin as [?|[Hin|?]]; [done| |done].
    unfold spaces in Hws'. rewrite Forall_forall in Hws'.
    apply Hws' in Hin. congruence.
Qed.

(** A single block in front of the insertion point stays the only one. *)
Lemma only_block_at_before T X Y a ws z :
  clear_of_blocks L1 L2 T -> X = a ++ block L1 L2 ws ++ z ->
  only_block_at L1 L2 (X ++ Y) a -> only_block_at L1 L2 (X ++ T ++ Y) a.
Proof.
  intros HT HX Hu a' ws' b' Hws' H.
  apply (block_beside_insertion T X Y a' ws' b' HT Hws') in H
    as [(z' & HX')|(z' & -> & ->)].
  - apply (Hu a' ws' (z' ++ Y) Hws'). rewrite HX'. by rewrite <- !app_assoc.
  - exfalso. specialize (Hu (X ++ z') ws' b' Hws').
    rewrite <- app_assoc in Hu. specialize (Hu eq_refl).
    apply (f_equal length) in HX, Hu. rewrite !length_app in *.
    unfold block in HX. rewrite !length_app in HX. destruct L1; [done|simpl in *; lia].
Qed.

(** A single block behind the insertion point stays the only one. *)
Lemma only_block_at_behind T X Y z :
  clear_of_blocks L1 L2 T ->
  only_block_at L1 L2 (X ++ Y) (X ++ z) ->
  only_block_at L1 L2 (X ++ T ++ Y) (X ++ T ++ z).
Proof.
  intros HT Hu a' ws' b' Hws' H.
  apply (block_beside_insertion T X Y a' ws' b' HT Hws') in H
    as [(z' & HX')|(z' & -> & ->)].
  - exfalso. specialize (Hu a' ws' (z' ++ Y) Hws').
    rewrite HX' in Hu at 1. rewrite <- !app_assoc in Hu. specialize (Hu eq_refl).
    apply (f_equal length) in HX', Hu. rewrite !length_app in *.
    unfold block in HX'. rewrite !length_app in HX'.
    destruct L1; [done|simpl in *; lia].
  - specialize (Hu (X ++ z') ws' b' Hws').
    rewrite <- app_assoc in Hu. specialize (Hu eq_refl).
    apply app_inv_head in Hu. by subst.
Qed.

End Blocks.

(** ** Step 3 of [integrate_xcconfig.py] *)

Section BaseConfigurations.

Import IntegrateXcconfig.

Local Abbreviation DL1 := (py "A1000180000 /* Debug */ = {").
Local Abbreviation RL1 := (py "A1000190000 /* Release */ = {").
Local Abbreviation BL2 := (py "isa = XCBuildConfiguration;").
Local Abbreviation BL2' := (py "sa = XCBuildConfiguration;").

Lemma assign_debug_once a ws b :
  spaces ws ->
  only_block_at DL1 BL2 (a ++ Claims.debug_block ws ++ b) a ->
  assign_debug (a ++ Claims.debug_block ws ++ b)
  = a ++ Claims.debug_block ws ++ debug_base_reference ++ b.
Proof.
  exact (sub_block_once DL1 BL2' "i" debug_base_reference
           ltac:(done) eq_refl a ws b).
Qed.

Lemma assign_release_once a ws b :
  spaces ws ->
  only_block_at RL1 BL2 (a ++ Claims.release_block ws ++ b) a ->
  assign_release (a ++ Claims.release_block ws ++ b)
  = a ++ Claims.release_block ws ++ release_base_reference ++ b.
Proof.
  exact (sub_block_once RL1 BL2' "i" release_base_reference
           ltac:(done) eq_refl a ws b).
Qed.

(** No Release block can overlap the text put behind the Debug block. *)
Lemma debug_reference_clear :
  clear_of_blocks RL1 BL2 debug_base_reference.
Proof.
  split_and!; [by vm_compute..|].
  exists "b"%char. split_and!; [|by apply lacks_spec..|done].
  unfold debug_base_reference. rewrite !elem_of_app. right; left.
  apply list_elem_of_here.
Qed.

Lemma final_disk_main file :
  IO.final_disk (IO.run main file) = patch (Py.universal_newlines file).
Proof. by rewrite run_main. Qed.

(** Step 3 on a content [d] that has one Debug block
    [A1000180000 /* Debug */ = {\s*isa = XCBuildConfiguration;] and one
    Release block, in either order: the result is [d] with one
    [baseConfigurationReference] line behind each of the two. *)
Lemma base_references_once content a ws1 mid ws2 c :
  let d := add_config_group (add_file_refs content) in
  spaces ws1 -> spaces ws2 ->
  (d = a ++ Claims.debug_block ws1 ++ mid ++ Claims.release_block ws2 ++ c ->
   only_block_at DL1 BL2 d a ->
   only_block_at RL1 BL2 d (a ++ Claims.debug_block ws1 ++ mid) ->
   patch content
   = a ++ Claims.debug_block ws1 ++ debug_base_reference ++ mid
       ++ Claims.release_block ws2 ++ release_base_reference ++ c)
  /\ (d = a ++ Claims.release_block ws2 ++ mid ++ Claims.debug_block ws1 ++ c ->
      only_block_at RL1 BL2 d a ->
      only_block_at DL1 BL2 d (a ++ Claims.release_block ws2 ++ mid) ->
      patch content
      = a ++ Claims.release_block ws2 ++ release_base_reference ++ mid
          ++ Claims.debug_block ws1 ++ debug_base_reference ++ c).
Proof.
  intros d Hws1 Hws2.
  unfold patch, assign_base_configurations. fold d. split.
  - intros Hd Hdbg Hrel. rewrite Hd in *.
    rewrite assign_debug_once by done.
    pose proof (only_block_at_behind RL1 BL2' "i" ltac:(done)
                  debug_base_reference (a ++ Claims.debug_block ws1)
                  (mid ++ Claims.release_block ws2 ++ c) mid
                  debug_reference_clear) as Hrel'.
    rewrite <- !app_assoc in Hrel'. specialize (Hrel' Hrel).
    pose proof (assign_release_once
                  (a ++ Claims.debug_block ws1 ++ debug_base_reference ++ mid)
                  ws2 c Hws2) as Hr.
    rewrite <- !app_assoc in Hr. by apply Hr.
  - intros Hd Hrel Hdbg. rewrite Hd in *.
    pose proof (assign_debug_once (a ++ Claims.release_block ws2 ++ mid) ws1 c Hws1)
      as Hdb.
    rewrite <- !app_assoc in Hdb. rewrite Hdb by done.
    pose proof (only_block_at_before RL1 BL2' "i" ltac:(done)
                  debug_base_reference
                  (a ++ Claims.release_block ws2 ++ mid ++ Claims.debug_block ws1)
                  c a ws2 (mid ++ Claims.debug_block ws1)
                  debug_reference_clear eq_refl) as Hrel'.
    rewrite <- !app_assoc in Hrel'. specialize (Hrel' Hrel).
    pose proof (assign_release_once a ws2
                  (mid ++ Claims.debug_block ws1 ++ debug_base_reference ++ c) Hws2)
      as Hr.
    by apply Hr.
Qed.

End BaseConfigurations.

(** ** The identifier generator *)

Section Tokens.

Lemma hexdigit_upper d :
  (d < 16)%N -> Doc.is_upper_hex (Uuid.upper_char (Uuid.hexdigit d)) = true.
Proof.
  intros Hd.
  assert (forallb (fun k => Doc.is_upper_hex
                              (Uuid.upper_char (Uuid.hexdigit (N.of_nat k))))
                  (seq 0 16) = true) as Hall by (vm_compute; reflexivity).
  rewrite forallb_forall in Hall.
  specialize (Hall (N.to_nat d)). rewrite N2Nat.id in Hall.
  apply Hall, in_seq. lia.
Qed.

(** The token is 24 characters long and made of the digits [0-9A-F]. *)
Lemma token_format random :
  length (Uuid.token random) = 24
  /\ Forall (fun c => Doc.is_upper_hex c = true) (Uuid.token random).
Proof.
  unfold Uuid.token, Uuid.upper, Uuid.hex. split.
  - rewrite length_map, length_take, length_map, length_rev, length_seq. lia.
  - rewrite Forall_map. apply Forall_take, Forall_map, Forall_forall.
    intros k _. simpl. apply hexdigit_upper.
    change 15%N with (N.ones 4). rewrite N.land_ones.
    apply N.mod_lt. done.
Qed.

(** A character that is no such digit does not occur in a token. *)
Lemma token_lacks random c :
  Doc.is_upper_hex c = false -> c ∉ Uuid.token random.
Proof.
  intros Hc Hin. destruct (token_format random) as [_ Hall].
  rewrite Forall_forall in Hall. apply Hall in Hin. congruence.
Qed.

End Tokens.

(** ** What [str.replace] does around an inserted text *)

Section ReplaceAround.

Implicit Types (s t M E g ins X Y p q : str).

(** As long as the first character of the inserted text is not met, the
    result of [s.replace(M, M + E)] reads like [s]. *)
Lemma replace_after_agrees M e0 E s k :
  M <> [] ->
  e0 ∉ take k (Py.replace s M (M ++ e0 :: E)) ->
  take k (Py.replace s M (M ++ e0 :: E)) = take k s.
Proof.
  intros Hne. revert k.
  apply (replace_ind M (M ++ e0 :: E)
           (fun s t => forall k, e0 ∉ take k t -> take k t = take k s)); [done|..].
  - done.
  - intros r out IH k Hk.
    destruct (decide (k <= length M)) as [Hle|Hgt].
    + by rewrite <- !app_assoc, !take_app_le.
    + exfalso. apply Hk. rewrite <- app_assoc, take_app_ge by lia.
      apply elem_of_app. right.
      destruct (k - length M) as [|k'] eqn:E'; [lia|]. simpl. apply list_elem_of_here.
  - intros c r out _ IH [|k] Hk; [done|]. simpl in *. f_equal. apply IH.
    intros Hin. apply Hk. by apply list_elem_of_further.
Qed.

(** After [s.replace(M, M + E)] every occurrence of [M] is followed by
    [E], provided [M] lacks the first character of [E] and cannot start
    inside [E]. *)
Lemma replace_after_followed M e0 E s p q :
  M <> [] -> e0 ∉ M -> cannot_start_in M (e0 :: E) ->
  Py.replace s M (M ++ e0 :: E) = p ++ M ++ q ->
  exists q', q = (e0 :: E) ++ q'.
Proof.
  intros Hne He0 Hst. revert p q.
  enough (Py.replace s M (M ++ e0 :: E) = Py.replace s M (M ++ e0 :: E)
          /\ forall p q, Py.replace s M (M ++ e0 :: E) = p ++ M ++ q ->
                         exists q', q = (e0 :: E) ++ q') as [_ H] by done.
  apply (replace_ind M (M ++ e0 :: E)
           (fun s t => t = Py.replace s M (M ++ e0 :: E)
                       /\ forall p q, t = p ++ M ++ q ->
                                      exists q', q = (e0 :: E) ++ q')); [done|..].
  - split; [by rewrite replace_nil|].
    intros p q H. symmetry in H. apply app_eq_nil in H as [_ H].
    apply app_eq_nil in H as [H _]. done.
  - intros r out [Hout IH]. split; [by rewrite replace_hit, Hout|].
    intros p q H. rewrite <- app_assoc in H.
    apply (occurrence_cases M (e0 :: E) out p M q) in H
      as [(z & H & ->)|[(z & -> & ->)|[(j & Hj & _ & H)|[(j & x & Hj & _ & _ & H & _)
         |(x & v & _ & _ & _ & H & _)]]]].
    + (* the occurrence that was replaced *)
      apply (f_equal length) in H. rewrite !length_app in H.
      destruct z; [|simpl in H; lia]. by exists out.
    + (* an occurrence further on *)
      by eapply IH.
    + by destruct (Hst j q out Hj).
    + exfalso. apply He0. rewrite H. apply elem_of_app. right.
      destruct j as [|j]; [lia|]. simpl. apply list_elem_of_here.
    + exfalso. apply He0. rewrite H, !elem_of_app. right; left.
      apply list_elem_of_here.
  - intros c r out Hmiss [Hout IH].
    split; [by rewrite replace_miss, Hout|].
    intros [|c' p] q H.
    + exfalso. simpl in H.
      pose proof (replace_after_agrees M e0 E (c :: r) (length M) Hne) as Hag.
      rewrite replace_miss, <- Hout, H, take_app_length in Hag by done.
      specialize (Hag He0).
      apply (proj1 (startswith_false _ _) Hmiss (drop (length M) (c :: r))).
      rewrite Hag at 1. by rewrite take_drop.
    + simpl in H. injection H as -> H. by eapply IH.
Qed.

(** A text at which the scan of [s.replace(g, g + ins)] arrives is copied
    whole when no occurrence of [g] ends strictly inside it. *)
Lemma replace_keeps_prefix g ins E1 E2 Y :
  g <> [] ->
  (forall j p, 0 < j < length (E1 ++ E2) -> take j (E1 ++ E2) <> p ++ g) ->
  exists out, Py.replace (E2 ++ Y) g (g ++ ins) = E2 ++ out.
Proof.
  intros Hne. revert E1. induction E2 as [|c E2 IH]; intros E1 Hno.
  - by eexists.
  - destruct (Py.startswith g ((c :: E2) ++ Y)) eqn:Hg.
    + apply startswith_true in Hg as [r Hr]. rewrite Hr, replace_hit by done.
      symmetry in Hr. apply app_eq_inv in Hr as [(k & Hgk & _)|(k & HE & _)].
      * (* [g] covers what is left of the text *)
        exists (k ++ ins ++ Py.replace r g (g ++ ins)).
        by rewrite Hgk, <- !app_assoc.
      * (* [g] ends inside the text, or at its end *)
        destruct k as [|c' k].
        -- rewrite app_nil_r in HE. rewrite HE.
           exists (ins ++ Py.replace r g (g ++ ins)). by rewrite <- app_assoc.
        -- exfalso. apply (Hno (length (E1 ++ g)) E1).
           ++ rewrite HE, !length_app. destruct g; [done|]. simpl. lia.
           ++ by rewrite HE, app_assoc, take_app_length.
    + change ((c :: E2) ++ Y) with (c :: E2 ++ Y). rewrite replace_miss by done.
      destruct (IH (E1 ++ [c])) as [out Hout].
      * intros j p Hj. rewrite <- app_assoc. by apply Hno; rewrite <- app_assoc in Hj.
      * exists out. simpl. by rewrite Hout.
Qed.

(** A text in the middle of [s] is kept by [s.replace(g, g + ins)] when no
    occurrence of [g] ends strictly inside it. *)
Lemma replace_keeps g ins X E Y :
  g <> [] ->
  (forall j p, 0 < j < length E -> X ++ take j E <> p ++ g) ->
  Doc.infix E (Py.replace (X ++ E ++ Y) g (g ++ ins)).
Proof.
  intros Hne. remember (length X) as n eqn:Hn. revert X Hn.
  induction n as [n IH] using lt_wf_ind. intros X Hn Hno.
  destruct X as [|c X].
  - simpl. destruct (replace_keeps_prefix g ins [] E Y Hne) as [out ->].
    + intros j p Hj. apply (Hno j p Hj).
    + by exists [], out.
  - destruct (Py.startswith g ((c :: X) ++ E ++ Y)) eqn:Hg.
    + apply startswith_true in Hg as [r Hr]. rewrite Hr, replace_hit by done.
      symmetry in Hr. apply app_eq_inv in Hr as [(k & Hgk & Hr)|(k & HX & ->)].
      * (* [g] reaches the end of [X] *)
        apply app_eq_inv in Hr as [(k' & HE & ->)|(k' & -> & _)].
        -- destruct k as [|c' k].
           ++ (* and ends there *)
              simpl in HE. subst k'. apply infix_app_r.
              apply (IH 0 ltac:(subst n; simpl; lia) [] eq_refl).
              intros j p Hj H. apply (Hno j ((c :: X) ++ p) Hj).
              simpl in H. by rewrite H, <- app_assoc.
           ++ destruct k' as [|c'' k'].
              ** (* and ends where the text ends *)
                 rewrite app_nil_r in HE. subst E. do 2 apply infix_app_l. rewrite Hgk.
                 exists (c :: X), []. by rewrite app_nil_r.
              ** (* and ends strictly inside the text *)
                 exfalso. apply (Hno (length (c' :: k)) []).
                 --- rewrite HE, length_app. simpl. lia.
                 --- by rewrite HE, take_app_length.
        -- (* and covers the text *)
           do 2 apply infix_app_l. rewrite Hgk. by exists (c :: X), k'.
      * (* [g] ends inside [X] *)
        apply infix_app_r.
        apply (IH (length k)); [|done|].
        -- subst n. rewrite HX, length_app. destruct g; [done|simpl; lia].
        -- intros j p Hj H. apply (Hno j (g ++ p) Hj).
           by rewrite HX, <- !app_assoc, H.
    + change ((c :: X) ++ E ++ Y) with (c :: X ++ E ++ Y).
      rewrite replace_miss by done. apply infix_cons.
      apply (IH (length X)); [subst n; simpl; lia|done|].
      intros j p Hj H. apply (Hno j (c :: p) Hj). simpl. by rewrite H.
Qed.

(** An entry [E] that [s.replace(M, M + E)] has put behind a marker [M]
    is still there after [.replace(g, g + ins)], when [g] is followed
    somewhere by the end of the text or by a character [cl] that [E]
    lacks, and contains a character [op] that [M] and [E] lack. *)
Lemma entry_survives M e0 E g ins op cl s pre t :
  M <> [] -> e0 ∉ M -> cannot_start_in M (e0 :: E) ->
  op ∉ M -> op ∉ e0 :: E -> cl ∉ e0 :: E -> op ∈ g ->
  Doc.infix M s ->
  Py.replace s M (M ++ e0 :: E) = pre ++ g ++ t ->
  (t = [] \/ exists t', t = cl :: t') ->
  Doc.infix (e0 :: E)
    (Py.replace (Py.replace s M (M ++ e0 :: E)) g (g ++ ins)).
Proof.
  intros HM He0 Hst HopM HopE HclE Hopg Hin Hd3 Ht.
  assert (g <> []) as Hg by (intros ->; by apply not_elem_of_nil in Hopg).
  pose proof (replace_infix_new M (M ++ e0 :: E) s HM Hin) as (X0 & Y & HXY).
  rewrite HXY at 1. rewrite <- app_assoc.
  replace (X0 ++ M ++ (e0 :: E) ++ Y) with ((X0 ++ M) ++ (e0 :: E) ++ Y)
    by by rewrite <- !app_assoc.
  apply replace_keeps; [done|].
  intros j p Hj H. rewrite <- app_assoc in H.
  apply app_eq_inv in H as [(k & _ & Hgk)|(k & _ & Hk)].
  - (* [g] contains the marker and a proper prefix of the entry *)
    rewrite Hgk, <- !app_assoc in Hd3.
    rewrite app_assoc in Hd3.
    apply replace_after_followed in Hd3 as [q' Hq']; [|done..].
    rewrite <- (take_drop j (e0 :: E)) in Hq' at 2.
    rewrite <- app_assoc in Hq'. apply app_inv_head in Hq'.
    destruct (drop j (e0 :: E)) as [|y dE] eqn:HdE.
    { apply (f_equal length) in HdE. rewrite length_drop in HdE. simpl in *. lia. }
    assert (y ∈ e0 :: E) as Hy.
    { assert (y ∈ drop j (e0 :: E)) as Hy by (rewrite HdE; apply list_elem_of_here).
      apply list_elem_of_lookup in Hy as [i Hi]. rewrite lookup_drop in Hi.
      by eapply list_elem_of_lookup_2. }
    destruct Ht as [->|(t' & ->)]; [done|].
    simpl in Hq'. injection Hq' as -> _. done.
  - (* [g] lies in the marker and the prefix of the entry *)
    assert (op ∈ M ++ take j (e0 :: E)) as Hop
      by (rewrite Hk, elem_of_app; by right).
    apply elem_of_app in Hop as [?|Hop]; [done|].
    apply HopE. apply elem_of_take in Hop as (i & Hi & _).
    by eapply list_elem_of_lookup_2.
Qed.

End ReplaceAround.

(** ** Patterns that end with a greedy repetition *)

Section GreedyEnd.

Implicit Types (s w t : str) (cs : Re.cset).

(** A greedy repetition succeeds when what follows always does. *)
Lemma greedy_total cs k off s c :
  (forall off s c, k off s c <> None) -> Re.greedy_rep cs k off s c <> None.
Proof.
  intros Hk. revert off. induction s as [|x s IH]; intros off; simpl; [done|].
  destruct (Re.in_cset cs x); [|done].
  specialize (IH (S off)). by destruct (Re.greedy_rep cs k (S off) s c).
Qed.

(** In front of the closing parenthesis a greedy repetition takes all it
    can. *)
Lemma greedy_close_max cs :
  yields (fun w t => Forall (fun y => Re.in_cset cs y = true) w /\ stops cs t)
         (fun _ c e c' => c' = (fst c, Some e))
         (Re.greedy_rep cs (Re.exec [Re.GClose])).
Proof.
  assert (forall off s c, Re.exec [Re.GClose] off s c = Some (off, (fst c, Some off)))
    as Hk by done.
  generalize dependent (Re.exec [Re.GClose]). intros k Hk.
  intros off s. revert off. induction s as [|x s IH]; intros off c e c' H.
  - simpl in H. rewrite Hk in H. injection H as <- <-. exists [], []. simpl.
    split_and!; [done|lia|constructor|by left|done].
  - simpl in H. destruct (Re.in_cset cs x) eqn:Hx.
    + destruct (Re.greedy_rep cs k (S off) s c) as [[e1 c1]|] eqn:Hg.
      * injection H as <- <-.
        apply IH in Hg as (w & t & -> & -> & [Hw Ht] & ->).
        exists (x :: w), t. simpl. split_and!; [done|lia|by constructor|done|done].
      * exfalso. revert Hg. apply greedy_total. intros ???. by rewrite Hk.
    + rewrite Hk in H. injection H as <- <-. exists [], (x :: s). simpl.
      split_and!; [done|lia|constructor| |done].
      right. by exists x, s.
Qed.

(** Plain nodes in front of a pattern: what they consume is in their
    language, and what is known of the rest of the pattern stays. *)
Lemma exec_prefix body rest Q F :
  Forall plain body ->
  (forall n off c e c', F (off + n) c e c' -> F off c e c') ->
  yields Q F (Re.exec rest) ->
  yields (fun w t => exists w1 w2, w = w1 ++ w2 /\ lang body w1 /\ Q w2 t) F
         (Re.exec (body ++ rest)).
Proof.
  intros Hb HF Hrest.
  assert (forall off c e c', F (S off) c e c' -> F off c e c') as HF1.
  { intros off c e c' H. apply (HF 1). by rewrite Nat.add_1_r. }
  induction Hb as [|nd body Hnd _ IH].
  - intros off s c e c' H. apply Hrest in H as (w & t & -> & -> & HQ & HFc).
    exists w, t. split_and!; [done..| |done]. by exists [], w.
  - destruct nd as [l|cs|cs|cs| |]; try done; intros off s c e c' H; simpl in H.
    + destruct (Py.startswith l s) eqn:E; [|done].
      apply startswith_true in E as [r ->]. rewrite drop_app_length in H.
      apply IH in H as (w & t & -> & -> & (w1 & w2 & -> & Hl & HQ) & HFc).
      exists (l ++ w1 ++ w2), t. rewrite !length_app in *.
      split_and!; [by rewrite <- !app_assoc|lia| |by eapply HF].
      exists (l ++ w1), w2. rewrite <- app_assoc. split_and!; [done| |done].
      by exists w1.
    + destruct s as [|x s]; [done|]. destruct (Re.in_cset cs x) eqn:Hx; [|done].
      apply (greedy_yields _ _ cs _ IH HF1) in H
        as (w & t & -> & -> & (u & w' & -> & Hu & (w1 & w2 & -> & Hl & HQ)) & HFc).
      exists (x :: u ++ w1 ++ w2), t. split_and!; [done|simpl; lia| |by apply HF1].
      exists (x :: u ++ w1), w2. simpl. rewrite <- app_assoc.
      split_and!; [done| |done]. by exists x, u, w1.
    + apply (greedy_yields _ _ cs _ IH HF1) in H
        as (w & t & -> & -> & (u & w' & -> & Hu & (w1 & w2 & -> & Hl & HQ)) & HFc).
      exists (u ++ w1 ++ w2), t. split_and!; [done..| |done].
      exists (u ++ w1), w2. rewrite <- app_assoc. split_and!; [done| |done].
      by exists u, w1.
    + apply (lazy_yields _ _ cs _ IH HF1) in H
        as (w & t & -> & -> & (u & w' & -> & Hu & (w1 & w2 & -> & Hl & HQ)) & HFc).
      exists (u ++ w1 ++ w2), t. split_and!; [done..| |done].
      exists (u ++ w1), w2. rewrite <- app_assoc. split_and!; [done| |done].
      by exists u, w1.
Qed.

(** A pattern [[^c]+)] at the end. *)
Lemma plus_close_max c2 :
  yields (fun w t => t = [] \/ exists t', t = c2 :: t')
         (fun _ c e c' => c' = (fst c, Some e))
         (Re.exec [Re.Plus (Re.CNot c2); Re.GClose]).
Proof.
  intros off s c e c' H. cbn [Re.exec] in H.
  destruct s as [|x s]; [done|]. destruct (Re.in_cset (Re.CNot c2) x) eqn:Hx; [|done].
  apply greedy_close_max in H as (w & t & -> & -> & [Hw Ht] & ->).
  exists (x :: w), t. split_and!; [done|simpl; lia| |done].
  destruct Ht as [->|(y & t' & -> & Hy)]; [by left|right].
  exists t'. simpl in Hy. apply negb_false_iff in Hy.
  by destruct (Ascii.eqb_spec y c2) as [->|].
Qed.

(** A one-group pattern [(L1[^c1]+L2[^c2]+)]: behind a match the text ends
    or goes on with [c2], and the match contains [L2]. *)
Lemma match_two_runs L1 c1 L2 c2 s n g :
  Re.match_here
    [Re.GOpen; Re.Lit L1; Re.Plus (Re.CNot c1); Re.Lit L2;
     Re.Plus (Re.CNot c2); Re.GClose] s = Some (n, g) ->
  exists w t, s = w ++ t /\ n = length w /\ g = Some w
    /\ (t = [] \/ exists t', t = c2 :: t')
    /\ (exists w1 w2, w = w1 ++ L2 ++ w2).
Proof.
  intros H. unfold Re.match_here in H.
  destruct (Re.exec _ 0 s (None, None)) as [[e c']|] eqn:He; [|done].
  change (Re.exec ([Re.Lit L1; Re.Plus (Re.CNot c1); Re.Lit L2]
                   ++ [Re.Plus (Re.CNot c2); Re.GClose]) 0 s (Some 0, None)
          = Some (e, c')) in He.
  pose proof (exec_prefix [Re.Lit L1; Re.Plus (Re.CNot c1); Re.Lit L2]
                [Re.Plus (Re.CNot c2); Re.GClose] _
                (fun _ c e c' => c' = (fst c, Some e))
                ltac:(plain_body) ltac:(by intros) (plus_close_max c2)) as Hy.
  apply Hy in He as (w & t & -> & -> & (w1 & w2 & -> & Hl & Ht) & ->).
  cbn [fst] in H. injection H as <- <-.
  exists (w1 ++ w2), t. split_and!; [done..| | |].
  - unfold Py.slice. by rewrite drop_0, Nat.sub_0_r, take_app_length.
  - done.
  - destruct Hl as (wa & -> & x & u & wb & -> & _ & _ & wc & -> & ->).
    exists (L1 ++ x :: u), w2. rewrite app_nil_r, <- !app_assoc. simpl.
    by rewrite <- !app_assoc.
Qed.

End GreedyEnd.

(** ** Referential integrity of [add_export_service.py] *)

Section References.

Import AddExportService.

Local Abbreviation file_ref_marker := (py "/* Begin PBXFileReference section */").


(** What the directive finds is the section comment itself. *)
Lemma file_ref_match_group s m :
  Re.search file_ref_section_pattern s = Some m ->
  Re.group1 m = file_ref_marker /\ Doc.infix file_ref_marker s.
Proof.
  intros H.
  destruct (search_group file_ref_marker [] s m ltac:(done) ltac:(plain_body) H)
    as [_ Hin].
  apply (search_whole [Re.Lit file_ref_marker]) in H
    as (_ & _ & _ & _ & _ & (w' & Hg & ->)); [|plain_body].
  rewrite app_nil_r in Hg. by rewrite <- Hg.
Qed.

(** The entry is the identifier between two fixed texts. *)
Lemma file_ref_entry_split fr :
  file_ref_entry fr = [nl; tab; tab] ++ fr ++ drop 3 (file_ref_entry []).
Proof. vm_compute. reflexivity. Qed.

(** The characters of the new entry. *)
Lemma file_ref_entry_shape random :
  let E := file_ref_entry (Uuid.token random) in
  (exists E', E = nl :: E')
  /\ cannot_start_in file_ref_marker E
  /\ ("("%char ∉ E) /\ (")"%char ∉ E).
Proof.
  intros E. unfold E. rewrite file_ref_entry_split.
  assert ("/"%char ∉ Uuid.token random) as H1 by by apply token_lacks.
  assert ("("%char ∉ Uuid.token random) as H2 by by apply token_lacks.
  assert (")"%char ∉ Uuid.token random) as H3 by by apply token_lacks.
  split_and!.
  - by eexists.
  - apply cannot_start_in_app; [by apply never_starts_in_cannot|].
    apply cannot_start_in_app; [by apply (cannot_start_in_lacks "/")|].
    by apply never_starts_in_cannot.
  - rewrite !elem_of_app. intros [H|[H|H]]; [|done|]; revert H; by apply lacks_spec.
  - rewrite !elem_of_app. intros [H|[H|H]]; [|done|]; revert H; by apply lacks_spec.
Qed.

(** The entry put behind the PBXFileReference section comment is still
    in the content when the Sources directive has run. *)
Lemma file_ref_entry_kept random bf s :
  Re.search file_ref_section_pattern s <> None ->
  Doc.infix (file_ref_entry (Uuid.token random))
            (add_to_sources bf (add_file_ref (Uuid.token random) s)).
Proof.
  intros Hs. set (fr := Uuid.token random).
  destruct (file_ref_entry_shape random) as ([E' HE] & Hst & Hop & Hcl).
  fold fr in HE, Hst, Hop, Hcl.
  unfold add_file_ref.
  destruct (Re.search file_ref_section_pattern s) as [m|] eqn:Hm; [|done].
  destruct (file_ref_match_group s m Hm) as [-> Hin].
  assert (nl ∉ file_ref_marker) as Hnl by by apply lacks_spec.
  assert ("("%char ∉ file_ref_marker) as HopM by by apply lacks_spec.
  unfold add_to_sources.
  destruct (Re.search sources_phase_pattern _) as [m4|] eqn:Hm4.
  - apply search_sound in Hm4 as (pre & post & Hd3 & _ & Hm4).
    apply match_two_runs in Hm4 as (w & t & -> & _ & Hg & Ht & (w1 & w2 & Hw)).
    unfold Re.group1. rewrite Hg. cbn [default].
    rewrite HE in *.
    apply (entry_survives file_ref_marker nl E' w (sources_child bf) "(" ")" s pre t);
      try done.
    rewrite Hw, !elem_of_app. right; left.
    by apply (list_elem_of_lookup_2 _ 8).
  - rewrite HE.
    apply (replace_infix_new file_ref_marker (file_ref_marker ++ nl :: E'))
      in Hin; [|done].
    destruct Hin as (a & b & ->). exists (a ++ file_ref_marker), b.
    by rewrite <- !app_assoc.
Qed.



End References.

(** ** What [str.replace] does in front of a marker *)

Section ReplaceBefore.

Implicit Types (s t M N p q : str).

(** As long as the first character of the inserted text is not met, the
    result of [s.replace(M, N + M)] reads like [s]. *)
Lemma replace_before_agrees M n0 N s k :
  M <> [] ->
  n0 ∉ take k (Py.replace s M ((n0 :: N) ++ M)) ->
  take k (Py.replace s M ((n0 :: N) ++ M)) = take k s.
Proof.
  intros Hne. revert k.
  apply (replace_ind M ((n0 :: N) ++ M)
           (fun s t => forall k, n0 ∉ take k t -> take k t = take k s)); [done|..].
  - done.
  - intros r out IH [|k] Hk; [done|].
    exfalso. apply Hk. simpl. apply list_elem_of_here.
  - intros c r out _ IH [|k] Hk; [done|]. simpl in *. f_equal. apply IH.
    intros Hin. apply Hk. by apply list_elem_of_further.
Qed.

(** After [s.replace(M, N + M)] every occurrence of [M] has [N] in front
    of it, or [N] and all of [M] but its last character. *)
Lemma replace_before_preceded M n0 N s p q :
  M <> [] -> n0 ∉ M -> cannot_start_in M (n0 :: N) ->
  overlaps_at_end_only M = true ->
  Py.replace s M ((n0 :: N) ++ M) = p ++ M ++ q ->
  (exists p', p = p' ++ n0 :: N)
  \/ (exists p', p = p' ++ (n0 :: N) ++ removelast M).
Proof.
  intros Hne Hn0 Hst Hov. revert p q.
  enough (Py.replace s M ((n0 :: N) ++ M) = Py.replace s M ((n0 :: N) ++ M)
          /\ forall p q, Py.replace s M ((n0 :: N) ++ M) = p ++ M ++ q ->
               (exists p', p = p' ++ n0 :: N)
               \/ (exists p', p = p' ++ (n0 :: N) ++ removelast M)) as [_ H] by done.
  apply (replace_ind M ((n0 :: N) ++ M)
           (fun s t => t = Py.replace s M ((n0 :: N) ++ M)
                       /\ forall p q, t = p ++ M ++ q ->
                            (exists p', p = p' ++ n0 :: N)
                            \/ (exists p', p = p' ++ (n0 :: N) ++ removelast M)));
    [done|..].
  - split; [by rewrite replace_nil|].
    intros p q H. symmetry in H. apply app_eq_nil in H as [_ H].
    apply app_eq_nil in H as [H _]. done.
  - intros r out [Hout IH]. split; [by rewrite replace_hit, Hout|].
    intros p q H. rewrite <- app_assoc in H.
    apply (occurrence_cases [] (n0 :: N) (M ++ out) p M q) in H
      as [(z & H & _)|[(z & -> & H)|[(j & Hj & _ & H)|[(j & x & _ & H & Hx & _)
         |(x & v & H & Hx & _)]]]].
    + symmetry in H. apply app_eq_nil in H as [_ H].
      apply app_eq_nil in H as [H _]. done.
    + simpl. apply app_eq_inv in H as [(k & HM & H)|(k & -> & ->)].
      * (* the occurrence starts in the replaced one *)
        destruct z as [|z0 z].
        -- left. exists []. by rewrite app_nil_r.
        -- destruct k as [|k0 k].
           ++ (* it starts where the replaced one ends: excluded *)
              rewrite app_nil_r in HM. simpl in H. symmetry in H.
              destruct (IH [] q H) as [(p' & Hp')|(p' & Hp')];
                symmetry in Hp'; apply app_eq_nil in Hp' as [_ Hp']; done.
           ++ right. exists []. simpl. f_equal. f_equal.
              assert (agree M (k0 :: k) = true) as Hag
                by (symmetry in H; by eapply agree_prefixes).
              assert (length (z0 :: z) = length M - 1) as Hlen.
              { unfold overlaps_at_end_only in Hov. rewrite forallb_forall in Hov.
                destruct (decide (length (z0 :: z) = length M - 1)) as [|Hne'];
                  [done|exfalso].
                specialize (Hov (length (z0 :: z))). rewrite in_seq in Hov.
                assert (drop (length (z0 :: z)) M = k0 :: k) as Hd
                  by (rewrite HM; apply drop_app_length).
                rewrite Hd, Hag in Hov.
                apply (f_equal length) in HM. rewrite length_app in HM.
                simpl in *. assert (false = true) by (apply Hov; lia). done. }
              rewrite HM, removelast_app by done.
              destruct k as [|k1 k]; [by rewrite app_nil_r|].
              apply (f_equal length) in HM. rewrite length_app in HM.
              simpl in *. lia.
      * (* the occurrence lies behind the replaced one *)
        destruct (IH k q eq_refl) as [(p' & ->)|(p' & ->)].
        -- left. exists ((n0 :: N) ++ M ++ p'). by rewrite <- !app_assoc.
        -- right. exists ((n0 :: N) ++ M ++ p'). by rewrite <- !app_assoc.
    + by destruct (Hst j q (M ++ out) Hj).
    + symmetry in H. by apply app_eq_nil in H as [_ ->].
    + symmetry in H. by apply app_eq_nil in H as [_ ->].
  - intros c r out Hmiss [Hout IH].
    split; [by rewrite replace_miss, Hout|].
    intros [|c' p] q H.
    + exfalso. simpl in H.
      pose proof (replace_before_agrees M n0 N (c :: r) (length M) Hne) as Hag.
      rewrite replace_miss, <- Hout, H, take_app_length in Hag by done.
      specialize (Hag Hn0).
      apply (proj1 (startswith_false _ _) Hmiss (drop (length M) (c :: r))).
      rewrite Hag at 1. by rewrite take_drop.
    + simpl in H. injection H as -> H.
      destruct (IH p q H) as [(p' & ->)|(p' & ->)].
      * left. by exists (c' :: p').
      * right. by exists (c' :: p').
Qed.

End ReplaceBefore.

(** ** Running a script twice *)

Section Twice.

Import IntegrateXcconfig.

Local Abbreviation begin_marker := (py "/* Begin PBXFileReference section */").

(** After Step 1 has added the two lines, the section that [re.search]
    finds contains them. *)
Lemma file_refs_found_after s m' :
  Re.search file_ref_section_pattern
    (Py.replace s end_file_ref_marker (new_refs ++ end_file_ref_marker)) = Some m' ->
  Doc.infix new_refs (Re.group1 m').
Proof.
  intros H.
  apply search_sound in H as (pre & post & Hd & _ & H).
  apply match_here_between in H as (b & t & -> & Hg & _).
  unfold Re.group1. rewrite Hg. change (Doc.infix new_refs b).
  assert (new_refs = tab :: tail new_refs) as Hnr by reflexivity.
  rewrite Hnr in Hd.
  rewrite !app_assoc in Hd. rewrite <- (app_assoc _ end_file_ref_marker t) in Hd.
  assert (tab ∉ end_file_ref_marker) as Htab by by apply lacks_spec.
  assert (cannot_start_in end_file_ref_marker (tab :: tail new_refs)) as Hst
    by (apply never_starts_in_cannot; vm_compute; reflexivity).
  assert (overlaps_at_end_only end_file_ref_marker = true) as Hov
    by (vm_compute; reflexivity).
  apply (replace_before_preceded end_file_ref_marker tab (tail new_refs) s
           _ _ ltac:(done) Htab Hst Hov) in Hd as [(p' & Hp)|(p' & Hp)].
  - rewrite <- Hnr in Hp.
    apply app_eq_inv in Hp as [(k & Hk & Hb)|(k & _ & ->)].
    + destruct k as [|k0 k]; [simpl in Hb; subst b; apply infix_refl|exfalso].
      assert (cannot_end_in begin_marker new_refs) as Hend
        by (apply never_ends_in_cannot; vm_compute; reflexivity).
      apply (Hend (length (k0 :: k)) pre p').
      * rewrite Hb, length_app. simpl. lia.
      * rewrite Hb, take_app_length. exact Hk.
    + by exists k, [].
  - apply app_eq_inv in Hp as [(k & Hk & Hb)|(k & _ & ->)].
    + rewrite <- Hnr in Hb. destruct k as [|k0 k].
      * simpl in Hb. subst b. exists [], (removelast end_file_ref_marker). done.
      * exfalso.
        assert (cannot_end_in begin_marker
                  (new_refs ++ removelast end_file_ref_marker)) as Hend
          by (apply never_ends_in_cannot; vm_compute; reflexivity).
        apply (Hend (length (k0 :: k)) pre p').
        -- rewrite Hb, length_app. simpl. lia.
        -- rewrite Hb, take_app_length. exact Hk.
    + rewrite <- Hnr. by exists k, (removelast end_file_ref_marker).
Qed.

(** Step 1 applied to its own result changes nothing. *)
Lemma add_file_refs_idempotent s :
  add_file_refs (add_file_refs s) = add_file_refs s.
Proof.
  destruct (Re.search file_ref_section_pattern s) as [m|] eqn:Hm.
  - destruct (negb (Py.contains (py "Debug.xcconfig") (Re.group1 m))) eqn:Hg.
    + assert (add_file_refs s
              = Py.replace s end_file_ref_marker (new_refs ++ end_file_ref_marker))
        as -> by (unfold add_file_refs; by rewrite Hm, Hg).
      unfold add_file_refs.
      destruct (Re.search file_ref_section_pattern (Py.replace _ _ _))
        as [m'|] eqn:Hm'; [|done].
      apply file_refs_found_after in Hm' as (a & b & Hab).
      assert (Py.contains (py "Debug.xcconfig") (Re.group1 m') = true) as ->; [|done].
      apply contains_true. rewrite Hab.
      apply infix_app_r, infix_app_l. apply contains_true. by vm_compute.
    + assert (add_file_refs s = s) as Hid
        by (unfold add_file_refs; by rewrite Hm, Hg).
      by rewrite !Hid.
  - assert (add_file_refs s = s) as Hid by (unfold add_file_refs; by rewrite Hm).
    by rewrite !Hid.
Qed.

Import AddExportService.

(** A complete run of [add_export_service.py] makes the document longer
    by the new child of the Services group at least. *)
Lemma patch_grows fr bf s m :
  Re.search services_pattern s = Some m ->
  length s + length (services_child fr) <= length (AddExportService.patch fr bf m s).
Proof.
  intros Hm. unfold AddExportService.patch.
  destruct (search_group (py "/* Services */ = {")
              [Re.Plus (Re.CNot "}"); Re.Lit (py "children = (");
               Re.Plus (Re.CNot ")")] s m ltac:(done) ltac:(plain_body) Hm)
    as [Hne Hin].
  pose proof (replace_length_grows (Re.group1 m) (services_child fr) s Hne Hin) as H1.
  fold (add_to_services fr m s) in H1.
  assert (forall d s t, t = s \/ splice d s t -> length s <= length t) as Hle.
  { intros d s0 t [->|H]; [done|]. by eapply sublist_length, splice_sublist. }
  pose proof (Hle _ _ _ (add_build_file_splice fr bf (add_to_services fr m s))) as H2.
  pose proof (Hle _ _ _ (add_file_ref_splice fr
                           (add_build_file fr bf (add_to_services fr m s)))) as H3.
  pose proof (Hle _ _ _ (add_to_sources_splice bf
                           (add_file_ref fr (add_build_file fr bf
                              (add_to_services fr m s))))) as H4.
  lia.
Qed.

End Twice.

(** ** Counting the occurrences of a text *)

Section Counting.

Implicit Types (K s t u v g T : str) (c : ascii).

Lemma lacks_app c (x y : str) : c ∉ x -> c ∉ y -> c ∉ x ++ y.
Proof. intros Hx Hy. rewrite elem_of_app. tauto. Qed.

Lemma lacks_false c (s : str) : lacks c s = false -> c ∈ s.
Proof.
  induction s as [|a s IH]; [done|]. simpl.
  destruct (Ascii.eqb a c) eqn:E; simpl.
  - intros _. apply Ascii.eqb_eq in E as ->. apply list_elem_of_here.
  - intros H. apply list_elem_of_further. by apply IH.
Qed.

Lemma infix_trans (x y z : str) : Doc.infix x y -> Doc.infix y z -> Doc.infix x z.
Proof.
  intros (a & b & ->) (a' & b' & ->). exists (a' ++ a), (b ++ b').
  by rewrite <- !app_assoc.
Qed.

Lemma count_nil K : K <> [] -> Doc.count K [] = 0.
Proof. by destruct K. Qed.

(** A text that lacks [c] starts [x ++ c :: w] only when it starts [x]. *)
Lemma startswith_app_lacks K c x w :
  c ∉ K -> Py.startswith K (x ++ c :: w) = Py.startswith K x.
Proof.
  revert x. induction K as [|k K IH]; intros x Hc; [done|].
  apply not_elem_of_cons in Hc as [Hne Hc].
  destruct x as [|a x]; simpl.
  - destruct (Ascii.eqb k c) eqn:E; [|done].
    apply Ascii.eqb_eq in E. congruence.
  - destruct (Ascii.eqb k a); [by apply IH|done].
Qed.

(** What starts a text starts every extension of it. *)
Lemma startswith_app_mono K x w :
  Py.startswith K x = true -> Py.startswith K (x ++ w) = true.
Proof.
  intros H. apply startswith_true in H as [r ->].
  rewrite <- app_assoc. apply startswith_app.
Qed.

(** No occurrence can cross a character that the text lacks. *)
Lemma count_split K c u v :
  K <> [] -> c ∉ K -> Doc.count K (u ++ c :: v) = Doc.count K u + Doc.count K v.
Proof.
  intros Hne Hc. induction u as [|a u IH].
  - cbn [app]. change (Doc.count K (c :: v))
      with ((if Py.startswith K (c :: v) then 1 else 0) + Doc.count K v).
    pose proof (startswith_app_lacks K c [] v Hc) as E. cbn [app] in E.
    rewrite E. destruct K; [done|]. done.
  - change (Doc.count K ((a :: u) ++ c :: v))
      with ((if Py.startswith K ((a :: u) ++ c :: v) then 1 else 0)
            + Doc.count K (u ++ c :: v)).
    rewrite startswith_app_lacks, IH by done.
    change (Doc.count K (a :: u))
      with ((if Py.startswith K (a :: u) then 1 else 0) + Doc.count K u).
    lia.
Qed.

(** Putting two texts side by side loses no occurrence. *)
Lemma count_app_ge K u v :
  K <> [] -> Doc.count K u + Doc.count K v <= Doc.count K (u ++ v).
Proof.
  intros Hne. induction u as [|a u IH].
  - destruct K; [done|]. simpl. lia.
  - change (Doc.count K ((a :: u) ++ v))
      with ((if Py.startswith K ((a :: u) ++ v) then 1 else 0)
            + Doc.count K (u ++ v)).
    change (Doc.count K (a :: u))
      with ((if Py.startswith K (a :: u) then 1 else 0) + Doc.count K u).
    destruct (Py.startswith K (a :: u)) eqn:E.
    + rewrite (startswith_app_mono _ _ v E). lia.
    + destruct (Py.startswith K ((a :: u) ++ v)); lia.
Qed.

(** The count is positive exactly when the text occurs. *)
Lemma count_pos K s : 0 < Doc.count K s <-> Doc.infix K s.
Proof.
  rewrite <- contains_true. induction s as [|a s IH]; simpl.
  - destruct (Py.startswith K []); simpl; [|split; [lia|done]]. split; [done|lia].
  - destruct (Py.startswith K (a :: s)); simpl; [split; [done|lia]|].
    by rewrite <- IH.
Qed.

Lemma count_absent K s : ~ Doc.infix K s -> Doc.count K s = 0.
Proof. rewrite <- count_pos. lia. Qed.

(** A text that lacks a character of [K] holds no occurrence of [K]. *)
Lemma count_lacks K c s : c ∈ K -> c ∉ s -> Doc.count K s = 0.
Proof.
  intros HK Hs. apply count_absent. intros H. apply Hs.
  by apply (infix_elem_of K).
Qed.

(** A text occurs once in itself. *)
Lemma count_self K : K <> [] -> Doc.count K K = 1.
Proof.
  intros Hne. destruct K as [|k K]; [done|].
  change (Doc.count (k :: K) (k :: K))
    with ((if Py.startswith (k :: K) (k :: K) then 1 else 0)
          + Doc.count (k :: K) K).
  pose proof (startswith_app (k :: K) []) as E. rewrite app_nil_r in E.
  rewrite E.
  rewrite count_absent; [done|].
  intros H. apply infix_length in H. simpl in H. lia.
Qed.

(** [s.replace(g, g + E)] with [E] fenced by characters that [K] lacks:
    the occurrences of [K] are those of [s] and, for each replaced
    occurrence of [g], those inside [E]. *)
Lemma count_replace_bound K g n E s :
  K <> [] -> g <> [] -> fenced K n E ->
  Doc.count K (Py.replace s g (g ++ E)) <= Doc.count K s + Doc.count g s * n.
Proof.
  intros HK Hg (e0 & T & el & -> & H0 & Hl & HT).
  set (new := g ++ e0 :: T ++ [el]).
  enough (Py.replace s g new = Py.replace s g new
          /\ Doc.count K (Py.replace s g new)
             <= Doc.count K s + Doc.count g s * n) by tauto.
  apply (replace_ind g new
           (fun s out => out = Py.replace s g new
                         /\ Doc.count K out
                            <= Doc.count K s + Doc.count g s * n)); [done|..].
  - rewrite replace_nil by done. split; [done|lia].
  - intros r out [-> IH]. split; [by rewrite replace_hit|].
    unfold new. rewrite <- !app_assoc. cbn [app].
    rewrite count_split by done.
    rewrite <- app_assoc. cbn [app]. rewrite count_split by done.
    fold new. rewrite HT.
    pose proof (count_app_ge K g r HK).
    pose proof (count_app_ge g g r Hg) as Hgg. rewrite count_self in Hgg by done.
    nia.
  - intros c r out Hmiss [-> IH]. split; [by rewrite replace_miss|].
    change (Doc.count K (c :: Py.replace r g new))
      with ((if Py.startswith K (c :: Py.replace r g new) then 1 else 0)
            + Doc.count K (Py.replace r g new)).
    change (Doc.count K (c :: r))
      with ((if Py.startswith K (c :: r) then 1 else 0) + Doc.count K r).
    change (Doc.count g (c :: r))
      with ((if Py.startswith g (c :: r) then 1 else 0) + Doc.count g r).
    rewrite Hmiss.
    destruct (Py.startswith K (c :: Py.replace r g new)) eqn:E;
      [|destruct (Py.startswith K (c :: r)); lia].
    enough (Py.startswith K (c :: r) = true) as -> by lia.
    rewrite <- (replace_miss g new c r Hmiss) in E.
    apply startswith_true in E as [w Hw].
    pose proof (replace_after_agrees g e0 (T ++ [el]) (c :: r) (length K) Hg) as Hag.
    fold new in Hag. rewrite Hw, take_app_length in Hag.
    specialize (Hag H0). apply startswith_true.
    exists (drop (length K) (c :: r)).
    rewrite <- (take_drop (length K) (c :: r)) at 1. by rewrite <- Hag.
Qed.

End Counting.

(** A character is shown absent from a text made of tokens and fixed
    texts. *)
Ltac lacks_tac :=
  repeat first [ by apply token_lacks | by apply lacks_spec | apply lacks_app ].

(** ** The entries keyed by the new identifiers *)

Section KeyFacts.

Import AddExportService.

Local Abbreviation file_refs_begin := (py "/* Begin PBXFileReference section */").
Local Abbreviation build_files_begin := (py "/* Begin PBXBuildFile section */").

Variables random1 random2 : N.

Local Abbreviation fr := (Uuid.token random1).
Local Abbreviation bf := (Uuid.token random2).
Local Abbreviation Kf := (Claims.file_reference_key (Uuid.token random1)).
Local Abbreviation Kb := (Claims.build_file_key (Uuid.token random2)).

Lemma token_nonempty random : Uuid.token random <> [].
Proof.
  intros H. destruct (token_format random) as [Hlen _].
  rewrite H in Hlen. done.
Qed.

Lemma key_nonempty random t : Uuid.token random ++ t <> [].
Proof.
  intros H. apply app_eq_nil in H as [H _]. by apply token_nonempty in H.
Qed.

(** The child of the Services group holds no key and no section comment. *)
Lemma services_child_fenced K c :
  c ∈ K -> (c = "{" \/ c = "g")%char ->
  (nl ∉ K) -> (","%char ∉ K) -> fenced K 0 (services_child fr).
Proof.
  intros HcK Hc Hnl Hcomma.
  exists nl, ([tab; tab; tab; tab] ++ fr ++ py " /* ExportService.swift */"),
    ","%char.
  split_and!; [|done|done|].
  - unfold services_child. cbn [app]. by rewrite <- !app_assoc.
  - apply (count_lacks K c); [done|]. destruct Hc as [-> | ->]; lacks_tac.
Qed.

(** The PBXBuildFile entry holds its own key once and no other key. *)
Lemma build_file_entry_fenced K c n :
  K <> [] -> c ∈ K -> (c = "{" \/ c = "g")%char ->
  (nl ∉ K) -> (";"%char ∉ K) ->
  Doc.count K ([tab; tab] ++ Kb) = n ->
  fenced K n (build_file_entry fr bf).
Proof.
  intros HK HcK Hc Hnl Hsemi Hn.
  exists nl,
    (([tab; tab] ++ Kb)
     ++ ";"%char :: (py " fileRef = " ++ fr ++ py " /* ExportService.swift */")
     ++ ";"%char :: py " }"),
    ";"%char.
  split_and!; [|done|done|].
  - unfold build_file_entry, Claims.build_file_key.
    generalize (Uuid.token random1) (Uuid.token random2). intros a b.
    cbn [app]. rewrite <- !app_assoc. do 3 f_equal.
    cbn. by rewrite <- !app_assoc.
  - rewrite !count_split, Hn by done.
    rewrite !(count_lacks K c); [lia|done| |done|].
    + destruct Hc as [-> | ->]; lacks_tac.
    + destruct Hc as [-> | ->]; lacks_tac.
Qed.

(** The PBXFileReference entry holds its own key once and no other key. *)
Lemma file_ref_entry_fenced K n :
  K <> [] -> "{"%char ∈ K -> (nl ∉ K) -> (";"%char ∉ K) ->
  Doc.count K ([tab; tab] ++ Kf) = n ->
  fenced K n (file_ref_entry fr).
Proof.
  intros HK Hbrace Hnl Hsemi Hn.
  set (rest := py " lastKnownFileType = sourcecode.swift; path = ExportService.swift; sourceTree = "
               ++ [dquote] ++ py "<group>" ++ [dquote] ++ py "; }").
  exists nl, (([tab; tab] ++ Kf) ++ ";"%char :: rest), ";"%char.
  split_and!; [|done|done|].
  - unfold file_ref_entry, Claims.file_reference_key, rest.
    generalize (Uuid.token random1). intros a.
    cbn [app]. rewrite <- !app_assoc. by do 3 f_equal.
  - rewrite count_split, Hn by done.
    rewrite (count_lacks K "{"); [lia|done|]. by apply lacks_spec.
Qed.

(** The child of the Sources phase holds no key. *)
Lemma sources_child_fenced K :
  "{"%char ∈ K -> (nl ∉ K) -> (","%char ∉ K) -> fenced K 0 (sources_child bf).
Proof.
  intros Hbrace Hnl Hcomma.
  exists nl,
    ([tab; tab; tab; tab] ++ bf ++ py " /* ExportService.swift in Sources */"),
    ","%char.
  split_and!; [|done|done|].
  - unfold sources_child. cbn [app]. by rewrite <- !app_assoc.
  - apply (count_lacks K "{"); [done|]. lacks_tac.
Qed.

(** What the group of a one-literal pattern holds. *)
Lemma lit_match_group l s m :
  l <> [] ->
  Re.search [Re.GOpen; Re.Lit l; Re.GClose] s = Some m -> Re.group1 m = l.
Proof.
  intros Hl H.
  apply (search_whole [Re.Lit l]) in H
    as (_ & _ & _ & _ & _ & (w' & Hg & ->)); [|plain_body].
  rewrite app_nil_r in Hg. by rewrite <- Hg.
Qed.

(** The four directives, one by one. *)
Lemma add_to_services_count K c m s :
  K <> [] -> c ∈ K -> (c = "{" \/ c = "g")%char ->
  (nl ∉ K) -> (","%char ∉ K) ->
  Re.search services_pattern s = Some m ->
  Doc.count K (add_to_services fr m s) <= Doc.count K s.
Proof.
  intros HK HcK Hc Hnl Hcomma Hm.
  destruct (search_group (py "/* Services */ = {")
              [Re.Plus (Re.CNot "}"); Re.Lit (py "children = (");
               Re.Plus (Re.CNot ")")] s m ltac:(done) ltac:(plain_body) Hm)
    as [Hne _].
  pose proof (count_replace_bound K (Re.group1 m) 0 (services_child fr) s HK Hne
                (services_child_fenced K c HcK Hc Hnl Hcomma)) as H.
  unfold add_to_services. lia.
Qed.

Lemma add_build_file_count K c n s :
  K <> [] -> c ∈ K -> (c = "{" \/ c = "g")%char ->
  (nl ∉ K) -> (";"%char ∉ K) ->
  Doc.count K ([tab; tab] ++ Kb) = n ->
  Doc.count K (add_build_file fr bf s)
  <= Doc.count K s + Doc.count build_files_begin s * n.
Proof.
  intros HK HcK Hc Hnl Hsemi Hn. unfold add_build_file.
  destruct (Re.search build_file_section_pattern s) as [m|] eqn:Hm; [|lia].
  rewrite (lit_match_group build_files_begin s m) by done.
  apply count_replace_bound; [done..|]. by apply (build_file_entry_fenced K c).
Qed.

Lemma add_file_ref_count K n s :
  K <> [] -> "{"%char ∈ K -> (nl ∉ K) -> (";"%char ∉ K) ->
  Doc.count K ([tab; tab] ++ Kf) = n ->
  Doc.count K (add_file_ref fr s)
  <= Doc.count K s + Doc.count file_refs_begin s * n.
Proof.
  intros HK Hbrace Hnl Hsemi Hn. unfold add_file_ref.
  destruct (Re.search file_ref_section_pattern s) as [m|] eqn:Hm; [|lia].
  rewrite (lit_match_group file_refs_begin s m) by done.
  apply count_replace_bound; [done..|]. by apply file_ref_entry_fenced.
Qed.

Lemma add_to_sources_count K s :
  K <> [] -> "{"%char ∈ K -> (nl ∉ K) -> (","%char ∉ K) ->
  Doc.count K (add_to_sources bf s) <= Doc.count K s.
Proof.
  intros HK Hbrace Hnl Hcomma. unfold add_to_sources.
  destruct (Re.search sources_phase_pattern s) as [m|] eqn:Hm; [|lia].
  destruct (search_group (py "/* Sources */ = {")
              [Re.Plus (Re.CNot "}"); Re.Lit (py "files = (");
               Re.Plus (Re.CNot ")")] s m ltac:(done) ltac:(plain_body) Hm)
    as [Hne _].
  pose proof (count_replace_bound K (Re.group1 m) 0 (sources_child bf) s HK Hne
                (sources_child_fenced K Hbrace Hnl Hcomma)) as H.
  cbn zeta. lia.
Qed.

(** A key behind two tabs is there once. *)
Lemma count_key_line K :
  K <> [] -> (tab ∉ K) -> Doc.count K ([tab; tab] ++ K) = 1.
Proof.
  intros HK Htab.
  change ([tab; tab] ++ K) with ([] ++ tab :: [] ++ tab :: K).
  rewrite !count_split, count_nil, count_self by done. done.
Qed.

(** Each key occurs at most as often as it did, and once more for each
    occurrence of the section comment behind which its entry is put. *)
Lemma file_reference_key_bound m file :
  Re.search services_pattern file = Some m ->
  Doc.count Kf (patch fr bf m file)
  <= Doc.count Kf file + Doc.count file_refs_begin file.
Proof.
  intros Hm. unfold patch.
  set (d1 := add_to_services fr m file).
  set (d2 := add_build_file fr bf d1).
  set (d3 := add_file_ref fr d2).
  assert (Kf <> []) as HK by apply key_nonempty.
  assert ("{"%char ∈ Kf) as Hbrace by (apply elem_of_app; right; by apply lacks_false).
  assert ("R"%char ∈ Kf) as HR by (apply elem_of_app; right; by apply lacks_false).
  assert (nl ∉ Kf) as Hnl by lacks_tac.
  assert (","%char ∉ Kf) as Hcomma by lacks_tac.
  assert (";"%char ∉ Kf) as Hsemi by lacks_tac.
  assert (tab ∉ Kf) as Htab by lacks_tac.
  assert ("g"%char ∈ file_refs_begin) as Hg by by apply lacks_false.
  assert (nl ∉ file_refs_begin) as Hnl' by by apply lacks_spec.
  assert (","%char ∉ file_refs_begin) as Hcomma' by by apply lacks_spec.
  assert (";"%char ∉ file_refs_begin) as Hsemi' by by apply lacks_spec.
  pose proof (add_to_services_count Kf "{" m file HK Hbrace (or_introl eq_refl)
                Hnl Hcomma Hm) as H1. fold d1 in H1.
  pose proof (add_build_file_count Kf "{" 0 d1 HK Hbrace (or_introl eq_refl)
                Hnl Hsemi) as H2. fold d2 in H2.
  pose proof (add_file_ref_count Kf 1 d2 HK Hbrace Hnl Hsemi
                (count_key_line Kf HK Htab)) as H3. fold d3 in H3.
  pose proof (add_to_sources_count Kf d3 HK Hbrace Hnl Hcomma) as H4.
  pose proof (add_to_services_count file_refs_begin "g" m file ltac:(done) Hg
                (or_intror eq_refl) Hnl' Hcomma' Hm) as M1. fold d1 in M1.
  pose proof (add_build_file_count file_refs_begin "g" 0 d1 ltac:(done) Hg
                (or_intror eq_refl) Hnl' Hsemi') as M2. fold d2 in M2.
  assert (Doc.count Kf ([tab; tab] ++ Kb) = 0) as Z1
    by (apply (count_lacks Kf "R"); [done|lacks_tac]).
  assert (Doc.count file_refs_begin ([tab; tab] ++ Kb) = 0) as Z2
    by (apply (count_lacks file_refs_begin "g"); [done|lacks_tac]).
  specialize (H2 Z1). specialize (M2 Z2). lia.
Qed.

Lemma build_file_key_bound m file :
  Re.search services_pattern file = Some m ->
  Doc.count Kb (patch fr bf m file)
  <= Doc.count Kb file + Doc.count build_files_begin file.
Proof.
  intros Hm. unfold patch.
  set (d1 := add_to_services fr m file).
  set (d2 := add_build_file fr bf d1).
  set (d3 := add_file_ref fr d2).
  assert (Kb <> []) as HK by apply key_nonempty.
  assert ("{"%char ∈ Kb) as Hbrace by (apply elem_of_app; right; by apply lacks_false).
  assert ("u"%char ∈ Kb) as Hu by (apply elem_of_app; right; by apply lacks_false).
  assert (nl ∉ Kb) as Hnl by lacks_tac.
  assert (","%char ∉ Kb) as Hcomma by lacks_tac.
  assert (";"%char ∉ Kb) as Hsemi by lacks_tac.
  assert (tab ∉ Kb) as Htab by lacks_tac.
  assert ("g"%char ∈ build_files_begin) as Hg by by apply lacks_false.
  assert (nl ∉ build_files_begin) as Hnl' by by apply lacks_spec.
  assert (","%char ∉ build_files_begin) as Hcomma' by by apply lacks_spec.
  pose proof (add_to_services_count Kb "{" m file HK Hbrace (or_introl eq_refl)
                Hnl Hcomma Hm) as H1. fold d1 in H1.
  pose proof (add_build_file_count Kb "{" 1 d1 HK Hbrace (or_introl eq_refl)
                Hnl Hsemi (count_key_line Kb HK Htab)) as H2. fold d2 in H2.
  pose proof (add_file_ref_count Kb 0 d2 HK Hbrace Hnl Hsemi) as H3. fold d3 in H3.
  pose proof (add_to_sources_count Kb d3 HK Hbrace Hnl Hcomma) as H4.
  pose proof (add_to_services_count build_files_begin "g" m file ltac:(done) Hg
                (or_intror eq_refl) Hnl' Hcomma' Hm) as M1. fold d1 in M1.
  assert (Doc.count Kb ([tab; tab] ++ Kf) = 0) as Z1
    by (apply (count_lacks Kb "u"); [done|lacks_tac]).
  specialize (H3 Z1). lia.
Qed.

(** The new PBXFileReference entry holds its key. *)
Lemma key_in_file_ref_entry : Doc.infix Kf (file_ref_entry fr).
Proof.
  exists [nl; tab; tab],
    (drop (length (py " /* ExportService.swift */ = {isa = PBXFileReference"))
       (drop 3 (file_ref_entry []))).
  unfold file_ref_entry, Claims.file_reference_key.
  generalize (Uuid.token random1). intros a.
  cbn [app]. rewrite <- !app_assoc. by do 3 f_equal.
Qed.

End KeyFacts.

(** ** Insertions at allowed positions *)

Section Scanning.

Variable ok : str -> str -> Prop.
Variable T : str.

Implicit Types (s out pre u v a b B K : str).

Lemma scan_copies pre w s out :
  scan ok T (pre ++ w) s out -> scan ok T pre (w ++ s) (w ++ out).
Proof.
  revert pre. induction w as [|c w IH]; intros pre H.
  - by rewrite app_nil_r in H.
  - simpl. constructor. apply IH. by rewrite <- app_assoc.
Qed.

(** Inside an occurrence of [B] nothing is put in. *)
Lemma scan_inside B pre s out :
  uncut ok B -> scan ok T pre s out ->
  forall p0 u v b, pre = p0 ++ u -> u <> [] -> s = v ++ b -> u ++ v = B ->
    exists b', out = v ++ b' /\ scan ok T (pre ++ v) b b'.
Proof.
  intros HB H. induction H as [pre s|pre c s out H IH|pre s out Hok H IH];
    intros p0 u v b Hpre Hu Hs HB'.
  - exists b. split; [done|]. constructor.
  - destruct v as [|c' v].
    + simpl in Hs. subst b. exists (c :: out). split; [done|].
      rewrite app_nil_r. by constructor.
    + simpl in Hs. injection Hs as <- ->.
      destruct (IH p0 (u ++ [c]) v b) as (b' & -> & Hb').
      * by rewrite Hpre, <- app_assoc.
      * by destruct u.
      * done.
      * by rewrite <- app_assoc.
      * exists b'. split; [done|]. by rewrite <- app_assoc in Hb'.
  - destruct (HB pre s p0 u v b Hok Hpre Hs HB') as [->| ->]; [done|].
    simpl in Hs. subst b. exists (T ++ out). split; [done|].
    rewrite app_nil_r. by constructor.
Qed.

(** An occurrence of [B] is kept. *)
Lemma scan_keeps B pre s out :
  uncut ok B -> scan ok T pre s out ->
  forall a b, s = a ++ B ++ b ->
    exists a' b', out = a' ++ B ++ b' /\ scan ok T (pre ++ a ++ B) b b'.
Proof.
  intros HB H. induction H as [pre s|pre c s out H IH|pre s out Hok H IH];
    intros a b Hs.
  - exists a, b. split; [done|]. constructor.
  - destruct a as [|c' a].
    + destruct B as [|c' B].
      * simpl in Hs. subst b. exists [], (c :: out). split; [done|].
        rewrite app_nil_r. by constructor.
      * simpl in Hs. injection Hs as <- ->.
        destruct (scan_inside (c :: B) _ _ _ HB H pre [c] B b)
          as (b' & -> & Hb'); [done..|].
        exists [], b'. split; [done|]. simpl.
        by rewrite <- app_assoc in Hb'.
    + simpl in Hs. injection Hs as <- ->.
      destruct (IH a b eq_refl) as (a' & b' & -> & Hb').
      exists (c :: a'), b'. split; [done|].
      by rewrite <- app_assoc in Hb'.
  - destruct (IH a b Hs) as (a' & b' & -> & Hb').
    exists (T ++ a'), b'. split; [by rewrite <- app_assoc|done].
Qed.

(** Two occurrences, one behind the other, are kept in that order. *)
Lemma scan_keeps_two B1 B2 pre s out :
  uncut ok B1 -> uncut ok B2 -> scan ok T pre s out ->
  forall a mid c, s = a ++ B1 ++ mid ++ B2 ++ c ->
    exists a' mid' c', out = a' ++ B1 ++ mid' ++ B2 ++ c'.
Proof.
  intros H1 H2 H a mid c Hs.
  destruct (scan_keeps B1 _ _ _ H1 H a (mid ++ B2 ++ c) Hs) as (a' & b' & -> & H').
  destruct (scan_keeps B2 _ _ _ H2 H' mid c eq_refl) as (mid' & c' & -> & _).
  by exists a', mid', c'.
Qed.

End Scanning.

Section SpliceScan.

Implicit Types (s out pre : str).

(** A directive that puts its text in front of the anchor scans. *)
Lemma splice_scan_before p T s out :
  splice (Directive p T []) s out ->
  forall pre, scan (before_anchor p) T pre s out.
Proof.
  induction 1 as [|w r out Hw H IH|c s out H IH]; intros pre.
  - constructor.
  - cbn [before after]. apply scan_put; [by exists w, r|].
    apply scan_copies. simpl. apply IH.
  - constructor. apply IH.
Qed.

(** A directive that puts its text behind the anchor scans. *)
Lemma splice_scan_behind p T s out :
  splice (Directive p [] T) s out ->
  forall pre, scan (behind_anchor p) T pre s out.
Proof.
  induction 1 as [|w r out Hw H IH|c s out H IH]; intros pre.
  - constructor.
  - cbn [before after app]. apply scan_copies.
    apply scan_put; [by exists pre, w|]. apply IH.
  - constructor. apply IH.
Qed.

End SpliceScan.

Section CountingApart.

Implicit Types (K T s x y p out pre : str).

(** No occurrence starts inside [T]. *)
Lemma count_skip K T y :
  cannot_start_in K T -> Doc.count K (T ++ y) = Doc.count K y.
Proof.
  induction T as [|t T IH]; intros HT; [done|].
  change (Doc.count K ((t :: T) ++ y))
    with ((if Py.startswith K ((t :: T) ++ y) then 1 else 0)
          + Doc.count K (T ++ y)).
  rewrite IH.
  - destruct (Py.startswith K ((t :: T) ++ y)) eqn:E; [|done].
    apply startswith_true in E as [r Hr].
    destruct (HT 0 r y); [simpl; lia|]. by rewrite drop_0.
  - intros j r Y Hj. apply (HT (S j) r Y). simpl. lia.
Qed.

(** The occurrences in [x ++ T ++ y] are those in [x] and those in [y]. *)
Lemma count_apart K T x y :
  K <> [] -> apart K T ->
  Doc.count K (x ++ T ++ y) = Doc.count K x + Doc.count K y.
Proof.
  intros HK (Hst & Hend & c & HcT & HcK). induction x as [|a x IH].
  - cbn [app]. rewrite count_skip, count_nil by done. done.
  - change (Doc.count K ((a :: x) ++ T ++ y))
      with ((if Py.startswith K ((a :: x) ++ T ++ y) then 1 else 0)
            + Doc.count K (x ++ T ++ y)).
    change (Doc.count K (a :: x))
      with ((if Py.startswith K (a :: x) then 1 else 0) + Doc.count K x).
    rewrite IH.
    enough (Py.startswith K ((a :: x) ++ T ++ y) = Py.startswith K (a :: x))
      as -> by lia.
    destruct (Py.startswith K (a :: x)) eqn:E1.
    { by apply startswith_app_mono. }
    destruct (Py.startswith K ((a :: x) ++ T ++ y)) eqn:E2; [|done].
    exfalso. apply startswith_true in E2 as [r Hr].
    apply app_eq_inv in Hr as [(k & Hk & Hr)|(k & Hk & Hr)].
    + assert (Py.startswith K (a :: x) = true); [|congruence].
      apply startswith_true. by exists k.
    + apply app_eq_inv in Hr as [(k' & Hk' & Hr)|(k' & Hk' & Hr)].
      * destruct k as [|k0 k].
        { rewrite app_nil_r in Hk.
          assert (Py.startswith K (a :: x) = true); [|congruence].
          apply startswith_true. exists []. by rewrite app_nil_r, Hk. }
        apply (Hend (length (k0 :: k)) [] (a :: x)).
        { rewrite Hk', length_app. simpl. lia. }
        cbn [app]. rewrite Hk, Hk'. by rewrite take_app_length.
      * apply HcK. rewrite Hk, Hk'. rewrite !elem_of_app. right. by left.
Qed.

(** Scanning adds no occurrence of a text that is apart from [T]. *)
Lemma scan_count ok K T pre s out :
  K <> [] -> apart K T -> scan ok T pre s out ->
  forall p, Doc.count K (p ++ out) <= Doc.count K (p ++ s).
Proof.
  intros HK HT H. induction H as [pre s|pre c s out H IH|pre s out Hok H IH];
    intros p.
  - done.
  - specialize (IH (p ++ [c])). by rewrite <- !app_assoc in IH.
  - rewrite count_apart by done.
    pose proof (IH []) as IH0. simpl in IH0.
    pose proof (count_app_ge K p s HK). lia.
Qed.

(** A text that is counted at most once occurs at one position at most. *)
Lemma count_unique K s a1 b1 a2 b2 :
  K <> [] -> Doc.count K s <= 1 ->
  s = a1 ++ K ++ b1 -> s = a2 ++ K ++ b2 -> a1 = a2.
Proof.
  intros HK. revert a1 a2. induction s as [|c s IH]; intros a1 a2 Hc H1 H2.
  - destruct a1, a2; try done; destruct K; done.
  - change (Doc.count K (c :: s))
      with ((if Py.startswith K (c :: s) then 1 else 0) + Doc.count K s) in Hc.
    assert (forall a b, c :: s = (c :: a) ++ K ++ b -> 0 < Doc.count K s) as Hpos.
    { intros a b H. injection H as ->. apply count_pos. by exists a, b. }
    assert (forall b, c :: s = K ++ b -> Py.startswith K (c :: s) = true) as Hsw.
    { intros b H. apply startswith_true. by exists b. }
    destruct a1 as [|c1 a1], a2 as [|c2 a2]; [done| | |].
    + simpl in H1. rewrite (Hsw _ H1) in Hc.
      injection H2 as <- H2. pose proof (Hpos a2 b2) as H. simpl in H.
      rewrite <- H2 in H. specialize (H eq_refl). lia.
    + simpl in H2. rewrite (Hsw _ H2) in Hc.
      injection H1 as <- H1. pose proof (Hpos a1 b1) as H. simpl in H.
      rewrite <- H1 in H. specialize (H eq_refl). lia.
    + injection H1 as <- H1. injection H2 as <- H2. f_equal.
      apply IH; [|done..]. lia.
Qed.

(** When the first text of a block is counted at most once, the block
    is the only one. *)
Lemma only_block_of_count L1 L2 s a ws b :
  L1 <> [] -> Doc.count L1 s <= 1 ->
  s = a ++ block L1 L2 ws ++ b -> only_block_at L1 L2 s a.
Proof.
  intros HL Hc Hs a' ws' b' _ Hs'. unfold block in *.
  rewrite <- !app_assoc in Hs, Hs'.
  by apply (count_unique L1 s a' (ws' ++ L2 ++ b') a (ws ++ L2 ++ b) HL Hc).
Qed.

End CountingApart.

(** ** Steps 1 and 2 of [integrate_xcconfig.py] and the build configurations *)

Section ConfigurationBlocks.

Import IntegrateXcconfig.

Local Abbreviation DL1 := (py "A1000180000 /* Debug */ = {").
Local Abbreviation RL1 := (py "A1000190000 /* Release */ = {").
Local Abbreviation BL2 := (py "isa = XCBuildConfiguration;").

Implicit Types (s ws B : str).

Lemma spaces_lack c ws : spaces ws -> Re.isspace c = false -> c ∉ ws.
Proof.
  intros Hws Hc Hin. unfold spaces in Hws. rewrite Forall_forall in Hws.
  apply Hws in Hin. congruence.
Qed.

(** A position in front of a section comment is not inside a block. *)
Lemma uncut_before_marker c M B :
  Re.isspace c = false ->
  never_starts_in (c :: M) DL1 = true -> never_starts_in (c :: M) RL1 = true ->
  never_starts_in (c :: M) BL2 = true ->
  Claims.configuration_block B -> uncut (before_anchor [Re.Lit (c :: M)]) B.
Proof.
  intros Hc HD HR HB (L & ws & HL & Hws & ->) pre s p0 u v b
    (w & r & (w' & -> & ->) & Hs) _ Hs' Hblock.
  destruct v as [|v0 v]; [by right|]. left.
  assert (cannot_start_in (c :: M) (block L BL2 ws)) as Hno.
  { unfold block. apply cannot_start_in_app.
    - destruct HL as [-> | ->]; apply never_starts_in_cannot; assumption.
    - apply cannot_start_in_app; [|apply never_starts_in_cannot; assumption].
      apply cannot_start_in_lacks. by apply spaces_lack. }
  destruct (Hno (length u) r b).
  - rewrite <- Hblock, length_app. simpl. lia.
  - rewrite <- Hblock, drop_app_length, <- Hs'. rewrite Hs.
    by rewrite app_nil_r.
Qed.

(** What the root group pattern matches ends with the opening parenthesis
    and white space. *)
Lemma root_group_tail w :
  lang root_group_pattern w ->
  exists x sp, w = x ++ "("%char :: sp /\ spaces sp.
Proof.
  intros (w1 & -> & u1 & w2 & -> & _ & w3 & -> & u2 & w4 & -> & _
          & w5 & -> & u3 & w6 & -> & Hsp & ->).
  exists (py "A10000A0000 = {" ++ u1 ++ py "isa = PBXGroup;" ++ u2
          ++ py "children = "), u3.
  split; [|exact Hsp].
  rewrite app_nil_r, <- !app_assoc. by do 4 f_equal.
Qed.

(** A position behind a match of the root group pattern is not inside a
    block. *)
Lemma uncut_behind_root B :
  Claims.configuration_block B -> uncut (behind_anchor root_group_pattern) B.
Proof.
  intros (L & ws & HL & Hws & ->) pre s p0 u v b (q & w & Hw & Hpre) Hpre' _ Hblock.
  destruct u as [|u0 u]; [by left|]. exfalso.
  apply root_group_tail in Hw as (x & sp & -> & Hsp).
  assert ("("%char ∉ block L BL2 ws) as Hpar.
  { unfold block. rewrite !elem_of_app. intros [H|[H|H]].
    - revert H. destruct HL as [-> | ->]; by apply lacks_spec.
    - revert H. by apply spaces_lack.
    - revert H. by apply lacks_spec. }
  assert (u0 = "A"%char) as ->.
  { unfold block in Hblock. destruct HL as [-> | ->]; by injection Hblock. }
  rewrite Hpre' in Hpre. rewrite app_assoc in Hpre.
  apply app_eq_inv in Hpre as [(k & Hk & Hu)|(k & Hk & Hu)].
  - destruct k as [|k0 k].
    + simpl in Hu. injection Hu as Hu _. discriminate.
    + injection Hu as _ Hu. apply (spaces_lack "A" sp); [done..|].
      rewrite Hu. apply elem_of_app. right. apply list_elem_of_here.
  - apply Hpar. rewrite <- Hblock, Hu.
    rewrite !elem_of_app. left. right. apply list_elem_of_here.
Qed.

(** The headers are apart from the three inserted texts. *)
Lemma header_apart L T :
  Claims.configuration_header L ->
  never_starts_in DL1 T = true -> never_starts_in RL1 T = true ->
  never_ends_in DL1 T = true -> never_ends_in RL1 T = true ->
  lacks tab T = false -> apart L T.
Proof.
  intros HL HsD HsR HeD HeR Htab. split_and!.
  - destruct HL as [-> | ->]; apply never_starts_in_cannot; assumption.
  - destruct HL as [-> | ->]; apply never_ends_in_cannot; assumption.
  - exists tab. split; [apply lacks_false; assumption|].
    destruct HL as [-> | ->]; apply lacks_spec; vm_compute; reflexivity.
Qed.

Lemma uncut_before_file_refs_end B :
  Claims.configuration_block B -> uncut (before_anchor [Re.Lit end_file_ref_marker]) B.
Proof.
  apply (uncut_before_marker "/" (py "* End PBXFileReference section */"));
    [done|vm_compute; reflexivity..].
Qed.

Lemma uncut_before_groups_end B :
  Claims.configuration_block B -> uncut (before_anchor [Re.Lit end_group_marker]) B.
Proof.
  apply (uncut_before_marker "/" (py "* End PBXGroup section */"));
    [done|vm_compute; reflexivity..].
Qed.

Lemma header_apart_new_refs L : Claims.configuration_header L -> apart L new_refs.
Proof. intros HL. apply header_apart; [done|vm_compute; reflexivity..]. Qed.

Lemma header_apart_config_group L : Claims.configuration_header L -> apart L config_group.
Proof. intros HL. apply header_apart; [done|vm_compute; reflexivity..]. Qed.

Lemma header_apart_config_child L : Claims.configuration_header L -> apart L config_child.
Proof. intros HL. apply header_apart; [done|vm_compute; reflexivity..]. Qed.

(** Steps 1 and 2 keep two blocks that stand one behind the other, and
    add no header. *)
Lemma steps_keep_blocks content B1 B2 a mid c :
  Claims.configuration_block B1 -> Claims.configuration_block B2 ->
  content = a ++ B1 ++ mid ++ B2 ++ c ->
  exists a' mid' c',
    add_config_group (add_file_refs content) = a' ++ B1 ++ mid' ++ B2 ++ c'.
Proof.
  intros H1 H2 Hc.
  assert (exists a1 mid1 c1, add_file_refs content = a1 ++ B1 ++ mid1 ++ B2 ++ c1)
    as (a1 & mid1 & c1 & E1).
  { destruct (add_file_refs_splice content) as [-> | H]; [by exists a, mid, c|].
    apply (scan_keeps_two _ _ B1 B2 [] content _
             (uncut_before_file_refs_end B1 H1) (uncut_before_file_refs_end B2 H2)
             (splice_scan_before _ _ _ _ H []) a mid c Hc). }
  unfold add_config_group.
  destruct (Re.search group_section_pattern _); [|by exists a1, mid1, c1].
  destruct (negb _); [|by exists a1, mid1, c1].
  set (s1 := add_file_refs content) in *.
  set (s2 := Py.replace s1 end_group_marker (config_group ++ end_group_marker)).
  assert (exists a2 mid2 c2, s2 = a2 ++ B1 ++ mid2 ++ B2 ++ c2)
    as (a2 & mid2 & c2 & E2).
  { pose proof (replace_splice_before end_group_marker config_group s1
                  ltac:(discriminate)) as H.
    apply (scan_keeps_two _ _ B1 B2 [] s1 _
             (uncut_before_groups_end B1 H1) (uncut_before_groups_end B2 H2)
             (splice_scan_before _ _ _ _ H []) a1 mid1 c1 E1). }
  apply (scan_keeps_two _ _ B1 B2 [] s2 _
           (uncut_behind_root B1 H1) (uncut_behind_root B2 H2)
           (splice_scan_behind _ _ _ _ (root_group_splice s2) []) a2 mid2 c2 E2).
Qed.

Lemma steps_add_no_header content L :
  Claims.configuration_header L ->
  Doc.count L (add_config_group (add_file_refs content)) <= Doc.count L content.
Proof.
  intros HL.
  assert (L <> []) as Hne by (destruct HL as [-> | ->]; discriminate).
  assert (Doc.count L (add_file_refs content) <= Doc.count L content) as E1.
  { destruct (add_file_refs_splice content) as [-> | H]; [done|].
    apply (scan_count _ L new_refs [] content _ Hne
             (header_apart_new_refs L HL) (splice_scan_before _ _ _ _ H []) []). }
  etrans; [|exact E1]. unfold add_config_group.
  destruct (Re.search group_section_pattern _); [|done].
  destruct (negb _); [|done].
  set (s1 := add_file_refs content).
  set (s2 := Py.replace s1 end_group_marker (config_group ++ end_group_marker)).
  assert (Doc.count L s2 <= Doc.count L s1) as E2.
  { pose proof (replace_splice_before end_group_marker config_group s1
                  ltac:(discriminate)) as H.
    apply (scan_count _ L config_group [] s1 _ Hne
             (header_apart_config_group L HL) (splice_scan_before _ _ _ _ H []) []). }
  etrans; [|exact E2].
  apply (scan_count _ L config_child [] s2 _ Hne
           (header_apart_config_child L HL)
           (splice_scan_behind _ _ _ _ (root_group_splice s2) []) []).
Qed.



Lemma header_apart_debug_reference L :
  Claims.configuration_header L -> apart L debug_base_reference.
Proof. intros HL. apply header_apart; [done|vm_compute; reflexivity..]. Qed.

Lemma header_apart_release_reference L :
  Claims.configuration_header L -> apart L release_base_reference.
Proof. intros HL. apply header_apart; [done|vm_compute; reflexivity..]. Qed.

(** Step 3 adds no header. *)
Lemma step3_adds_no_header d L :
  Claims.configuration_header L ->
  Doc.count L (assign_base_configurations d) <= Doc.count L d.
Proof.
  intros HL.
  assert (L <> []) as Hne by (destruct HL as [-> | ->]; discriminate).
  unfold assign_base_configurations.
  etrans.
  - apply (scan_count _ L release_base_reference [] (assign_debug d) _ Hne
             (header_apart_release_reference L HL)
             (splice_scan_behind _ _ _ _ (assign_release_splice _) []) []).
  - apply (scan_count _ L debug_base_reference [] d _ Hne
             (header_apart_debug_reference L HL)
             (splice_scan_behind _ _ _ _ (assign_debug_splice _) []) []).
Qed.

(** What the three steps make of a project file with one Debug and one
    Release header, each starting a block, [B1] in front of [B2]. *)
Lemma patch_adds_base_references content a ws1 mid ws2 c :
  spaces ws1 -> spaces ws2 ->
  Doc.count DL1 content <= 1 -> Doc.count RL1 content <= 1 ->
  let d := add_config_group (add_file_refs content) in
  (content = a ++ Claims.debug_block ws1 ++ mid ++ Claims.release_block ws2 ++ c ->
   exists a' mid' c',
     d = a' ++ Claims.debug_block ws1 ++ mid' ++ Claims.release_block ws2 ++ c'
     /\ patch content
        = a' ++ Claims.debug_block ws1 ++ debug_base_reference ++ mid'
          ++ Claims.release_block ws2 ++ release_base_reference ++ c')
  /\ (content = a ++ Claims.release_block ws2 ++ mid ++ Claims.debug_block ws1 ++ c ->
      exists a' mid' c',
        d = a' ++ Claims.release_block ws2 ++ mid' ++ Claims.debug_block ws1 ++ c'
        /\ patch content
           = a' ++ Claims.release_block ws2 ++ release_base_reference ++ mid'
             ++ Claims.debug_block ws1 ++ debug_base_reference ++ c').
Proof.
  intros Hws1 Hws2 HcD HcR d.
  assert (Claims.configuration_block (Claims.debug_block ws1)) as HD
    by (exists DL1, ws1; split_and!; [by left|done..]).
  assert (Claims.configuration_block (Claims.release_block ws2)) as HR
    by (exists RL1, ws2; split_and!; [by right|done..]).
  pose proof (steps_add_no_header content DL1 ltac:(by left)) as HcD'.
  pose proof (steps_add_no_header content RL1 ltac:(by right)) as HcR'.
  fold d in HcD', HcR'.
  split; intros Hc.
  - destruct (steps_keep_blocks content _ _ a mid c HD HR Hc)
      as (a' & mid' & c' & Hd). fold d in Hd.
    exists a', mid', c'. split; [done|].
    apply (proj1 (base_references_once content a' ws1 mid' ws2 c'
                    Hws1 Hws2)); fold d; [done|..].
    + apply (only_block_of_count DL1 BL2 d a' ws1
               (mid' ++ Claims.release_block ws2 ++ c')); [done|lia|done].
    + apply (only_block_of_count RL1 BL2 d _ ws2 c'); [done|lia|].
      by rewrite <- !app_assoc.
  - destruct (steps_keep_blocks content _ _ a mid c HR HD Hc)
      as (a' & mid' & c' & Hd). fold d in Hd.
    exists a', mid', c'. split; [done|].
    apply (proj2 (base_references_once content a' ws1 mid' ws2 c'
                    Hws1 Hws2)); fold d; [done|..].
    + apply (only_block_of_count RL1 BL2 d a' ws2
               (mid' ++ Claims.debug_block ws1 ++ c')); [done|lia|done].
    + apply (only_block_of_count DL1 BL2 d _ ws1 c'); [done|lia|].
      by rewrite <- !app_assoc.
Qed.

(** C7.  Let the header [A1000180000 /* Debug */ = {] occur once in the
    text read from the project file, followed by white space and
    [isa = XCBuildConfiguration;],
    and likewise the header [A1000190000 /* Release */ = {], the two
    blocks in either order.  Then Steps 1 and 2 leave a content [d] that
    still has the two blocks in that order, and the file the script
    leaves is [d] with one [baseConfigurationReference] line behind each
    of the two: the one behind the Debug block names
    [A10000F1000 /* Debug.xcconfig */], the one behind the Release block
    [A10000F2000 /* Release.xcconfig */].  Whether a block already had
    such a line plays no part. *)
Theorem C7_one_base_reference_per_block file a ws1 mid ws2 c :
  let content := Py.universal_newlines file in
  spaces ws1 -> spaces ws2 ->
  Doc.count DL1 content = 1 -> Doc.count RL1 content = 1 ->
  let d := add_config_group (add_file_refs content) in
  let out := IO.final_disk (IO.run main file) in
  (content = a ++ Claims.debug_block ws1 ++ mid ++ Claims.release_block ws2 ++ c ->
   exists a' mid' c',
     d = a' ++ Claims.debug_block ws1 ++ mid' ++ Claims.release_block ws2 ++ c'
     /\ out = a' ++ Claims.debug_block ws1 ++ debug_base_reference ++ mid'
              ++ Claims.release_block ws2 ++ release_base_reference ++ c')
  /\ (content = a ++ Claims.release_block ws2 ++ mid ++ Claims.debug_block ws1 ++ c ->
      exists a' mid' c',
        d = a' ++ Claims.release_block ws2 ++ mid' ++ Claims.debug_block ws1 ++ c'
        /\ out = a' ++ Claims.release_block ws2 ++ release_base_reference ++ mid'
                 ++ Claims.debug_block ws1 ++ debug_base_reference ++ c').
Proof.
  intros content Hws1 Hws2 HcD HcR d out. unfold out. rewrite final_disk_main.
  fold content.
  pose proof (patch_adds_base_references content a ws1 mid ws2 c Hws1 Hws2) as H.
  apply H; lia.
Qed.


(** C7 at [mini_project], which has the Debug block at position 235 and
    the Release block at position 301. *)
Lemma C7_mini_project_witness :
  let d :=
    add_config_group (add_file_refs (Py.universal_newlines Claims.mini_project)) in
  let ws := [nl; tab; tab; tab] in
  exists a' mid' c',
    d = a' ++ Claims.debug_block ws ++ mid' ++ Claims.release_block ws ++ c'
    /\ IO.final_disk (IO.run main Claims.mini_project)
       = a' ++ Claims.debug_block ws ++ debug_base_reference ++ mid'
         ++ Claims.release_block ws ++ release_base_reference ++ c'.
Proof.
  intros d ws.
  assert (spaces ws) as Hws by (repeat constructor).
  apply (proj1 (C7_one_base_reference_per_block Claims.mini_project
                  (take 235 Claims.mini_project) ws
                  (take 8 (drop 293 Claims.mini_project)) ws
                  (drop 361 Claims.mini_project) Hws Hws
                  ltac:(vm_compute; reflexivity) ltac:(vm_compute; reflexivity))).
  vm_compute. reflexivity.
Defined.

End ConfigurationBlocks.

(** ** Line endings of the text written *)

Section WrittenLineEndings.

Import AddExportService.

(** A splice brings in no character that its texts lack. *)
Lemma splice_lacks c d s t :
  c ∉ before d -> c ∉ after d -> splice d s t -> c ∉ s -> c ∉ t.
Proof.
  intros Hb Ha. induction 1 as [|w r out Hw H IH|x s out H IH]; [done|..].
  - rewrite !elem_of_app. intros Hs [?|[?|[?|?]]]; [done| |done|].
    + apply Hs. by left.
    + apply IH; [|done]. intros ?. apply Hs. by right.
  - rewrite !not_elem_of_cons. intros [? ?]. split; [done|]. by apply IH.
Qed.

Lemma only_inserts_lacks c ds s t :
  (forall d, d ∈ ds -> (c ∉ before d) /\ (c ∉ after d)) ->
  only_inserts ds s t -> c ∉ s -> c ∉ t.
Proof.
  intros Hds. induction 1 as [|d s t u Hd H _ IH]; [done|].
  intros Hs. apply IH. destruct (Hds d Hd). by eapply splice_lacks.
Qed.

Lemma token_no_cr random : cr ∉ Uuid.token random.
Proof. by apply token_lacks. Qed.

Local Ltac no_cr :=
  repeat first
    [ apply lacks_app
    | apply token_no_cr
    | apply lacks_spec; vm_compute; reflexivity ].

(** The content that [add_export_service.py] makes of a text without
    carriage return has none. *)
Lemma patch_no_cr random1 random2 s m :
  Re.search services_pattern s = Some m ->
  cr ∉ s -> cr ∉ patch (Uuid.token random1) (Uuid.token random2) m s.
Proof.
  intros Hm. eapply only_inserts_lacks; [|by apply patch_only_inserts].
  intros d Hd. unfold Claims.add_export_directives in Hd.
  rewrite !elem_of_cons, elem_of_nil in Hd.
  destruct Hd as [->|[->|[->|[->|[]]]]]; cbn [before after];
    (split; [apply not_elem_of_nil|]).
  - unfold services_child. no_cr.
  - unfold build_file_entry. no_cr.
  - unfold file_ref_entry. no_cr.
  - unfold sources_child. no_cr.
Qed.

(** The same for [integrate_xcconfig.py]. *)
Lemma integrate_patch_no_cr s : cr ∉ s -> cr ∉ IntegrateXcconfig.patch s.
Proof.
  eapply only_inserts_lacks; [|apply integrate_patch_only_inserts].
  intros d Hd. unfold Claims.integrate_directives in Hd.
  rewrite !elem_of_cons, elem_of_nil in Hd.
  destruct Hd as [->|[->|[->|[->|[->|[]]]]]]; cbn [before after];
    split; try apply not_elem_of_nil; apply lacks_spec; vm_compute; reflexivity.
Qed.

End WrittenLineEndings.

(** ** Running a script on its own output *)

Section Reruns.

Import AddExportService IntegrateXcconfig.



End Reruns.

(** ** Identifiers *)

Section Identifiers.

Import AddExportService.




End Identifiers.

(** * Further properties of the two scripts *)

(** ** The matcher finds what is there *)

Section Completeness.

Implicit Types (p : Re.pattern) (w r s : str).

(** The repetitions find a way when there is one. *)
Lemma greedy_finds cs (k : Re.cont) u t :
  Forall (fun y => Re.in_cset cs y = true) u ->
  (forall off c, k off t c <> None) ->
  forall off c, Re.greedy_rep cs k off (u ++ t) c <> None.
Proof.
  intros Hu Hk. induction Hu as [|y u Hy Hu IH]; intros off c.
  - simpl. destruct t as [|x t]; [apply Hk|]. simpl.
    destruct (Re.in_cset cs x); [|apply Hk].
    destruct (Re.greedy_rep cs k (S off) t c); [done|apply Hk].
  - simpl. rewrite Hy.
    pose proof (IH (S off) c) as H.
    by destruct (Re.greedy_rep cs k (S off) (u ++ t) c).
Qed.

Lemma lazy_finds cs (k : Re.cont) u t :
  Forall (fun y => Re.in_cset cs y = true) u ->
  (forall off c, k off t c <> None) ->
  forall off c, Re.lazy_rep cs k off (u ++ t) c <> None.
Proof.
  intros Hu Hk. induction Hu as [|y u Hy Hu IH]; intros off c.
  - simpl. pose proof (Hk off c) as H.
    destruct t; simpl; by destruct (k off _ c).
  - simpl. destruct (k off (y :: u ++ t) c); [done|].
    rewrite Hy. apply IH.
Qed.

(** The matcher is complete: on a text that starts with a word of the
    pattern it finds a match. *)
Lemma exec_complete p w r :
  lang p w -> forall off c, Re.exec p off (w ++ r) c <> None.
Proof.
  revert w. induction p as [|nd p IH]; intros w Hw off c.
  - done.
  - destruct nd; simpl in Hw |- *.
    + destruct Hw as (w' & -> & Hw). rewrite <- app_assoc.
      rewrite startswith_app, drop_app_length. by apply IH.
    + destruct Hw as (x & u & w' & -> & Hx & Hu & Hw). simpl. rewrite Hx.
      rewrite <- app_assoc. apply greedy_finds; [done|].
      intros off' c'. by apply IH.
    + destruct Hw as (u & w' & -> & Hu & Hw).
      rewrite <- app_assoc. apply greedy_finds; [done|].
      intros off' c'. by apply IH.
    + destruct Hw as (u & w' & -> & Hu & Hw).
      rewrite <- app_assoc. apply lazy_finds; [done|].
      intros off' c'. by apply IH.
    + by apply IH.
    + by apply IH.
Qed.

Lemma match_here_complete p w r : lang p w -> Re.match_here p (w ++ r) <> None.
Proof.
  intros Hw. unfold Re.match_here.
  pose proof (exec_complete p w r Hw 0 (None, None)) as H.
  destruct (Re.exec p 0 (w ++ r) (None, None)) as [[n [[b|] [e|]]]|]; done.
Qed.

(** [re.search] reports the first position at which a word of the
    pattern starts, or an earlier one. *)
Lemma search_from_first p i a w r :
  lang p w ->
  exists m, Re.search_from p i (a ++ w ++ r) = Some m /\ Re.m_start m <= i + length a.
Proof.
  intros Hw. revert i. induction a as [|c a IH]; intros i.
  - simpl. pose proof (match_here_complete p w r Hw) as H.
    destruct (w ++ r) as [|x s] eqn:E; simpl;
      destruct (Re.match_here p _) as [[n g]|]; try done;
      eexists; (split; [done|simpl; lia]).
  - simpl. destruct (Re.match_here p (c :: a ++ w ++ r)) as [[n g]|].
    + eexists. split; [done|]. simpl. lia.
    + destruct (IH (S i)) as (m & Hm & Hle). exists m. split; [done|]. lia.
Qed.

Lemma search_first p s m a w r :
  Re.search p s = Some m -> s = a ++ w ++ r -> lang p w ->
  Re.m_start m <= length a.
Proof.
  intros Hm -> Hw. destruct (search_from_first p 0 a w r Hw) as (m' & Hm' & Hle).
  unfold Re.search in Hm. rewrite Hm in Hm'. by injection Hm' as <-.
Qed.

Lemma search_finds p s a w r :
  s = a ++ w ++ r -> lang p w -> Re.search p s <> None.
Proof.
  intros -> Hw. destruct (search_from_first p 0 a w r Hw) as (m' & Hm' & _).
  unfold Re.search. by rewrite Hm'.
Qed.

(** The first occurrence is replaced in place. *)
Lemma replace_first old new a b :
  old <> [] ->
  (forall a' b', a ++ old ++ b = a' ++ old ++ b' -> length a <= length a') ->
  Py.replace (a ++ old ++ b) old new = a ++ new ++ Py.replace b old new.
Proof.
  intros Hne. induction a as [|c a IH]; intros Hfirst.
  - simpl. by rewrite replace_hit.
  - simpl. rewrite replace_miss.
    + f_equal. apply IH. intros a' b' H.
      specialize (Hfirst (c :: a') b'). simpl in Hfirst.
      rewrite H in Hfirst. specialize (Hfirst eq_refl). lia.
    + apply startswith_false. intros r Hr.
      specialize (Hfirst [] r). simpl in Hfirst. specialize (Hfirst Hr). lia.
Qed.

End Completeness.

(** ** [integrate_xcconfig.py]: the run as a whole and Step 3 *)

Section MoreOnIntegrate.

Import IntegrateXcconfig.

Local Abbreviation DL1 := (py "A1000180000 /* Debug */ = {").
Local Abbreviation RL1 := (py "A1000190000 /* Release */ = {").
Local Abbreviation BL2 := (py "isa = XCBuildConfiguration;").
Local Abbreviation BL2' := (py "sa = XCBuildConfiguration;").

(** Without the closing comment of a section, [re.search] does not find
    the section. *)
Lemma section_needs_end B E s :
  ~ Doc.infix E s ->
  Re.search [Re.Lit B; Re.GOpen; Re.LazyStar Re.CAny; Re.GClose; Re.Lit E] s = None.
Proof.
  intros Hno. destruct (Re.search _ s) as [m|] eqn:Hm; [|done].
  apply search_sound in Hm as (pre & post & -> & _ & Hm).
  apply match_here_between in Hm as (b & t & -> & _).
  destruct Hno. exists (pre ++ B ++ b), t. by rewrite <- !app_assoc.
Qed.

(** Without its header, a block pattern has no match. *)
Lemma block_needs_header L1 L2 s :
  ~ Doc.infix L1 s ->
  Re.search (Re.GOpen :: [Re.Lit L1; Re.Star Re.CSpace; Re.Lit L2] ++ [Re.GClose]) s
  = None.
Proof.
  intros Hno. destruct (Re.search _ s) as [m|] eqn:Hm; [|done].
  apply search_whole in Hm as (pre & post & Hs & _ & _ & (w' & Hg & _));
    [|plain_body].
  destruct Hno. exists pre, (w' ++ post). by rewrite Hs, Hg, <- !app_assoc.
Qed.

(** X1.  [main] never fails and always prints the same five lines.  When
    the text read from the project file has neither of the two closing
    section comments nor one of the two build-configuration headers, no
    step applies: the text read is written back as it is, and the success
    lines are printed all the same.  The file is then what it was if and
    only if it had no carriage return. *)
Theorem X1_main_reports_success_when_nothing_applies file :
  let content := Py.universal_newlines file in
  ~ Doc.infix end_file_ref_marker content ->
  ~ Doc.infix end_group_marker content ->
  ~ Doc.infix DL1 content -> ~ Doc.infix RL1 content ->
  let r := IO.run main file in
  IO.status r = 0
  /\ IO.final_disk r = content
  /\ IO.writes r = [content]
  /\ IO.stdout r
     = [py "Successfully integrated xcconfig files into Xcode project!";
        py "- Added A10000F1000 for Debug.xcconfig";
        py "- Added A10000F2000 for Release.xcconfig";
        py "- Created Config group A10000F3000";
        py "- Assigned xcconfig files to Debug and Release configurations"]
  /\ (IO.final_disk r = file <-> cr ∉ file).
Proof.
  intros content H1 H2 H3 H4 r.
  assert (patch content = content) as Hp.
  { unfold patch, assign_base_configurations.
    assert (add_file_refs content = content) as ->
      by (unfold add_file_refs, file_ref_section_pattern;
          by rewrite section_needs_end).
    assert (add_config_group content = content) as ->
      by (unfold add_config_group, group_section_pattern;
          by rewrite section_needs_end).
    assert (assign_debug content = content) as ->.
    { apply (sub_absent [Re.Lit DL1; Re.Star Re.CSpace; Re.Lit BL2]);
        [plain_body| |by apply (block_needs_header DL1 BL2)].
      intros w Hw. by refine (lang_lit_nonempty _ _ _ _ Hw). }
    apply (sub_absent [Re.Lit RL1; Re.Star Re.CSpace; Re.Lit BL2]);
      [plain_body| |by apply (block_needs_header RL1 BL2)].
    intros w Hw. by refine (lang_lit_nonempty _ _ _ _ Hw). }
  unfold r. rewrite run_main. cbv zeta. fold content. rewrite Hp.
  split_and!; [done..|].
  unfold IO.final_disk. cbn [snd IO.disk]. split.
  - intros E. rewrite <- E. apply universal_newlines_no_cr.
  - apply universal_newlines_plain.
Qed.

(** X1 at a file with CR LF line endings and none of the anchors: the
    run writes it back with LF line endings. *)
Lemma X1_crlf_file_witness :
  let r := IO.run main Claims.crlf_file in
  IO.status r = 0
  /\ IO.final_disk r
     = py "// !$*UTF8*$!" ++ [nl] ++ py "{" ++ [nl] ++ py "}" ++ [nl]
  /\ IO.final_disk r <> Claims.crlf_file.
Proof.
  destruct (X1_main_reports_success_when_nothing_applies Claims.crlf_file)
    as (H0 & H1 & _ & _ & H2).
  - apply contains_false. vm_compute. reflexivity.
  - apply contains_false. vm_compute. reflexivity.
  - apply contains_false. vm_compute. reflexivity.
  - apply contains_false. vm_compute. reflexivity.
  - split_and!; [exact H0|exact H1|].
    intros E. apply (proj1 H2 E). vm_compute.
    apply list_elem_of_further, list_elem_of_further, list_elem_of_further.
    do 10 apply list_elem_of_further. apply list_elem_of_here.
Defined.

(** X2.  The script adds no build-configuration header: in the file it
    leaves, the Debug header and the Release header occur at most as
    often as in the file it read. *)
Theorem X2_main_adds_no_configuration_header file :
  let out := IO.final_disk (IO.run main file) in
  Doc.count DL1 out <= Doc.count DL1 file
  /\ Doc.count RL1 out <= Doc.count RL1 file.
Proof.
  intros out. unfold out. rewrite final_disk_main. unfold patch.
  split.
  - rewrite <- (count_universal_newlines DL1 file);
      [|apply lacks_spec; vm_compute; reflexivity..|done].
    etrans; [apply step3_adds_no_header; by left|].
    apply steps_add_no_header. by left.
  - rewrite <- (count_universal_newlines RL1 file);
      [|apply lacks_spec; vm_compute; reflexivity..|done].
    etrans; [apply step3_adds_no_header; by right|].
    apply steps_add_no_header. by right.
Qed.

(** X3.  The two substitutions of Step 3 do not depend on their order:
    on a content with one Debug and one Release header, each starting a
    block, the two blocks in either order, the Release substitution after
    the Debug substitution gives what the Debug substitution after the
    Release substitution gives: the content with one line behind each
    block. *)
Theorem X3_base_configuration_substitutions_commute d a ws1 mid ws2 c :
  spaces ws1 -> spaces ws2 ->
  Doc.count DL1 d = 1 -> Doc.count RL1 d = 1 ->
  (d = a ++ Claims.debug_block ws1 ++ mid ++ Claims.release_block ws2 ++ c ->
   assign_release (assign_debug d) = assign_debug (assign_release d)
   /\ assign_release (assign_debug d)
      = a ++ Claims.debug_block ws1 ++ debug_base_reference ++ mid
        ++ Claims.release_block ws2 ++ release_base_reference ++ c)
  /\ (d = a ++ Claims.release_block ws2 ++ mid ++ Claims.debug_block ws1 ++ c ->
      assign_release (assign_debug d) = assign_debug (assign_release d)
      /\ assign_release (assign_debug d)
         = a ++ Claims.release_block ws2 ++ release_base_reference ++ mid
           ++ Claims.debug_block ws1 ++ debug_base_reference ++ c).
Proof.
  intros Hws1 Hws2 HcD HcR.
  assert (Doc.count RL1 (assign_debug d) <= 1) as HcR'.
  { etrans; [|apply Nat.eq_le_incl, HcR].
    apply (scan_count _ RL1 debug_base_reference [] d _ ltac:(done)
             (header_apart_debug_reference RL1 ltac:(by right))
             (splice_scan_behind _ _ _ _ (assign_debug_splice _) []) []). }
  assert (Doc.count DL1 (assign_release d) <= 1) as HcD'.
  { etrans; [|apply Nat.eq_le_incl, HcD].
    apply (scan_count _ DL1 release_base_reference [] d _ ltac:(done)
             (header_apart_release_reference DL1 ltac:(by left))
             (splice_scan_behind _ _ _ _ (assign_release_splice _) []) []). }
  split; intros Hd.
  - assert (assign_debug d
            = a ++ Claims.debug_block ws1 ++ debug_base_reference ++ mid
              ++ Claims.release_block ws2 ++ c) as E1.
    { rewrite Hd. apply (assign_debug_once a ws1 _ Hws1). rewrite <- Hd.
      apply (only_block_of_count DL1 BL2 d a ws1 _ ltac:(done) ltac:(lia) Hd). }
    assert (assign_release d
            = a ++ Claims.debug_block ws1 ++ mid
              ++ Claims.release_block ws2 ++ release_base_reference ++ c) as E2.
    { pose proof (assign_release_once (a ++ Claims.debug_block ws1 ++ mid) ws2 c Hws2)
        as H. rewrite <- !app_assoc in H. rewrite Hd. apply H. rewrite <- Hd.
      apply (only_block_of_count RL1 BL2 d _ ws2 c ltac:(done) ltac:(lia)).
      by rewrite <- !app_assoc. }
    assert (assign_release (assign_debug d)
            = a ++ Claims.debug_block ws1 ++ debug_base_reference ++ mid
              ++ Claims.release_block ws2 ++ release_base_reference ++ c) as E3.
    { pose proof (assign_release_once
                    (a ++ Claims.debug_block ws1 ++ debug_base_reference ++ mid)
                    ws2 c Hws2) as H.
      rewrite <- !app_assoc in H. rewrite E1. apply H. rewrite <- E1.
      apply (only_block_of_count RL1 BL2 _ _ ws2 c ltac:(done) HcR').
      by rewrite E1, <- !app_assoc. }
    split; [|done]. rewrite E3, E2.
    symmetry. apply (assign_debug_once a ws1 _ Hws1). rewrite <- E2.
    by apply (only_block_of_count DL1 BL2 _ a ws1
                (mid ++ Claims.release_block ws2 ++ release_base_reference ++ c)
                ltac:(done) HcD').
  - assert (assign_release d
            = a ++ Claims.release_block ws2 ++ release_base_reference ++ mid
              ++ Claims.debug_block ws1 ++ c) as E1.
    { rewrite Hd. apply (assign_release_once a ws2 _ Hws2). rewrite <- Hd.
      apply (only_block_of_count RL1 BL2 d a ws2 _ ltac:(done) ltac:(lia) Hd). }
    assert (assign_debug d
            = a ++ Claims.release_block ws2 ++ mid
              ++ Claims.debug_block ws1 ++ debug_base_reference ++ c) as E2.
    { pose proof (assign_debug_once (a ++ Claims.release_block ws2 ++ mid) ws1 c Hws1)
        as H. rewrite <- !app_assoc in H. rewrite Hd. apply H. rewrite <- Hd.
      apply (only_block_of_count DL1 BL2 d _ ws1 c ltac:(done) ltac:(lia)).
      by rewrite <- !app_assoc. }
    assert (assign_debug (assign_release d)
            = a ++ Claims.release_block ws2 ++ release_base_reference ++ mid
              ++ Claims.debug_block ws1 ++ debug_base_reference ++ c) as E3.
    { pose proof (assign_debug_once
                    (a ++ Claims.release_block ws2 ++ release_base_reference ++ mid)
                    ws1 c Hws1) as H.
      rewrite <- !app_assoc in H. rewrite E1. apply H. rewrite <- E1.
      apply (only_block_of_count DL1 BL2 _ _ ws1 c ltac:(done) HcD').
      by rewrite E1, <- !app_assoc. }
    assert (assign_release (assign_debug d)
            = a ++ Claims.release_block ws2 ++ release_base_reference ++ mid
              ++ Claims.debug_block ws1 ++ debug_base_reference ++ c) as E4.
    { rewrite E2. apply (assign_release_once a ws2 _ Hws2). rewrite <- E2.
      by apply (only_block_of_count RL1 BL2 _ a ws2
                  (mid ++ Claims.debug_block ws1 ++ debug_base_reference ++ c)
                  ltac:(done) HcR'). }
    split; [|done]. by rewrite E4, E3.
Qed.

(** X3 at [mini_project] (Debug block first) and at [release_first], the
    same two blocks in the other order. *)
Lemma X3_both_orders_witness :
  assign_release (assign_debug Claims.mini_project)
  = assign_debug (assign_release Claims.mini_project)
  /\ assign_release (assign_debug Claims.release_first)
     = assign_debug (assign_release Claims.release_first).
Proof.
  assert (spaces [nl; tab; tab; tab]) as Hws by (repeat constructor).
  split.
  - apply (proj1 (X3_base_configuration_substitutions_commute Claims.mini_project
                    (take 235 Claims.mini_project) [nl; tab; tab; tab]
                    (take 8 (drop 293 Claims.mini_project)) [nl; tab; tab; tab]
                    (drop 361 Claims.mini_project) Hws Hws
                    ltac:(vm_compute; reflexivity)
                    ltac:(vm_compute; reflexivity))).
    vm_compute. reflexivity.
  - apply (proj2 (X3_base_configuration_substitutions_commute Claims.release_first
                    [tab; tab] [nl; tab; tab; tab]
                    (py "};" ++ [nl; tab; tab]) [nl; tab; tab; tab]
                    (py "};" ++ [nl]) Hws Hws
                    ltac:(vm_compute; reflexivity)
                    ltac:(vm_compute; reflexivity))).
    vm_compute. reflexivity.
Defined.

End MoreOnIntegrate.

(** ** [integrate_xcconfig.py]: Step 1 *)

Section StepOne.

Import IntegrateXcconfig.

(** [s.replace(M, N + M)] adds [N] at least once when [M] occurs. *)
Lemma replace_before_grows M N s :
  M <> [] -> Doc.infix M s ->
  length s + length N <= length (Py.replace s M (N ++ M)).
Proof.
  intros Hne.
  enough (length s <= length (Py.replace s M (N ++ M))
          /\ (Doc.infix M s ->
              length s + length N <= length (Py.replace s M (N ++ M)))) by tauto.
  apply (replace_ind M (N ++ M)
           (fun s out => length s <= length out
                         /\ (Doc.infix M s -> length s + length N <= length out)));
    [done|..].
  - split; [done|]. intros H. apply infix_length in H. destruct M; [done|].
    simpl in H. lia.
  - intros r out [IH _]. rewrite !length_app. lia.
  - intros c r out Hmiss [IH1 IH2]. simpl. split; [lia|].
    intros (a & b & H). destruct a as [|a0 a].
    + by destruct (proj1 (startswith_false _ _) Hmiss b).
    + injection H as _ H. specialize (IH2 ltac:(by exists a, b)). lia.
Qed.

(** X8.  When Step 1 finds the PBXFileReference section and the section
    does not contain [Debug.xcconfig], the two new lines are really
    added: the content grows by their length at least, and every closing
    comment [/* End PBXFileReference section */] of the result has the
    two lines directly in front of it (or in front of an occurrence of
    the comment that overlaps it in its last character). *)
Theorem X8_new_references_precede_closing_comment content m :
  Re.search file_ref_section_pattern content = Some m ->
  Py.contains (py "Debug.xcconfig") (Re.group1 m) = false ->
  let out := add_file_refs content in
  length content + length new_refs <= length out
  /\ forall p q, out = p ++ end_file_ref_marker ++ q ->
       (exists p', p = p' ++ new_refs)
       \/ (exists p', p = p' ++ new_refs ++ removelast end_file_ref_marker).
Proof.
  intros Hm Hc out. unfold out, add_file_refs. rewrite Hm. cbv zeta.
  rewrite Hc. cbn [negb]. split.
  - apply replace_before_grows; [done|].
    apply search_sound in Hm as (pre & post & -> & _ & Hm).
    apply match_here_between in Hm as (b & t & -> & _).
    exists (pre ++ py "/* Begin PBXFileReference section */" ++ b), t.
    by rewrite <- !app_assoc.
  - intros p q H.
    assert (new_refs = tab :: tail new_refs) as Hnr by reflexivity.
    rewrite Hnr in H |- *.
    apply (replace_before_preceded end_file_ref_marker tab (tail new_refs)
             content p q); [done|by apply lacks_spec| | |exact H].
    + apply never_starts_in_cannot. vm_compute. reflexivity.
    + vm_compute. reflexivity.
Qed.

Lemma X8_mini_project_witness :
  length Claims.mini_project + length new_refs
  <= length (add_file_refs Claims.mini_project).
Proof.
  destruct (Re.search file_ref_section_pattern Claims.mini_project) as [m|] eqn:E;
    [|vm_compute in E; discriminate].
  apply (X8_new_references_precede_closing_comment Claims.mini_project m E).
  vm_compute in E. injection E as <-. vm_compute. reflexivity.
Defined.

End StepOne.

(** ** [integrate_xcconfig.py]: Step 2 *)

Section StepTwo.

Import IntegrateXcconfig.

Local Abbreviation root_header := (py "A10000A0000 = {").

(** A one-group pattern that starts with a literal has no match in a text
    without the literal. *)
Lemma pattern_needs_literal L body s :
  Forall plain body -> ~ Doc.infix L s ->
  Re.search (Re.GOpen :: (Re.Lit L :: body) ++ [Re.GClose]) s = None.
Proof.
  intros Hb Hno. destruct (Re.search _ s) as [m|] eqn:Hm; [|done].
  apply search_whole in Hm as (pre & post & Hs & _ & _ & (w' & Hg & _));
    [|by constructor].
  destruct Hno. exists pre, (w' ++ post). by rewrite Hs, Hg, <- !app_assoc.
Qed.

(** X11.  Step 2 can define the Config group without making it a child of
    the root group: when the PBXGroup section is found and does not name
    [A10000F3000], and the file has no [A10000A0000 = {], the group
    definition is put in front of the closing comment of the section
    and nothing else is done; no [A10000F3000 /* Config */,] child is
    added. *)
Theorem X11_config_group_without_root_child content m :
  Re.search group_section_pattern content = Some m ->
  Py.contains config_group_ref (Re.group1 m) = false ->
  ~ Doc.infix root_header content ->
  let out := add_config_group content in
  out = Py.replace content end_group_marker (config_group ++ end_group_marker)
  /\ length content + length config_group <= length out
  /\ Doc.count (py "A10000F3000 /* Config */,") out
     <= Doc.count (py "A10000F3000 /* Config */,") content.
Proof.
  intros Hm Hc Hroot out.
  set (s2 := Py.replace content end_group_marker (config_group ++ end_group_marker)).
  pose proof (replace_splice_before end_group_marker config_group content
                ltac:(discriminate)) as Hsp.
  fold s2 in Hsp.
  assert (~ Doc.infix root_header s2) as Hroot2.
  { rewrite <- count_pos.
    assert (Doc.count root_header content = 0) as Hz by by apply count_absent.
    assert (apart root_header config_group) as Hap.
    { split_and!.
      - apply never_starts_in_cannot. vm_compute. reflexivity.
      - apply never_ends_in_cannot. vm_compute. reflexivity.
      - exists tab. split; [by apply lacks_false|by apply lacks_spec]. }
    pose proof (scan_count _ root_header config_group [] content s2
                  ltac:(done) Hap (splice_scan_before _ _ _ _ Hsp []) []) as H.
    cbn [app] in H. lia. }
  assert (out = s2) as ->.
  { unfold out, add_config_group. rewrite Hm. cbv zeta. rewrite Hc. cbn [negb].
    fold s2.
    apply (sub_absent [Re.Lit root_header; Re.Star Re.CSpace;
                       Re.Lit (py "isa = PBXGroup;"); Re.Star Re.CSpace;
                       Re.Lit (py "children = ("); Re.Star Re.CSpace]);
      [plain_body| |].
    - intros w Hw. by refine (lang_lit_nonempty _ _ _ _ Hw).
    - apply (pattern_needs_literal root_header); [plain_body|done]. }
  split_and!; [done| |].
  - apply replace_before_grows; [done|].
    apply search_sound in Hm as (pre & post & -> & _ & Hm).
    apply match_here_between in Hm as (b & t & -> & _).
    exists (pre ++ py "/* Begin PBXGroup section */" ++ b), t.
    by rewrite <- !app_assoc.
  - assert (apart (py "A10000F3000 /* Config */,") config_group) as Hap.
    { split_and!.
      - apply never_starts_in_cannot. vm_compute. reflexivity.
      - apply never_ends_in_cannot. vm_compute. reflexivity.
      - exists "{"%char. split; [by apply lacks_false|by apply lacks_spec]. }
    apply (scan_count _ (py "A10000F3000 /* Config */,") config_group [] content s2
             ltac:(done) Hap (splice_scan_before _ _ _ _ Hsp []) []).
Qed.

Lemma X11_no_root_group_witness :
  add_config_group Claims.no_file_ref_section
  = Py.replace Claims.no_file_ref_section end_group_marker
      (config_group ++ end_group_marker).
Proof.
  destruct (Re.search group_section_pattern Claims.no_file_ref_section)
    as [m|] eqn:E; [|vm_compute in E; discriminate].
  apply (X11_config_group_without_root_child Claims.no_file_ref_section m E).
  - vm_compute in E. injection E as <-. vm_compute. reflexivity.
  - apply contains_false. vm_compute. reflexivity.
Defined.

End StepTwo.

(** ** [add_export_service.py]: the two section directives *)

Section MoreOnAddExport.

Import AddExportService.

Local Abbreviation build_files_begin := (py "/* Begin PBXBuildFile section */").
Local Abbreviation file_refs_begin := (py "/* Begin PBXFileReference section */").

(** A section comment that occurs is found. *)
Lemma section_comment_found l s :
  Doc.infix l s -> Re.search [Re.GOpen; Re.Lit l; Re.GClose] s <> None.
Proof.
  intros (a & b & ->). apply (search_finds _ _ a l b); [done|].
  exists []. by rewrite app_nil_r.
Qed.

(** X4.  After the PBXBuildFile directive, every occurrence of the
    section comment [/* Begin PBXBuildFile section */] in the content is
    directly followed by the new entry. *)
Theorem X4_build_file_entry_follows_section_comment random1 random2 s p q :
  let fr := Uuid.token random1 in
  let bf := Uuid.token random2 in
  add_build_file fr bf s = p ++ build_files_begin ++ q ->
  exists q', q = build_file_entry fr bf ++ q'.
Proof.
  intros fr bf H. unfold add_build_file in H.
  destruct (Re.search build_file_section_pattern s) as [m|] eqn:Hm.
  - rewrite (lit_match_group build_files_begin s m ltac:(done) Hm) in H.
    assert ("/"%char ∉ fr) as H1 by by apply token_lacks.
    assert ("/"%char ∉ bf) as H2 by by apply token_lacks.
    apply (replace_after_followed build_files_begin nl
             ([tab; tab] ++ bf
              ++ py " /* ExportService.swift in Sources */ = {isa = PBXBuildFile; fileRef = "
              ++ fr ++ py " /* ExportService.swift */; };") s p q);
      [done|by apply lacks_spec| |exact H].
    change (cannot_start_in build_files_begin
              ([nl; tab; tab] ++ bf
               ++ py " /* ExportService.swift in Sources */ = {isa = PBXBuildFile; fileRef = "
               ++ fr ++ py " /* ExportService.swift */; };")).
    apply cannot_start_in_app;
      [apply never_starts_in_cannot; vm_compute; reflexivity|].
    apply cannot_start_in_app; [by apply (cannot_start_in_lacks "/")|].
    apply cannot_start_in_app;
      [apply never_starts_in_cannot; vm_compute; reflexivity|].
    apply cannot_start_in_app; [by apply (cannot_start_in_lacks "/")|].
    apply never_starts_in_cannot; vm_compute; reflexivity.
  - exfalso. apply (section_comment_found build_files_begin s); [|exact Hm].
    by exists p, q.
Qed.

Lemma X4_export_project_witness :
  exists q',
    drop (length build_files_begin)
      (add_build_file (Uuid.token 7) (Uuid.token 11) Claims.export_project)
    = build_file_entry (Uuid.token 7) (Uuid.token 11) ++ q'.
Proof.
  apply (X4_build_file_entry_follows_section_comment 7 11 Claims.export_project []).
  vm_compute. reflexivity.
Defined.

(** X5.  After the PBXFileReference directive, every occurrence of the
    section comment [/* Begin PBXFileReference section */] in the content
    is directly followed by the new entry. *)
Theorem X5_file_ref_entry_follows_section_comment random s p q :
  let fr := Uuid.token random in
  add_file_ref fr s = p ++ file_refs_begin ++ q ->
  exists q', q = file_ref_entry fr ++ q'.
Proof.
  intros fr H. unfold add_file_ref in H.
  destruct (Re.search file_ref_section_pattern s) as [m|] eqn:Hm.
  - rewrite (lit_match_group file_refs_begin s m ltac:(done) Hm) in H.
    destruct (file_ref_entry_shape random) as ([E' HE] & Hst & _).
    fold fr in HE, Hst. rewrite HE in H, Hst |- *.
    apply (replace_after_followed file_refs_begin nl E' s p q);
      [done|by apply lacks_spec|exact Hst|exact H].
  - exfalso. apply (section_comment_found file_refs_begin s); [|exact Hm].
    by exists p, q.
Qed.

Lemma X5_export_project_witness :
  exists q',
    drop 226 (add_file_ref (Uuid.token 7) Claims.export_project)
    = file_ref_entry (Uuid.token 7) ++ q'.
Proof.
  apply (X5_file_ref_entry_follows_section_comment 7 Claims.export_project
           (take 190 Claims.export_project)).
  vm_compute. reflexivity.
Defined.

End MoreOnAddExport.

(** ** [add_export_service.py]: the two list directives *)

Section LastChild.

Import AddExportService.

(** A run matched by [[^c]+] or [[^c]*] lacks [c]. *)
Lemma cnot_lacks c (u : str) :
  Forall (fun y => Re.in_cset (Re.CNot c) y = true) u -> c ∉ u.
Proof.
  intros Hu Hin. rewrite Forall_forall in Hu. apply Hu in Hin.
  simpl in Hin. by rewrite Ascii.eqb_refl in Hin.
Qed.

(** What a directive with a pattern [(L1[^c1]+L2[^c2]+)] does to the
    content: the match is the first occurrence of its own text, it ends
    in front of [c2] or at the end of the content, and the new text is
    put right behind it. *)
Lemma two_runs_first_replaced L1 c1 L2 c2 ins s m :
  L1 <> [] ->
  Re.search [Re.GOpen; Re.Lit L1; Re.Plus (Re.CNot c1); Re.Lit L2;
             Re.Plus (Re.CNot c2); Re.GClose] s = Some m ->
  let g := Re.group1 m in
  exists pre post,
    s = pre ++ g ++ post
    /\ (post = [] \/ exists post', post = c2 :: post')
    /\ (exists u v, g = L1 ++ u ++ L2 ++ v /\ u <> [] /\ v <> []
                    /\ (c1 ∉ u) /\ (c2 ∉ v))
    /\ (forall a' b', s = a' ++ g ++ b' -> length pre <= length a')
    /\ Py.replace s g (g ++ ins) = pre ++ g ++ ins ++ Py.replace post g (g ++ ins).
Proof.
  intros HL Hm g.
  destruct (search_group L1 [Re.Plus (Re.CNot c1); Re.Lit L2; Re.Plus (Re.CNot c2)]
              s m HL ltac:(plain_body) Hm) as [Hne _].
  pose proof Hm as Hm'.
  apply (search_whole [Re.Lit L1; Re.Plus (Re.CNot c1); Re.Lit L2;
                       Re.Plus (Re.CNot c2)]) in Hm'
    as (_ & _ & _ & _ & _ & Hlang); [|plain_body].
  pose proof Hm as Hs.
  apply search_sound in Hs as (pre & post0 & Hs & Hstart & Hh).
  apply match_two_runs in Hh as (w & t & -> & _ & Hg & Ht & _).
  assert (g = w) as Hgw by (unfold g, Re.group1; by rewrite Hg).
  fold g in Hne, Hlang. rewrite Hgw in *.
  assert (forall a' b', s = a' ++ w ++ b' -> length pre <= length a') as Hfirst.
  { intros a' b' Hs'. rewrite <- Hstart.
    apply (search_first _ s m a' w b' Hm Hs').
    simpl. by apply (lang_close [Re.Lit L1; Re.Plus (Re.CNot c1); Re.Lit L2;
                                 Re.Plus (Re.CNot c2)]). }
  exists pre, t. split_and!; [done|done| |done|].
  - destruct Hlang as (w' & Hw & x & u0 & w'' & -> & Hx & Hu & w3 & ->
                       & y & v0 & w4 & -> & Hy & Hv & ->).
    exists (x :: u0), (y :: v0). rewrite app_nil_r in Hw.
    split_and!; [exact Hw|done|done|..]; apply cnot_lacks; by constructor.
  - rewrite Hs, replace_first, <- !app_assoc; [done..|].
    intros a' b' H. apply (Hfirst a' b'). by rewrite Hs.
Qed.





End LastChild.

(** ** The digits of an identifier *)

Section TokenBits.

Local Open Scope N_scope.

(** The digits of the token, most significant first. *)
Lemma token_digits random :
  Uuid.token random
  = map (fun k => Uuid.upper_char
                    (Uuid.hexdigit
                       (N.land (N.shiftr (Uuid.uuid4 random) (4 * N.of_nat k)) 15)))
        (take 24 (rev (seq 0 32))).
Proof.
  unfold Uuid.token, Uuid.upper, Uuid.hex.
  by rewrite firstn_map, map_map.
Qed.

(** The bits of the UUID above the lowest 32 are made of the bits of the
    random number above its lowest 32. *)
Lemma uuid4_high random :
  N.shiftr (Uuid.uuid4 random) 32
  = N.lor (N.ldiff (N.lor (N.ldiff (N.shiftr random 32)
                                   (N.shiftr (N.shiftl 0xc000 48) 32))
                          (N.shiftr (N.shiftl 0x8000 48) 32))
                   (N.shiftr (N.shiftl 0xf000 64) 32))
          (N.shiftr (N.shiftl 4 76) 32).
Proof.
  unfold Uuid.uuid4. cbv zeta.
  by rewrite N.shiftr_lor, N.shiftr_ldiff, N.shiftr_lor, N.shiftr_ldiff.
Qed.

(** X9.  The identifier is made of the first 96 bits of the UUID alone:
    two draws of [uuid4] that differ in their last 32 bits only give the
    same identifier. *)
Theorem X9_token_ignores_last_32_bits random1 random2 :
  N.shiftr random1 32 = N.shiftr random2 32 ->
  Uuid.token random1 = Uuid.token random2.
Proof.
  intros H. rewrite !token_digits.
  apply map_ext_in. intros k Hk.
  assert (8 <= k)%nat as Hk8.
  { change (take 24 (rev (seq 0 32))) with (rev (seq 8 24)) in Hk.
    apply in_rev, in_seq in Hk. lia. }
  do 3 f_equal.
  replace (4 * N.of_nat k) with (32 + (4 * N.of_nat k - 32)) by lia.
  rewrite <- !N.shiftr_shiftr. f_equal.
  by rewrite !uuid4_high, H.
Qed.

Lemma X9_token_witness : Uuid.token 5 = Uuid.token (5 + 2 ^ 31).
Proof. apply X9_token_ignores_last_32_bits. vm_compute. reflexivity. Defined.

End TokenBits.

Section TokenDigits.

Local Open Scope N_scope.

Lemma constant_bit_high a n : N.log2 a < n -> N.testbit a n = false.
Proof. apply N.bits_above_log2. Qed.

(** The version digit of the UUID. *)
Lemma version_digit random :
  N.land (N.shiftr (Uuid.uuid4 random) 76) 15 = 4.
Proof.
  apply N.bits_inj. intros n. unfold Uuid.uuid4. cbv zeta.
  rewrite N.land_spec, N.shiftr_spec', N.lor_spec, N.ldiff_spec,
    N.lor_spec, N.ldiff_spec.
  destruct (N.lt_ge_cases n 4) as [Hn|Hn].
  - assert (n = 0 \/ n = 1 \/ n = 2 \/ n = 3) as [->|[->|[->| ->]]] by lia;
      destruct (N.testbit random _); reflexivity.
  - rewrite (constant_bit_high 15 n), (constant_bit_high 4 n)
      by (simpl; lia).
    apply andb_false_r.
Qed.

(** The variant digit of the UUID: binary [10] and two random bits. *)
Lemma variant_digit random :
  N.land (N.shiftr (Uuid.uuid4 random) 60) 15
  = N.lor 8 (N.land (N.shiftr random 60) 3).
Proof.
  apply N.bits_inj. intros n. unfold Uuid.uuid4. cbv zeta.
  rewrite !N.lor_spec, !N.land_spec, !N.shiftr_spec', !N.lor_spec,
    !N.ldiff_spec, !N.lor_spec, !N.ldiff_spec.
  destruct (N.lt_ge_cases n 4) as [Hn|Hn].
  - assert (n = 0 \/ n = 1 \/ n = 2 \/ n = 3) as [->|[->|[->| ->]]] by lia;
      destruct (N.testbit random _); reflexivity.
  - rewrite (constant_bit_high 15 n), (constant_bit_high 8 n),
      (constant_bit_high 3 n) by (simpl; lia).
    by rewrite !andb_false_r.
Qed.

(** X10.  Every identifier shows where it comes from: its 13th character
    is the version digit [4] of the UUID and its 17th is one of [8], [9],
    [A], [B]; six of its 96 bits are not random. *)
Theorem X10_token_version_and_variant random :
  nth 12 (Uuid.token random) "0"%char = "4"%char
  /\ nth 16 (Uuid.token random) "0"%char
       ∈ ["8"%char; "9"%char; "A"%char; "B"%char].
Proof.
  rewrite token_digits.
  set (f := fun k : nat => _).
  change (take 24 (rev (seq 0 32)))
    with [31; 30; 29; 28; 27; 26; 25; 24; 23; 22; 21; 20; 19; 18; 17; 16;
          15; 14; 13; 12; 11; 10; 9; 8]%nat.
  cbn [map nth]. subst f. cbv beta.
  change (4 * N.of_nat 19) with 76. change (4 * N.of_nat 15) with 60.
  rewrite version_digit, variant_digit. split; [reflexivity|].
  assert (N.land (N.shiftr random 60) 3 < 4) as Hlt.
  { change 3 with (N.ones 2). rewrite N.land_ones. by apply N.mod_lt. }
  set (w := N.land (N.shiftr random 60) 3) in *.
  assert (w = 0 \/ w = 1 \/ w = 2 \/ w = 3) as [->|[->|[->| ->]]] by lia.
  - apply (list_elem_of_lookup_2 _ 0%nat). reflexivity.
  - apply (list_elem_of_lookup_2 _ 1%nat). reflexivity.
  - apply (list_elem_of_lookup_2 _ 2%nat). reflexivity.
  - apply (list_elem_of_lookup_2 _ 3%nat). reflexivity.
Qed.

End TokenDigits.


(** ** [integrate_xcconfig.py]: Step 3 on any content *)

Section EveryBlock.

Variables (c1 : ascii) (L1' L2' : str) (x2 : ascii) (ins : str).
Hypothesis c1_not_space : Re.isspace c1 = false.
Hypothesis x2_not_space : Re.isspace x2 = false.

Let L1 : str := c1 :: L1'.
Let L2 : str := x2 :: L2'.
Let P : Re.pattern :=
  Re.GOpen :: [Re.Lit L1; Re.Star Re.CSpace; Re.Lit L2] ++ [Re.GClose].
Let t : Re.template := [Re.TGroup1; Re.TText ins].

Hypothesis ins_clear : clear_of_blocks L1 L2 ins.
Hypothesis no_self_overlap : cannot_start_in L1 L1'.
Hypothesis not_in_tail : cannot_start_in L1 L2.

Implicit Types (s out p q ws : str).

(** A run of white space in front of a character that is none has one
    length only. *)
Lemma spaces_run_unique ws ws' y z y' z' :
  spaces ws -> spaces ws' -> Re.isspace y = false -> Re.isspace y' = false ->
  ws ++ y :: z = ws' ++ y' :: z' -> ws = ws' /\ z = z'.
Proof.
  intros Hws. revert ws'. induction Hws as [|a ws Ha _ IH];
    intros ws' Hws' Hy Hy' H.
  - destruct Hws' as [|a' ws' Ha' _]; simpl in H.
    + by injection H as _ ->.
    + injection H as -> _. congruence.
  - destruct Hws' as [|a' ws' Ha' Hws']; simpl in H.
    + injection H as <- _. congruence.
    + injection H as <- H. destruct (IH ws' Hws' Hy Hy' H) as [-> ->]. done.
Qed.

(** Two blocks that start at the same place are one block. *)
Lemma same_block ws ws' z z' :
  spaces ws -> spaces ws' ->
  block L1 L2 ws ++ z = block L1 L2 ws' ++ z' -> ws = ws' /\ z = z'.
Proof.
  intros Hws Hws' H. unfold block in H. rewrite <- !app_assoc in H.
  apply app_inv_head in H. unfold L2 in H. cbn [app] in H.
  destruct (spaces_run_unique _ _ _ _ _ _ Hws Hws' x2_not_space x2_not_space H)
    as [-> H']. split; [done|]. by apply app_inv_head in H'.
Qed.

(** No block starts inside a block. *)
Lemma no_block_inside ws a a0 ws' z z' :
  spaces ws -> block L1 L2 ws ++ z = (a0 :: a) ++ block L1 L2 ws' ++ z' ->
  length (a0 :: a) < length (block L1 L2 ws) -> False.
Proof.
  intros Hws H Hlen.
  assert (cannot_start_in L1 (L1' ++ ws ++ L2)) as Hno.
  { apply cannot_start_in_app; [done|]. apply cannot_start_in_app; [|done].
    apply cannot_start_in_lacks. intros Hin. unfold spaces in Hws.
    rewrite Forall_forall in Hws. apply Hws in Hin. congruence. }
  assert ((L1' ++ ws ++ L2) ++ z = a ++ L1 ++ ws' ++ L2 ++ z') as HT.
  { unfold block, L1 in H. rewrite <- !app_assoc in H. simpl in H.
    injection H as _ H. by rewrite <- !app_assoc. }
  assert (length a < length (L1' ++ ws ++ L2)) as Hlt.
  { unfold block, L1 in Hlen. simpl in Hlen. rewrite !length_app in *.
    simpl in *. lia. }
  apply (Hno (length a) (ws' ++ L2 ++ z') z Hlt).
  apply (f_equal (drop (length a))) in HT.
  rewrite drop_app_length in HT. rewrite <- HT.
  rewrite drop_app_le by lia. done.
Qed.

Lemma block_lang w : lang [Re.Lit L1; Re.Star Re.CSpace; Re.Lit L2] w ->
  exists ws, spaces ws /\ w = block L1 L2 ws.
Proof.
  intros (w' & -> & u & w'' & -> & Hu & w3 & -> & ->).
  exists u. split; [exact Hu|]. unfold block. by rewrite app_nil_r.
Qed.

(** After [re.sub], every block of the result is followed by the
    inserted text. *)
Lemma sub_block_followed s p ws q :
  spaces ws -> Re.sub P t s = p ++ block L1 L2 ws ++ q ->
  exists q', q = ins ++ q'.
Proof.
  intros Hws. revert p q.
  enough ((Re.sub P t s = s
           \/ exists x ws1 r' out', spaces ws1 /\ s = x ++ block L1 L2 ws1 ++ r'
                /\ Re.sub P t s = x ++ block L1 L2 ws1 ++ ins ++ out')
          /\ forall p q, Re.sub P t s = p ++ block L1 L2 ws ++ q ->
                         exists q', q = ins ++ q') by tauto.
  apply (sub_ind [Re.Lit L1; Re.Star Re.CSpace; Re.Lit L2] ins
           ltac:(plain_body)
           ltac:(intros w Hw; by refine (lang_lit_nonempty _ _ _ _ Hw))
           (fun s out =>
              (out = s
               \/ exists x ws1 r' out', spaces ws1 /\ s = x ++ block L1 L2 ws1 ++ r'
                    /\ out = x ++ block L1 L2 ws1 ++ ins ++ out')
              /\ forall p q, out = p ++ block L1 L2 ws ++ q ->
                             exists q', q = ins ++ q')).
  - split; [by left|]. intros p q H. symmetry in H.
    apply app_eq_nil in H as [_ H]. by destruct (block L1 L2 ws ++ q) eqn:E.
  - intros w r out Hmatch Hlang [_ IH].
    apply block_lang in Hlang as (ws1 & Hws1 & ->).
    split; [right; by exists [], ws1, r, out|].
    intros p q H. pose proof H as H'.
    apply (block_beside_insertion L1 L2' x2 ins (block L1 L2 ws1) out p ws q
             ins_clear Hws) in H as [(z & H)|(z & -> & H)].
    + assert (q = z ++ ins ++ out) as ->.
      { rewrite H in H'. rewrite <- !app_assoc in H'.
        by do 2 apply app_inv_head in H'. }
      destruct p as [|a0 a].
      * simpl in H. rewrite <- (app_nil_r (block L1 L2 ws1)) in H.
        apply same_block in H as [_ <-]; [|done..]. by exists out.
      * exfalso. rewrite <- (app_nil_r (block L1 L2 ws1)) in H.
        apply (no_block_inside ws1 a a0 ws [] z Hws1 H).
        apply (f_equal length) in H. rewrite !length_app in H.
        unfold block at 2, L1 in H. simpl in *. lia.
    + by apply (IH z q).
  - intros c r out Hmiss [IHa IHb]. split.
    + destruct IHa as [->|(x & ws1 & r' & out' & Hws1 & -> & ->)]; [by left|].
      right. by exists (c :: x), ws1, r', out'.
    + intros p q H. destruct p as [|c' p].
      * exfalso. rewrite app_nil_l in H.
        assert (forall z, c :: r <> block L1 L2 ws ++ z) as Hno.
        { intros z Hz.
          pose proof (match_block_complete L1 L2' x2 x2_not_space ws z Hws) as Hc.
          fold L2 in Hc. rewrite <- Hz in Hc. cbn [app] in Hc, Hmiss.
          congruence. }
        destruct IHa as [->|(x & ws1 & r' & out' & Hws1 & -> & ->)];
          [by apply (Hno q)|].
        destruct (decide (length (block L1 L2 ws)
                          <= length ((c :: x) ++ block L1 L2 ws1))) as [Hn|Hn].
        -- assert (c :: x ++ block L1 L2 ws1 ++ ins ++ out'
                   = ((c :: x) ++ block L1 L2 ws1) ++ ins ++ out') as E1
             by (by rewrite <- app_assoc).
           assert (c :: x ++ block L1 L2 ws1 ++ r'
                   = ((c :: x) ++ block L1 L2 ws1) ++ r') as E2
             by (by rewrite <- app_assoc).
           rewrite E1 in H. rewrite E2 in Hno.
           apply (f_equal (take (length (block L1 L2 ws)))) in H.
           rewrite take_app_length, take_app_le in H by done.
           apply (Hno (drop (length (block L1 L2 ws))
                         (((c :: x) ++ block L1 L2 ws1) ++ r'))).
           rewrite <- (take_drop (length (block L1 L2 ws))
                         (((c :: x) ++ block L1 L2 ws1) ++ r')) at 1.
           f_equal. by rewrite take_app_le.
        -- apply (no_block_inside ws x c ws1 q (ins ++ out') Hws).
           ++ by rewrite <- H.
           ++ rewrite length_app in Hn. simpl in *. lia.
      * injection H as _ H. by apply (IHb p q).
Qed.

End EveryBlock.

Section KeptBehind.

(** Blocks [A] with the text [insA] behind them, and a substitution that
    puts [insB] behind blocks [B]. *)
Variables (cA : ascii) (LA' L2a' : str) (xa : ascii) (insA : str).
Variables (cB : ascii) (LB' L2b' : str) (xb : ascii) (insB : str).
Hypothesis cA_not_space : Re.isspace cA = false.
Hypothesis cB_not_space : Re.isspace cB = false.
Hypothesis xb_not_space : Re.isspace xb = false.

Let LA : str := cA :: LA'.
Let L2a : str := xa :: L2a'.
Let LB : str := cB :: LB'.
Let L2b : str := xb :: L2b'.
Let PB : Re.pattern :=
  Re.GOpen :: [Re.Lit LB; Re.Star Re.CSpace; Re.Lit L2b] ++ [Re.GClose].
Let tB : Re.template := [Re.TGroup1; Re.TText insB].

Hypothesis insB_clear : clear_of_blocks LA L2a insB.
Hypothesis A_not_in_B :
  cannot_start_in LA LB /\ cannot_start_in LA L2b.
Hypothesis B_not_in_A :
  cannot_start_in LB LA' /\ cannot_start_in LB L2a /\ cannot_start_in LB insA.

Implicit Types (s out p q ws : str).

Lemma spaces_cannot_start c L ws :
  Re.isspace c = false -> spaces ws -> cannot_start_in (c :: L) ws.
Proof.
  intros Hc Hws. apply cannot_start_in_lacks. intros Hin.
  unfold spaces in Hws. rewrite Forall_forall in Hws. apply Hws in Hin.
  congruence.
Qed.

(** The substitution keeps the text behind every block [A]. *)
Lemma sub_keeps_followed s :
  (forall p ws q, spaces ws -> s = p ++ block LA L2a ws ++ q ->
                  exists q', q = insA ++ q') ->
  forall p ws q, spaces ws -> Re.sub PB tB s = p ++ block LA L2a ws ++ q ->
                 exists q', q = insA ++ q'.
Proof.
  enough ((Re.sub PB tB s = s
           \/ exists x ws1 r' out', spaces ws1 /\ s = x ++ block LB L2b ws1 ++ r'
                /\ Re.sub PB tB s = x ++ block LB L2b ws1 ++ insB ++ out')
          /\ ((forall p ws q, spaces ws -> s = p ++ block LA L2a ws ++ q ->
                             exists q', q = insA ++ q') ->
              forall p ws q, spaces ws ->
                Re.sub PB tB s = p ++ block LA L2a ws ++ q ->
                exists q', q = insA ++ q')) by tauto.
  apply (sub_ind [Re.Lit LB; Re.Star Re.CSpace; Re.Lit L2b] insB
           ltac:(plain_body)
           ltac:(intros w Hw; by refine (lang_lit_nonempty _ _ _ _ Hw))
           (fun s out =>
              (out = s
               \/ exists x ws1 r' out', spaces ws1 /\ s = x ++ block LB L2b ws1 ++ r'
                    /\ out = x ++ block LB L2b ws1 ++ insB ++ out')
              /\ ((forall p ws q, spaces ws -> s = p ++ block LA L2a ws ++ q ->
                                  exists q', q = insA ++ q') ->
                  forall p ws q, spaces ws -> out = p ++ block LA L2a ws ++ q ->
                                 exists q', q = insA ++ q'))).
  - split; [by left|]. intros _ p ws q _ H. symmetry in H.
    apply app_eq_nil in H as [_ H]. by destruct (block LA L2a ws ++ q) eqn:E.
  - intros w r out Hmatch Hlang [_ IH].
    apply (block_lang cB LB' L2b' xb) in Hlang as (ws1 & Hws1 & ->).
    split; [right; by exists [], ws1, r, out|].
    intros Hs p ws q Hws H.
    apply (block_beside_insertion LA L2a' xa insB (block LB L2b ws1) out p ws q
             insB_clear Hws) in H as [(z & H)|(z & -> & H)].
    + exfalso. destruct A_not_in_B as [H1 H2].
      assert (cannot_start_in LA (LB ++ ws1 ++ L2b)) as Hno.
      { apply cannot_start_in_app; [done|]. apply cannot_start_in_app; [|done].
        by apply spaces_cannot_start. }
      apply (Hno (length p) (ws ++ L2a ++ z) []).
      * apply (f_equal length) in H. unfold block in *.
        rewrite !length_app in *. simpl in *. lia.
      * unfold block in H. rewrite H. rewrite drop_app_length.
        by rewrite app_nil_r, <- !app_assoc.
    + apply (IH ltac:(intros p' ws' q' Hws' ->;
                      apply (Hs (block LB L2b ws1 ++ p') ws' q' Hws');
                      by rewrite <- !app_assoc) z ws q Hws H).
  - intros c r out Hmiss [IHa IHb]. split.
    + destruct IHa as [->|(x & ws1 & r' & out' & Hws1 & -> & ->)]; [by left|].
      right. by exists (c :: x), ws1, r', out'.
    + intros Hs p ws q Hws H.
      assert (forall p ws q, spaces ws -> r = p ++ block LA L2a ws ++ q ->
                             exists q', q = insA ++ q') as Hr.
      { intros p' ws' q' Hws' ->. by apply (Hs (c :: p') ws' q' Hws'). }
      destruct p as [|c' p];
        [|injection H as _ H; by apply (IHb Hr p ws q Hws)].
      rewrite app_nil_l in H.
      destruct IHa as [->|(x & ws1 & r' & out' & Hws1 & -> & ->)];
        [by apply (Hs [] ws q Hws)|].
      destruct B_not_in_A as (H1 & H2 & H3).
      assert (cannot_start_in LB (LA' ++ ws ++ L2a)) as Hno.
      { apply cannot_start_in_app; [done|]. apply cannot_start_in_app; [|done].
        by apply spaces_cannot_start. }
      destruct (decide (length (block LA L2a ws) <= length (c :: x))) as [Hn|Hn].
      * assert (exists x', c :: x = block LA L2a ws ++ x') as (x' & Hx).
        { exists (drop (length (block LA L2a ws)) (c :: x)).
          rewrite <- (take_drop (length (block LA L2a ws)) (c :: x)) at 1.
          f_equal.
          change (c :: x ++ block LB L2b ws1 ++ insB ++ out')
            with ((c :: x) ++ block LB L2b ws1 ++ insB ++ out') in H.
          apply (f_equal (take (length (block LA L2a ws)))) in H.
          by rewrite take_app_le, take_app_length in H by done. }
        change (c :: x ++ block LB L2b ws1 ++ insB ++ out')
          with ((c :: x) ++ block LB L2b ws1 ++ insB ++ out') in H.
        rewrite Hx, <- app_assoc in H. apply app_inv_head in H. subst q.
        destruct (Hs [] ws (x' ++ block LB L2b ws1 ++ r') Hws) as (q0 & Hq0).
        { change (c :: x ++ block LB L2b ws1 ++ r')
            with ((c :: x) ++ block LB L2b ws1 ++ r').
          by rewrite Hx, <- app_assoc. }
        apply app_eq_inv in Hq0 as [(k & -> & _)|(k & Hk & Hq0)].
        -- exists (k ++ block LB L2b ws1 ++ insB ++ out').
           by rewrite <- !app_assoc.
        -- destruct k as [|k0 k].
           { rewrite app_nil_r in Hk. subst insA.
             by exists (block LB L2b ws1 ++ insB ++ out'). }
           exfalso. apply (H3 (length x') (ws1 ++ L2b ++ r') q0).
           ++ rewrite Hk, length_app. simpl. lia.
           ++ rewrite Hk, drop_app_length. unfold block in Hq0.
              by rewrite <- !app_assoc in Hq0.
      * exfalso.
        assert ((LA' ++ ws ++ L2a) ++ q
                = x ++ LB ++ ws1 ++ L2b ++ insB ++ out') as HT.
        { unfold block, LA in H. rewrite <- !app_assoc in H. simpl in H.
          injection H as _ H. by rewrite <- !app_assoc. }
        assert (length x < length (LA' ++ ws ++ L2a)) as Hlt.
        { unfold block, LA in Hn. rewrite !length_app in *. simpl in *. lia. }
        apply (Hno (length x) (ws1 ++ L2b ++ insB ++ out') q Hlt).
        apply (f_equal (drop (length x))) in HT.
        rewrite drop_app_length in HT. rewrite <- HT.
        rewrite drop_app_le by lia. done.
Qed.

End KeptBehind.

Section EveryConfiguration.

Import IntegrateXcconfig.

Local Abbreviation DL1' := (py "1000180000 /* Debug */ = {").
Local Abbreviation RL1' := (py "1000190000 /* Release */ = {").
Local Abbreviation BL2' := (py "sa = XCBuildConfiguration;").

Lemma reference_clear L1 T :
  never_starts_in L1 T = true ->
  never_ends_in (py "isa = XCBuildConfiguration;") T = true ->
  lacks "." T = false -> lacks "." L1 = true ->
  clear_of_blocks L1 (py "isa = XCBuildConfiguration;") T.
Proof.
  intros H1 H2 H3 H4. split_and!; [done..|].
  exists "."%char. split_and!; [by apply lacks_false|by apply lacks_spec| |done].
  by apply lacks_spec.
Qed.

(** X12.  Step 3 on any content: in the file the script leaves, every
    Debug block [A1000180000 /* Debug */ = {\s*isa = XCBuildConfiguration;]
    is directly followed by the Debug line and every Release block by
    the Release line, however many blocks there are. *)
Theorem X12_every_block_is_followed_by_its_line file p ws q :
  spaces ws ->
  let out := IO.final_disk (IO.run main file) in
  (out = p ++ Claims.debug_block ws ++ q ->
   exists q', q = debug_base_reference ++ q')
  /\ (out = p ++ Claims.release_block ws ++ q ->
      exists q', q = release_base_reference ++ q').
Proof.
  intros Hws out. unfold out. rewrite final_disk_main.
  unfold patch, assign_base_configurations.
  set (d := add_config_group (add_file_refs (Py.universal_newlines file))).
  split; intros H.
  - refine (sub_keeps_followed "A" DL1' BL2' "i" debug_base_reference
              "A" RL1' BL2' "i" release_base_reference
              eq_refl eq_refl _ _ _ (assign_debug d) _ p ws q Hws H).
    + apply reference_clear; vm_compute; reflexivity.
    + split; apply never_starts_in_cannot; vm_compute; reflexivity.
    + split_and!; apply never_starts_in_cannot; vm_compute; reflexivity.
    + intros p' ws' q' Hws' H'.
      refine (sub_block_followed "A" DL1' BL2' "i" debug_base_reference
                eq_refl eq_refl _ _ _ d p' ws' q' Hws' H').
      * apply reference_clear; vm_compute; reflexivity.
      * apply never_starts_in_cannot. vm_compute. reflexivity.
      * apply never_starts_in_cannot. vm_compute. reflexivity.
  - refine (sub_block_followed "A" RL1' BL2' "i" release_base_reference
              eq_refl eq_refl _ _ _ (assign_debug d) p ws q Hws H).
    + apply reference_clear; vm_compute; reflexivity.
    + apply never_starts_in_cannot. vm_compute. reflexivity.
    + apply never_starts_in_cannot. vm_compute. reflexivity.
Qed.

Lemma X12_mini_project_witness :
  exists q',
    drop 955 (IO.final_disk (IO.run main Claims.mini_project))
    = release_base_reference ++ q'.
Proof.
  assert (spaces [nl; tab; tab; tab]) as Hws by (repeat constructor).
  apply (proj2 (X12_every_block_is_followed_by_its_line Claims.mini_project
                  (take 895 (IO.final_disk (IO.run main Claims.mini_project)))
                  [nl; tab; tab; tab]
                  (drop 955 (IO.final_disk (IO.run main Claims.mini_project)))
                  Hws)).
  vm_compute. reflexivity.
Defined.

End EveryConfiguration.

(** ** Line endings of the files the scripts leave *)

Section NormalisedLineEndings.

Import AddExportService.

(** X13.  Whatever the line endings of the project file, what a script
    writes has no carriage return: CR LF and lone CR line endings are
    read as newlines and no directive brings a carriage return in. *)
Theorem X13_written_content_has_no_carriage_return :
  (forall random1 random2 file content,
     content ∈ IO.writes (IO.run (script random1 random2) file) -> cr ∉ content)
  /\ (forall file content,
        content ∈ IO.writes (IO.run IntegrateXcconfig.main file) -> cr ∉ content).
Proof.
  split.
  - intros random1 random2 file content.
    destruct (Re.search services_pattern (Py.universal_newlines file))
      as [m|] eqn:E.
    + rewrite (run_services_found _ _ _ _ E).
      unfold IO.writes, IO.events. cbn [snd IO.log omap list_omap].
      intros Hin. apply list_elem_of_singleton in Hin as ->.
      apply patch_no_cr; [done|]. apply universal_newlines_no_cr.
    + rewrite run_services_missing by done.
      unfold IO.writes, IO.events. cbn [snd IO.log omap list_omap].
      by intros Hin%elem_of_nil.
  - intros file content. rewrite run_main.
    unfold IO.writes, IO.events. cbn [snd IO.log omap list_omap].
    intros Hin. apply list_elem_of_singleton in Hin as ->.
    apply integrate_patch_no_cr, universal_newlines_no_cr.
Qed.

End NormalisedLineEndings.
